(** * Memory-Allocation-Tracker: the allocation engine, embedded and verified

    A shallow embedding of [memory_allocation_engine.py] (classes
    [MemoryBlock], [Page], [Process], [MemoryEvent], [MemoryManager],
    [ProcessGenerator]) and of the handlers of [gui_initial.py] that drive
    the engine, followed by the properties of the engine's block list, frame
    table, process map, event log, statistics and snapshots.

    Conventions of the embedding.
    - Python integers are [Z]; [//] and [%] are [Z.div] and [Z.modulo], which
      agree with Python's floor division and modulo for every sign.
    - List positions produced by [enumerate] and [range] are [nat].
    - [self.processes] (a dict) is a [gmap Z Process.t]; the [Process] object
      stored in the dict is the one the strategy functions mutate, so the
      model writes the mutated record back under the same key.
    - Wall-clock fields ([allocated_time], [allocation_time], [timestamp])
      are not represented: no control flow reads them.
    - A Python float is an IEEE 754 double, represented by [spec_float]
      of the Standard Library (53 bits, round to nearest, ties to even); the
      division of two ints is the nearest double of the quotient and raises
      [OverflowError] beyond the range of a double.
    - A call that changes the engine is a pair: what the call returns or
      raises, and the engine as the call leaves it.
    - The limits of an interpreter (the memory that a list takes, the digit
      limit of the conversion of an int to text) are not represented in the
      engine; the handler of the GUI that outlives a constructor that
      raises takes the outcome of the constructor as an argument.
    - [random.randint] is represented by the value it returns, given as an
      argument; the handlers of the GUI are taken one at a time, each running
      to its end. *)

From Stdlib Require Import QArith Qpower.
From Stdlib Require Import Floats.SpecFloat.
From stdpp Require Import gmap strings list fin_maps pretty sorting.

Open Scope Z_scope.

#[global] Set Warnings "-clear-no-such-hyp".

(* ===================================================================== *)
(** * Exceptions and numbers *)
(* ===================================================================== *)

(** Outcome of running a piece of code: what it raised, or what it
    returned. *)
Inductive Raises (A : Type) :=
  | Raise (exception : string)
  | Return (value : A).
Arguments Raise {A} exception.
Arguments Return {A} value.

(** A Python [float] is an IEEE 754 double: [spec_float] of the Standard
    Library with 53 bits of precision and exponents below 1024, its
    operations rounding to nearest, ties to even. *)
Definition float := spec_float.
Definition prec : Z := 53.
Definition emax : Z := 1024.

(** [float(n)] for an int within the range of a double; the code converts
    the literals [1] and [100] only. *)
Definition float_of_int (n : Z) : float := binary_normalize prec emax n 0 false.

(** An int as an operand of [/], with its exact value. *)
Definition exact (n : Z) : float :=
  match n with
  | Z0 => S754_zero false
  | Zpos m => S754_finite false m 0
  | Zneg m => S754_finite true m 0
  end.

(** [a / b] on ints: the double nearest to the quotient;
    [ZeroDivisionError] for [b = 0], [OverflowError] when the rounded
    quotient is beyond the range of a double. *)
Definition int_truediv (a b : Z) : Raises float :=
  if decide (b = 0) then Raise "ZeroDivisionError"
  else
    match SFdiv prec emax (exact a) (exact b) with
    | S754_infinity _ => Raise "OverflowError"
    | q => Return q
    end.

(** [x - y] and [x * y] on floats; neither raises. *)
Definition float_sub (x y : float) : float := SFsub prec emax x y.
Definition float_mul (x y : float) : float := SFmul prec emax x y.

(** A value that is an [int] on some paths and a [float] on others. *)
Inductive number :=
  | Int (n : Z)
  | Float (x : float).

(* ===================================================================== *)
(** * Data model *)
(* ===================================================================== *)

Inductive AllocationMethod := PAGING | SEGMENTATION.

Module MemoryBlock.
Record t := mk {
  start : Z;
  size : Z;
  process_id : option Z  (* None means free block *)
}.

(** [end] is a keyword of Rocq, hence the underscore. *)
Definition end_ (b : t) : Z := start b + size b - 1.

Definition is_free (b : t) : bool :=
  match process_id b with None => true | Some _ => false end.

#[global] Instance eq_dec : EqDecision t.
Proof. solve_decision. Defined.
End MemoryBlock.

Module Page.
Record t := mk {
  page_id : nat;
  frame_id : option nat  (* None means page is not in memory *)
}.
End Page.

Module Process.
Record t := mk {
  process_id : Z;
  size : Z;
  pages : list Page.t;
  segments : list MemoryBlock.t
}.
End Process.

Module MemoryEvent.
Record t := mk {
  event_type : string;
  process_id : Z;
  details : string
}.
End MemoryEvent.

Module MemoryManager.
Record t := mk {
  total_memory_size : Z;
  page_size : Z;
  total_frames : Z;
  memory_blocks : list MemoryBlock.t;
  page_table : list (option Z);     (* frame_id -> process_id *)
  processes : gmap Z Process.t;
  events : list MemoryEvent.t;
  page_faults : Z;
  external_fragmentation : number;
  internal_fragmentation : Z
}.

Definition set_memory_blocks (self : t) (v : list MemoryBlock.t) : t :=
  mk (total_memory_size self) (page_size self) (total_frames self) v
     (page_table self) (processes self) (events self) (page_faults self)
     (external_fragmentation self) (internal_fragmentation self).

Definition set_page_table (self : t) (v : list (option Z)) : t :=
  mk (total_memory_size self) (page_size self) (total_frames self)
     (memory_blocks self) v (processes self) (events self) (page_faults self)
     (external_fragmentation self) (internal_fragmentation self).

Definition set_processes (self : t) (v : gmap Z Process.t) : t :=
  mk (total_memory_size self) (page_size self) (total_frames self)
     (memory_blocks self) (page_table self) v (events self) (page_faults self)
     (external_fragmentation self) (internal_fragmentation self).

Definition set_events (self : t) (v : list MemoryEvent.t) : t :=
  mk (total_memory_size self) (page_size self) (total_frames self)
     (memory_blocks self) (page_table self) (processes self) v
     (page_faults self) (external_fragmentation self)
     (internal_fragmentation self).

Definition set_page_faults (self : t) (v : Z) : t :=
  mk (total_memory_size self) (page_size self) (total_frames self)
     (memory_blocks self) (page_table self) (processes self) (events self)
     v (external_fragmentation self) (internal_fragmentation self).

Definition set_external_fragmentation (self : t) (v : number) : t :=
  mk (total_memory_size self) (page_size self) (total_frames self)
     (memory_blocks self) (page_table self) (processes self) (events self)
     (page_faults self) v (internal_fragmentation self).

Definition set_internal_fragmentation (self : t) (v : Z) : t :=
  mk (total_memory_size self) (page_size self) (total_frames self)
     (memory_blocks self) (page_table self) (processes self) (events self)
     (page_faults self) (external_fragmentation self) v.
End MemoryManager.

Import MemoryManager.

(** Python's [list.insert(i, x)] for [0 <= i]: positions past the end append. *)
Definition list_insert_at {A} (i : nat) (x : A) (l : list A) : list A :=
  take i l ++ x :: drop i l.

(** Python's [l.pop(i)] with the popped value dropped is stdpp's [delete]. *)

(* ===================================================================== *)
(** * Construction *)
(* ===================================================================== *)

(** The attributes that [MemoryManager.__init__] assigns. *)
Definition initial_state (total_memory_size page_size : Z) : MemoryManager.t :=
  let total_frames := total_memory_size `div` page_size in
  MemoryManager.mk total_memory_size page_size total_frames
    (* Initialize memory as one large free block *)
    [MemoryBlock.mk 0 total_memory_size None]
    (* [None] * self.total_frames: empty for a negative count *)
    (replicate (Z.to_nat total_frames) None)
    ∅ [] 0 (Int 0) 0.

(** [MemoryManager.__init__]. The only statement that can raise on integer
    arguments is the floor division by [page_size]. *)
Definition __init__ (total_memory_size page_size : Z) : Raises MemoryManager.t :=
  if decide (page_size = 0) then Raise "ZeroDivisionError"
  else Return (initial_state total_memory_size page_size).

(** The settings gate of [MemoryVisualizerGUI._apply_settings]
    (gui_initial.py): the validation raises [ValueError] before the
    constructor is called. *)
Definition _apply_settings (memory_size page_size : Z) : Raises MemoryManager.t :=
  if decide (memory_size ≤ 0 ∨ page_size ≤ 0 ∨ memory_size `mod` page_size ≠ 0)
  then Raise "ValueError"
  else __init__ memory_size page_size.

(* ===================================================================== *)
(** * Event log *)
(* ===================================================================== *)

Definition log_event (event_type : string) (process_id : Z) (details : string)
    (self : MemoryManager.t) : MemoryManager.t :=
  set_events self (events self ++ [MemoryEvent.mk event_type process_id details]).

(* ===================================================================== *)
(** * Paging *)
(* ===================================================================== *)

(** [[i for i, p in enumerate(page_table) if p is None]], counting from [i]. *)
Fixpoint enumerate_free (i : nat) (page_table : list (option Z)) : list nat :=
  match page_table with
  | [] => []
  | None :: rest => i :: enumerate_free (S i) rest
  | Some _ :: rest => enumerate_free (S i) rest
  end.

Definition _split_block_for_page (blocks : list MemoryBlock.t) (block_idx : nat)
    (frame_start page_size process_id : Z) : list MemoryBlock.t :=
  match blocks !! block_idx with
  | None => blocks (* IndexError in the source; the caller passes a position of the list *)
  | Some block =>
    (* Check if the block starts before the frame *)
    let '(blocks, block_idx) :=
      if decide (MemoryBlock.start block < frame_start) then
        let pre_block :=
          MemoryBlock.mk (MemoryBlock.start block)
                         (frame_start - MemoryBlock.start block) None in
        (list_insert_at block_idx pre_block blocks, S block_idx)
      else (blocks, block_idx) in
    let allocated_block := MemoryBlock.mk frame_start page_size (Some process_id) in
    (* Check if there's space after the allocation *)
    if decide (MemoryBlock.end_ block > frame_start + page_size - 1) then
      let post_start := frame_start + page_size in
      let post_size := MemoryBlock.end_ block - post_start + 1 in
      let post_block := MemoryBlock.mk post_start post_size None in
      list_insert_at (S block_idx) post_block (<[block_idx := allocated_block]> blocks)
    else
      <[block_idx := allocated_block]> blocks
  end.

(** The test of the inner [for j, block in enumerate(self.memory_blocks)]. *)
Definition frame_fits (frame_start page_size : Z) (block : MemoryBlock.t) : Prop :=
  MemoryBlock.is_free block ∧ MemoryBlock.start block ≤ frame_start
  ∧ MemoryBlock.end_ block >= frame_start + page_size - 1.

#[global] Instance frame_fits_dec frame_start page_size block :
  Decision (frame_fits frame_start page_size block).
Proof. unfold frame_fits. apply _. Defined.

(** What the loop [for i in range(num_pages_needed)] threads along. *)
Record PagingLoop := mkPagingLoop {
  loop_pages : list Page.t;
  loop_page_table : list (option Z);
  loop_blocks : list MemoryBlock.t
}.

(** The inner scan [for j, block in enumerate(self.memory_blocks)]: the first
    block that passes the test is split, and the scan stops; when no block
    passes, the list is left as it is. *)
Definition place_page (page_size process_id : Z) (blocks : list MemoryBlock.t)
    (frame : nat) : list MemoryBlock.t :=
  let frame_start := Z.of_nat frame * page_size in
  match list_find (frame_fits frame_start page_size) blocks with
  | Some (j, _) => _split_block_for_page blocks j frame_start page_size process_id
  | None => blocks
  end.

(** One iteration of [for i in range(num_pages_needed)]. *)
Definition paging_body (page_size process_id : Z) (free_frames : list nat)
    (st : PagingLoop) (i : nat) : PagingLoop :=
  match free_frames !! i with
  | None => st (* IndexError in the source; excluded by the length test before the loop *)
  | Some frame =>
    mkPagingLoop
      (loop_pages st ++ [Page.mk i (Some frame)])
      (<[frame := Some process_id]> (loop_page_table st))
      (place_page page_size process_id (loop_blocks st) frame)
  end.

(** With [page_size = 0] the divisions of the source raise
    [ZeroDivisionError]; [__init__] returns no such engine, and the
    statements below about paging assume a page size other than 0. *)
Definition _allocate_paging (self : MemoryManager.t) (process : Process.t)
    : Raises bool * MemoryManager.t :=
  let pid := Process.process_id process in
  let num_pages_needed :=
    (Process.size process + page_size self - 1) `div` page_size self in
  let free_frames := enumerate_free 0 (page_table self) in
  if decide (Z.of_nat (length free_frames) < num_pages_needed) then
    let self :=
      log_event "PAGE_FAULT" pid
        ("Not enough free frames. Needed: " +:+ pretty num_pages_needed
           +:+ ", Available: " +:+ pretty (length free_frames)) self in
    (Return false, set_page_faults self (page_faults self + 1))
  else
    let st :=
      foldl (paging_body (page_size self) pid free_frames)
            (mkPagingLoop (Process.pages process) (page_table self) (memory_blocks self))
            (seq 0 (Z.to_nat num_pages_needed)) in
    let process :=
      Process.mk pid (Process.size process) (loop_pages st) (Process.segments process) in
    let self := set_processes self (<[pid := process]> (processes self)) in
    let self := set_page_table self (loop_page_table st) in
    let self := set_memory_blocks self (loop_blocks st) in
    (* Calculate internal fragmentation *)
    let last_page_size := Process.size process `mod` page_size self in
    let self :=
      if decide (last_page_size > 0) then
        set_internal_fragmentation self
          (internal_fragmentation self + (page_size self - last_page_size))
      else self in
    (Return true,
     log_event "ALLOCATION" pid
       ("Allocated " +:+ pretty num_pages_needed +:+ " pages for process "
          +:+ pretty pid) self).

(* ===================================================================== *)
(** * Segmentation *)
(* ===================================================================== *)

(** [sum(block.size for block in self.memory_blocks if block.is_free)] and
    [max((...), default=0)] over the same generator. *)
Definition free_sizes (blocks : list MemoryBlock.t) : list Z :=
  MemoryBlock.size <$> filter (λ b, MemoryBlock.is_free b) blocks.

Definition sum_list (l : list Z) : Z := foldr Z.add 0 l.

Definition max_default (l : list Z) (default : Z) : Z :=
  match l with
  | [] => default
  | x :: rest => foldl Z.max x rest
  end.

(** The int division is the one statement of the engine that can raise on
    an engine that [__init__] has returned: [OverflowError], when the
    largest free length is beyond 2^1024 times the total. *)
Definition _calculate_external_fragmentation (self : MemoryManager.t)
    : Raises MemoryManager.t :=
  let total_free := sum_list (free_sizes (memory_blocks self)) in
  let largest_free := max_default (free_sizes (memory_blocks self)) 0 in
  if decide (total_free > 0) then
    match int_truediv largest_free total_free with
    | Raise exception => Raise exception
    | Return quotient =>
      Return (set_external_fragmentation self
                (Float (float_sub (float_of_int 1) quotient)))
    end
  else
    Return (set_external_fragmentation self (Int 0)).

(** The test of the first-fit scan. *)
Definition first_fit (size : Z) (block : MemoryBlock.t) : Prop :=
  MemoryBlock.is_free block ∧ MemoryBlock.size block >= size.

#[global] Instance first_fit_dec size block : Decision (first_fit size block).
Proof. unfold first_fit. apply _. Defined.

(** The result of a call that changes the engine is what the call returns
    or raises, together with the engine as the call leaves it. *)
Definition _allocate_segmentation (self : MemoryManager.t) (process : Process.t)
    : Raises bool * MemoryManager.t :=
  let pid := Process.process_id process in
  (* Find a suitable free block using first-fit *)
  match list_find (first_fit (Process.size process)) (memory_blocks self) with
  | None =>
    let self :=
      log_event "ERROR" pid
        ("No suitable free block found for process " +:+ pretty pid
           +:+ " (size: " +:+ pretty (Process.size process) +:+ ")") self in
    match _calculate_external_fragmentation self with
    | Raise exception => (Raise exception, self)
    | Return self => (Return false, self)
    end
  | Some (suitable_block_idx, block) =>
    (* Create a segment for the process *)
    let segment :=
      MemoryBlock.mk (MemoryBlock.start block) (Process.size process) (Some pid) in
    let process' :=
      Process.mk pid (Process.size process) (Process.pages process)
                 (Process.segments process ++ [segment]) in
    let self := set_processes self (<[pid := process']> (processes self)) in
    (* Split the block if necessary *)
    let blocks :=
      if decide (MemoryBlock.size block > Process.size process) then
        let remainder :=
          MemoryBlock.mk (MemoryBlock.start block + Process.size process)
                         (MemoryBlock.size block - Process.size process) None in
        list_insert_at (S suitable_block_idx) remainder
          (<[suitable_block_idx := segment]> (memory_blocks self))
      else
        <[suitable_block_idx := segment]> (memory_blocks self) in
    let self := set_memory_blocks self blocks in
    (Return true,
     log_event "ALLOCATION" pid
       ("Allocated segment for process " +:+ pretty pid +:+ " at address "
          +:+ pretty (MemoryBlock.start segment)) self)
  end.

Definition allocate_process (self : MemoryManager.t) (process_id size : Z)
    (method : AllocationMethod) : Raises bool * MemoryManager.t :=
  if decide (is_Some (processes self !! process_id)) then
    (Return false, log_event "ERROR" process_id "Process already exists" self)
  else
    let process := Process.mk process_id size [] [] in
    let self := set_processes self (<[process_id := process]> (processes self)) in
    match method with
    | PAGING => _allocate_paging self process
    | SEGMENTATION => _allocate_segmentation self process
    end.

(* ===================================================================== *)
(** * Deallocation *)
(* ===================================================================== *)

(** The loop [while i < len(self.memory_blocks) - 1] of
    [_merge_adjacent_free_blocks]. Every iteration either removes a block or
    advances [i], so [len(self.memory_blocks)] iterations are enough;
    [merge_loop_spec] below shows that the fuel is never exhausted. *)
Fixpoint merge_loop (fuel : nat) (i : nat) (blocks : list MemoryBlock.t)
    : list MemoryBlock.t :=
  match fuel with
  | O => blocks
  | S fuel =>
    if decide (Z.of_nat i < Z.of_nat (length blocks) - 1) then
      match blocks !! i, blocks !! S i with
      | Some current, Some next_block =>
        if MemoryBlock.is_free current && MemoryBlock.is_free next_block then
          (* Merge blocks *)
          let merged :=
            MemoryBlock.mk (MemoryBlock.start current)
              (MemoryBlock.size current + MemoryBlock.size next_block) None in
          merge_loop fuel i (delete (S i) (<[i := merged]> blocks))
        else merge_loop fuel (S i) blocks
      | _, _ => blocks
      end
    else blocks
  end.

Definition _merge_adjacent_free_blocks (blocks : list MemoryBlock.t)
    : list MemoryBlock.t :=
  merge_loop (length blocks) 0 blocks.

(** [MemoryBlock(block.start, block.size)]: the same range, free. *)
Definition freed (block : MemoryBlock.t) : MemoryBlock.t :=
  MemoryBlock.mk (MemoryBlock.start block) (MemoryBlock.size block) None.

(** [for page in process.pages: if page.frame_id is not None: ...]. *)
Definition release_frames (pages : list Page.t) (page_table : list (option Z))
    : list (option Z) :=
  foldl (λ pt page,
           match Page.frame_id page with
           | Some frame => <[frame := None]> pt
           | None => pt
           end) page_table pages.

(** [for i, block in enumerate(self.memory_blocks[:])]: the scan runs over a
    copy taken before the loop, the writes go to the live list. *)
Fixpoint release_blocks (process_id : Z) (i : nat) (copy : list MemoryBlock.t)
    (blocks : list MemoryBlock.t) : list MemoryBlock.t :=
  match copy with
  | [] => blocks
  | block :: rest =>
    release_blocks process_id (S i) rest
      (if decide (MemoryBlock.process_id block = Some process_id)
       then <[i := freed block]> blocks else blocks)
  end.

Definition _deallocate_paging (self : MemoryManager.t) (process : Process.t)
    : MemoryManager.t :=
  (* Free frames in page table *)
  let self := set_page_table self (release_frames (Process.pages process) (page_table self)) in
  (* Update memory blocks *)
  let blocks :=
    release_blocks (Process.process_id process) 0 (memory_blocks self) (memory_blocks self) in
  (* Merge adjacent free blocks *)
  set_memory_blocks self (_merge_adjacent_free_blocks blocks).

(** The test of the inner scan of [_deallocate_segmentation]. *)
Definition segment_matches (process_id : Z) (segment block : MemoryBlock.t) : Prop :=
  MemoryBlock.start block = MemoryBlock.start segment
  ∧ MemoryBlock.process_id block = Some process_id.

#[global] Instance segment_matches_dec process_id segment block :
  Decision (segment_matches process_id segment block).
Proof. unfold segment_matches. apply _. Defined.

Definition release_segment (process_id : Z) (blocks : list MemoryBlock.t)
    (segment : MemoryBlock.t) : list MemoryBlock.t :=
  match list_find (segment_matches process_id segment) blocks with
  | Some (i, block) => <[i := freed block]> blocks
  | None => blocks
  end.

Definition _deallocate_segmentation (self : MemoryManager.t) (process : Process.t)
    : MemoryManager.t :=
  (* Update memory blocks *)
  let blocks :=
    foldl (release_segment (Process.process_id process)) (memory_blocks self)
          (Process.segments process) in
  (* Merge adjacent free blocks *)
  set_memory_blocks self (_merge_adjacent_free_blocks blocks).

(** Truthiness of a Python list. *)
Definition nonempty {A} (l : list A) : bool :=
  match l with [] => false | _ :: _ => true end.

Definition deallocate_process (self : MemoryManager.t) (process_id : Z)
    : bool * MemoryManager.t :=
  match processes self !! process_id with
  | None => (false, log_event "ERROR" process_id "Process not found" self)
  | Some process =>
    let self :=
      if nonempty (Process.pages process) then _deallocate_paging self process
      else if nonempty (Process.segments process) then _deallocate_segmentation self process
      else self in
    let self := set_processes self (delete process_id (processes self)) in
    (true,
     log_event "DEALLOCATION" process_id
       ("Deallocated process " +:+ pretty process_id) self)
  end.

(* ===================================================================== *)
(** * Queries *)
(* ===================================================================== *)

Module Stats.
Record t := mk {
  total_memory : Z;
  used_memory : Z;
  free_memory : Z;
  used_percentage : float;
  page_faults : Z;
  external_fragmentation : number;
  internal_fragmentation : Z;
  process_count : nat
}.
End Stats.

(** [get_memory_stats] reads the state and builds a dict; it writes nothing.
    The division of the percentage raises [ZeroDivisionError] with
    [total_memory_size = 0], and [OverflowError] when the quotient is beyond
    the range of a double. *)
Definition get_memory_stats (self : MemoryManager.t) : Raises Stats.t :=
  let used_memory :=
    sum_list (MemoryBlock.size <$>
                filter (λ b, negb (MemoryBlock.is_free b)) (memory_blocks self)) in
  let free_memory := total_memory_size self - used_memory in
  match int_truediv used_memory (total_memory_size self) with
  | Raise exception => Raise exception
  | Return quotient =>
    Return (Stats.mk (total_memory_size self) used_memory free_memory
              (float_mul quotient (float_of_int 100))
              (MemoryManager.page_faults self)
              (MemoryManager.external_fragmentation self)
              (MemoryManager.internal_fragmentation self)
              (size (processes self)))
  end.

(** [self.events[-limit:]]; with [limit = 0] the slice [[-0:]] is the whole
    list. *)
Definition get_recent_events (self : MemoryManager.t) (limit : nat)
    : list MemoryEvent.t :=
  match limit with
  | O => events self
  | S _ => drop (length (events self) - limit)%nat (events self)
  end.

(* ===================================================================== *)
(** * Histories of calls *)
(* ===================================================================== *)

Inductive Call :=
  | Allocate (process_id size : Z) (method : AllocationMethod)
  | Deallocate (process_id : Z)
  | GetMemoryStats
  | GetRecentEvents (limit : nat).

(** The engine after a call; queries return data and leave [self] as it is. *)
Definition call (self : MemoryManager.t) (c : Call) : MemoryManager.t :=
  match c with
  | Allocate process_id size method => (allocate_process self process_id size method).2
  | Deallocate process_id => (deallocate_process self process_id).2
  | GetMemoryStats => self
  | GetRecentEvents _ => self
  end.

Definition run (self : MemoryManager.t) (history : list Call) : MemoryManager.t :=
  foldl call self history.

(* ===================================================================== *)
(** * Vocabulary of the properties *)
(* ===================================================================== *)

(** The free pieces that [_split_block_for_page] leaves around the frame. *)
Definition pre_piece (block : MemoryBlock.t) (frame_start : Z) : list MemoryBlock.t :=
  if decide (MemoryBlock.start block < frame_start)
  then [MemoryBlock.mk (MemoryBlock.start block)
                       (frame_start - MemoryBlock.start block) None]
  else [].

Definition post_piece (block : MemoryBlock.t) (frame_start page_size : Z)
    : list MemoryBlock.t :=
  if decide (MemoryBlock.end_ block > frame_start + page_size - 1)
  then [MemoryBlock.mk (frame_start + page_size)
                       (MemoryBlock.end_ block - (frame_start + page_size) + 1) None]
  else [].

(** What replaces the block: a free prefix (if any), the page, a free
    suffix (if any). *)
Definition pieces (block : MemoryBlock.t) (frame_start page_size pid : Z)
    : list MemoryBlock.t :=
  pre_piece block frame_start
    ++ MemoryBlock.mk frame_start page_size (Some pid)
    :: post_piece block frame_start page_size.

(** [_merge_adjacent_free_blocks] with the block at position [i] held
    apart from the blocks after it. *)
Fixpoint merge_from (cur : MemoryBlock.t) (rest : list MemoryBlock.t)
    : list MemoryBlock.t :=
  match rest with
  | [] => [cur]
  | next_block :: rest =>
    if MemoryBlock.is_free cur && MemoryBlock.is_free next_block then
      merge_from (MemoryBlock.mk (MemoryBlock.start cur)
                    (MemoryBlock.size cur + MemoryBlock.size next_block) None) rest
    else cur :: merge_from next_block rest
  end.

Definition coalesce (blocks : list MemoryBlock.t) : list MemoryBlock.t :=
  match blocks with
  | [] => []
  | cur :: rest => merge_from cur rest
  end.

(** A block as [_deallocate_paging] leaves it. *)
Definition release (pid : Z) (block : MemoryBlock.t) : MemoryBlock.t :=
  if decide (MemoryBlock.process_id block = Some pid) then freed block else block.

(** [tiles a blocks e]: the blocks, in list order, have positive sizes, the
    first starts at [a], each next one starts where the previous one ends,
    and the last one ends at [e] (exclusive). *)
Fixpoint tiles (a : Z) (blocks : list MemoryBlock.t) (e : Z) : Prop :=
  match blocks with
  | [] => a = e
  | b :: rest =>
    MemoryBlock.start b = a ∧ 0 < MemoryBlock.size b
    ∧ tiles (a + MemoryBlock.size b) rest e
  end.

(** No two neighbours in the list are both free. *)
Fixpoint no_adjacent_free (blocks : list MemoryBlock.t) : Prop :=
  match blocks with
  | b1 :: rest =>
    match rest with
    | b2 :: _ => ¬ (MemoryBlock.is_free b1 ∧ MemoryBlock.is_free b2)
    | [] => True
    end ∧ no_adjacent_free rest
  | [] => True
  end.

(** The invariant of the range model for a memory of [total] units. *)
Definition range_invariant (total : Z) (blocks : list MemoryBlock.t) : Prop :=
  tiles 0 blocks total ∧ no_adjacent_free blocks.

#[global] Instance tiles_dec a blocks e : Decision (tiles a blocks e).
Proof. revert a. induction blocks; intros; simpl; apply _. Defined.

#[global] Instance no_adjacent_free_dec blocks : Decision (no_adjacent_free blocks).
Proof. induction blocks as [|b1 [|b2 rest] IH]; simpl; apply _. Defined.

#[global] Instance range_invariant_dec total blocks :
  Decision (range_invariant total blocks).
Proof. unfold range_invariant. apply _. Defined.

Definition head_free (blocks : list MemoryBlock.t) : bool :=
  match blocks with b :: _ => MemoryBlock.is_free b | [] => false end.

Definition last_free (blocks : list MemoryBlock.t) : bool :=
  match last blocks with Some b => MemoryBlock.is_free b | None => false end.

(** The configuration never changes. *)
Definition same_configuration (s s' : MemoryManager.t) : Prop :=
  total_memory_size s' = total_memory_size s
  ∧ page_size s' = page_size s
  ∧ total_frames s' = total_frames s.

(** Address [x] lies in the block: [start <= x <= end]. *)
Definition contains (b : MemoryBlock.t) (x : Z) : Prop :=
  MemoryBlock.start b ≤ x ∧ x ≤ MemoryBlock.end_ b.

(** The range model as the specification words it: positive lengths, each
    range starting where the previous one ends, the whole of [[0, total)]
    covered with no address in two ranges, and no two free neighbours. *)
Definition range_model (total : Z) (blocks : list MemoryBlock.t) : Prop :=
  (∀ i b, blocks !! i = Some b → 0 < MemoryBlock.size b)
  ∧ (∀ i b b', blocks !! i = Some b → blocks !! S i = Some b' →
       MemoryBlock.start b' = MemoryBlock.end_ b + 1)
  ∧ (∀ i b, blocks !! i = Some b → 0 ≤ MemoryBlock.start b ∧ MemoryBlock.end_ b < total)
  ∧ (∀ x, 0 ≤ x < total → ∃ i b, blocks !! i = Some b ∧ contains b x)
  ∧ (∀ x i j b b', blocks !! i = Some b → blocks !! j = Some b' →
       contains b x → contains b' x → i = j)
  ∧ (∀ i b b', blocks !! i = Some b → blocks !! S i = Some b' →
       ¬ (MemoryBlock.is_free b ∧ MemoryBlock.is_free b')).

(** A segmentation request of the history asks for at least one unit. *)
Definition segment_size_positive (c : Call) : Prop :=
  match c with
  | Allocate _ size SEGMENTATION => 1 ≤ size
  | _ => True
  end.

#[global] Instance segment_size_positive_dec c : Decision (segment_size_positive c).
Proof. destruct c as [? ? []| | |]; simpl; apply _. Defined.

(** The frames that the pages of a process name. *)
Definition page_frames (pages : list Page.t) : list nat :=
  omap Page.frame_id pages.

(** [self.page_table[frame] = process_id] for each frame of the list. *)
Definition assign_frames (pid : Z) (page_table : list (option Z)) (frames : list nat)
    : list (option Z) :=
  foldl (λ pt frame, <[frame := Some pid]> pt) page_table frames.

(** The list after the paging loop has placed the given frames. *)
Definition place_pages (page_size pid : Z) (blocks : list MemoryBlock.t)
    (frames : list nat) : list MemoryBlock.t :=
  foldl (place_page page_size pid) blocks frames.

(** Pages [0..k-1] on the given frames, in order. *)
Definition pages_on (frames : list nat) : list Page.t :=
  imap (λ i frame, Page.mk i (Some frame)) frames.

(** A frame-table entry with the frames of [pid] set free. *)
Definition clear_owner (pid : Z) (owner : option Z) : option Z :=
  if decide (owner = Some pid) then None else owner.

Definition owned_by (pid : Z) (b : MemoryBlock.t) : Prop :=
  MemoryBlock.process_id b = Some pid.

#[global] Instance owned_by_dec pid b : Decision (owned_by pid b).
Proof. unfold owned_by. apply _. Defined.

Definition is_owned (b : MemoryBlock.t) : Prop :=
  MemoryBlock.process_id b ≠ None.

#[global] Instance is_owned_dec b : Decision (is_owned b).
Proof. unfold is_owned. apply _. Defined.

#[global] Typeclasses Opaque owned_by is_owned.

(** What ties the process map to the frame table and to the block list in
    every state that a history of calls reaches. *)
Record consistent (s : MemoryManager.t) : Prop := mk_consistent {
  (* a record is stored under its own id *)
  consistent_keys : ∀ pid process,
    processes s !! pid = Some process → Process.process_id process = pid;
  (* the frames marked with an id are the frames of that process's pages *)
  consistent_frames : ∀ frame pid,
    page_table s !! frame = Some (Some pid)
    ↔ ∃ process, processes s !! pid = Some process
                 ∧ frame ∈ page_frames (Process.pages process);
  (* only live processes own blocks; a process without pages owns its
     segments and nothing else, and has at most one segment *)
  consistent_blocks : ∀ pid,
    match processes s !! pid with
    | None => filter (owned_by pid) (memory_blocks s) = []
    | Some process =>
      Process.pages process = [] →
      filter (owned_by pid) (memory_blocks s) = Process.segments process
      ∧ (length (Process.segments process) ≤ 1)%nat
    end;
  consistent_no_adjacent_free : no_adjacent_free (memory_blocks s)
}.

(** Writing one value into the listed frames of the frame table. *)
Definition set_frames (v : option Z) (page_table : list (option Z)) (frames : list nat)
    : list (option Z) :=
  foldl (λ pt frame, <[frame := v]> pt) page_table frames.

(** [ceil(size / page_size)] as the code computes it. *)
Definition pages_needed (size page_size : Z) : Z :=
  (size + page_size - 1) `div` page_size.

(** The events that the engine logs. *)
Definition duplicate_event (pid : Z) : MemoryEvent.t :=
  MemoryEvent.mk "ERROR" pid "Process already exists".

Definition unknown_event (pid : Z) : MemoryEvent.t :=
  MemoryEvent.mk "ERROR" pid "Process not found".

Definition page_fault_event (pid needed : Z) (available : nat) : MemoryEvent.t :=
  MemoryEvent.mk "PAGE_FAULT" pid
    ("Not enough free frames. Needed: " +:+ pretty needed
       +:+ ", Available: " +:+ pretty available).

Definition no_block_event (pid size : Z) : MemoryEvent.t :=
  MemoryEvent.mk "ERROR" pid
    ("No suitable free block found for process " +:+ pretty pid
       +:+ " (size: " +:+ pretty size +:+ ")").

Definition paging_event (pid needed : Z) : MemoryEvent.t :=
  MemoryEvent.mk "ALLOCATION" pid
    ("Allocated " +:+ pretty needed +:+ " pages for process " +:+ pretty pid).

Definition segment_event (pid start : Z) : MemoryEvent.t :=
  MemoryEvent.mk "ALLOCATION" pid
    ("Allocated segment for process " +:+ pretty pid +:+ " at address "
       +:+ pretty start).

Definition deallocation_event (pid : Z) : MemoryEvent.t :=
  MemoryEvent.mk "DEALLOCATION" pid ("Deallocated process " +:+ pretty pid).

(** Total and largest free range length, and the ratio derived from them. *)
Definition total_free (blocks : list MemoryBlock.t) : Z :=
  sum_list (free_sizes blocks).

Definition largest_free (blocks : list MemoryBlock.t) : Z :=
  max_default (free_sizes blocks) 0.

(** What [_calculate_external_fragmentation] computes from a block list:
    an int 0 without free memory, else the double [1 - largest / total], or
    the exception of the division. *)
Definition fragmentation_ratio (blocks : list MemoryBlock.t) : Raises number :=
  if decide (total_free blocks > 0) then
    match int_truediv (largest_free blocks) (total_free blocks) with
    | Raise exception => Raise exception
    | Return quotient => Return (Float (float_sub (float_of_int 1) quotient))
    end
  else Return (Int 0).

(** What a segmentation request that finds no block returns or raises, and
    the ratio that it leaves. *)
Definition failure_result (s : MemoryManager.t) : Raises bool :=
  match fragmentation_ratio (memory_blocks s) with
  | Return _ => Return false
  | Raise exception => Raise exception
  end.

Definition ratio_after_failure (s : MemoryManager.t) : number :=
  match fragmentation_ratio (memory_blocks s) with
  | Return ratio => ratio
  | Raise _ => external_fragmentation s
  end.

(** The rational that a finite float stands for. *)
Definition float_value (x : float) : Q :=
  match x with
  | S754_finite s m e =>
    ((if s then -1 else 1) * inject_Z (Z.pos m) * 2 ^ e)%Q
  | _ => 0%Q
  end.

Definition is_finite (x : float) : bool :=
  match x with
  | S754_zero _ | S754_finite _ _ _ => true
  | S754_infinity _ | S754_nan => false
  end.

(** A float that is [+0.0], or positive and at most [bound]. *)
Definition within (bound : Z) (x : float) : Prop :=
  match x with
  | S754_zero false => True
  | S754_finite false m e => e ≤ 0 ∧ Zpos m ≤ bound * 2 ^ (- e)
  | _ => False
  end.

(** Whether bits that were shifted out of a mantissa were not all 0. *)
Definition inexact (mrs : shr_record) : bool := shr_r mrs || shr_s mrs.

(** What [page_size - (size mod page_size)] adds to the internal
    fragmentation. *)
Definition internal_waste (size page_size : Z) : Z :=
  if decide (size `mod` page_size > 0) then page_size - size `mod` page_size else 0.

(** The owned segment and what is left of the block it is carved from. *)
Definition segment_of (pid size : Z) (b : MemoryBlock.t) : MemoryBlock.t :=
  MemoryBlock.mk (MemoryBlock.start b) size (Some pid).

Definition remainder_of (size : Z) (b : MemoryBlock.t) : list MemoryBlock.t :=
  if decide (MemoryBlock.size b > size)
  then [MemoryBlock.mk (MemoryBlock.start b + size) (MemoryBlock.size b - size) None]
  else [].

(** The flag that a call returns, or what it raises; the queries count as
    successful. *)
Definition outcome (s : MemoryManager.t) (c : Call) : Raises bool :=
  match c with
  | Allocate process_id size method => (allocate_process s process_id size method).1
  | Deallocate process_id => Return (deallocate_process s process_id).1
  | GetMemoryStats => Return true
  | GetRecentEvents _ => Return true
  end.

(** A failed call that changes nothing but the event log and, for a paging
    failure, the page-fault counter. *)
Definition failure_leaves_state (s : MemoryManager.t) (c : Call) : Prop :=
  outcome s c = Return false →
  memory_blocks (call s c) = memory_blocks s
  ∧ page_table (call s c) = page_table s
  ∧ dom (processes (call s c)) = dom (processes s)
  ∧ external_fragmentation (call s c) = external_fragmentation s
  ∧ internal_fragmentation (call s c) = internal_fragmentation s
  ∧ ∃ e, events (call s c) = events s ++ [e]
         ∧ (MemoryEvent.event_type e = "ERROR"
            ∧ page_faults (call s c) = page_faults s
            ∨ MemoryEvent.event_type e = "PAGE_FAULT"
              ∧ page_faults (call s c) = page_faults s + 1).

(** The record that [allocate_process] stores before it tries a strategy. *)
Definition new_record (pid size : Z) : Process.t := Process.mk pid size [] [].

(** The four ways in which a call fails, with what each one changes. *)
Definition duplicate_process (s : MemoryManager.t) (c : Call) : Prop :=
  ∃ pid size method,
    c = Allocate pid size method ∧ is_Some (processes s !! pid)
    ∧ outcome s c = Return false
    ∧ events (call s c) = events s ++ [duplicate_event pid]
    ∧ processes (call s c) = processes s
    ∧ page_faults (call s c) = page_faults s
    ∧ external_fragmentation (call s c) = external_fragmentation s.

Definition insufficient_frames (s : MemoryManager.t) (c : Call) : Prop :=
  ∃ pid size,
    c = Allocate pid size PAGING ∧ processes s !! pid = None
    ∧ Z.of_nat (length (enumerate_free 0 (page_table s)))
        < pages_needed size (page_size s)
    ∧ outcome s c = Return false
    ∧ events (call s c)
      = events s ++ [page_fault_event pid (pages_needed size (page_size s))
                       (length (enumerate_free 0 (page_table s)))]
    ∧ processes (call s c) = <[pid := new_record pid size]> (processes s)
    ∧ page_faults (call s c) = page_faults s + 1
    ∧ external_fragmentation (call s c) = external_fragmentation s.

(** No block fits: the call returns [False] with the ratio recomputed, or
    leaves with the exception of the ratio's division and the ratio as it
    was. *)
Definition no_suitable_block (s : MemoryManager.t) (c : Call) : Prop :=
  ∃ pid size,
    c = Allocate pid size SEGMENTATION ∧ processes s !! pid = None
    ∧ Forall (λ b, ¬ first_fit size b) (memory_blocks s)
    ∧ events (call s c) = events s ++ [no_block_event pid size]
    ∧ processes (call s c) = <[pid := new_record pid size]> (processes s)
    ∧ page_faults (call s c) = page_faults s
    ∧ match fragmentation_ratio (memory_blocks s) with
      | Return ratio =>
        outcome s c = Return false ∧ external_fragmentation (call s c) = ratio
      | Raise exception =>
        outcome s c = Raise exception
        ∧ external_fragmentation (call s c) = external_fragmentation s
      end.

Definition unknown_process (s : MemoryManager.t) (c : Call) : Prop :=
  ∃ pid,
    c = Deallocate pid ∧ processes s !! pid = None
    ∧ outcome s c = Return false
    ∧ events (call s c) = events s ++ [unknown_event pid]
    ∧ processes (call s c) = processes s
    ∧ page_faults (call s c) = page_faults s
    ∧ external_fragmentation (call s c) = external_fragmentation s.


(** The call is a segmentation request with an id that is not live and a
    size that no free block reaches. *)
Definition finds_no_block (s : MemoryManager.t) (c : Call) : Prop :=
  match c with
  | Allocate pid size SEGMENTATION =>
    processes s !! pid = None
    ∧ Forall (λ b, ¬ (MemoryBlock.is_free b ∧ MemoryBlock.size b >= size))
             (memory_blocks s)
  | _ => False
  end.

#[global] Instance finds_no_block_dec s c : Decision (finds_no_block s c).
Proof. destruct c as [? ? []| | |]; simpl; apply _. Defined.

(** The ratio that the call computes and stores: the call finds no block
    and the division of the ratio does not raise. *)
Definition recomputed (s : MemoryManager.t) (c : Call) : option number :=
  if decide (finds_no_block s c) then
    match fragmentation_ratio (memory_blocks s) with
    | Return ratio => Some ratio
    | Raise _ => None
    end
  else None.

(** The ratio computed by the last call of the history that recomputed it,
    if there is one ([last] is the answer for the calls already made). *)
Fixpoint last_recomputation (s : MemoryManager.t) (history : list Call)
    (last : option number) : option number :=
  match history with
  | [] => last
  | c :: rest =>
    last_recomputation (call s c) rest
      (match recomputed s c with Some ratio => Some ratio | None => last end)
  end.

(** The block spans whole frames, and the frame table gives each of them
    the owner of the block. *)
Definition block_agrees (page_size : Z) (page_table : list (option Z))
    (b : MemoryBlock.t) : Prop :=
  ∃ k m : Z,
    MemoryBlock.start b = k * page_size
    ∧ MemoryBlock.size b = m * page_size
    ∧ ∀ frame : nat, k ≤ Z.of_nat frame < k + m →
                     page_table !! frame = Some (MemoryBlock.process_id b).

(** The frame's owner is [owner] exactly when every address of the frame's
    span lies in a range whose owner is [owner] ([None]: unowned frame, free
    range). *)
Definition frame_agrees (s : MemoryManager.t) (frame : nat) : Prop :=
  ∀ owner,
    page_table s !! frame = Some owner
    ↔ ∀ x, Z.of_nat frame * MemoryManager.page_size s ≤ x
           < (Z.of_nat frame + 1) * MemoryManager.page_size s →
           ∃ b, b ∈ memory_blocks s ∧ contains b x
                ∧ MemoryBlock.process_id b = owner.

Definition frames_agree (s : MemoryManager.t) : Prop :=
  ∀ frame, (frame < length (page_table s))%nat → frame_agrees s frame.

(** The history uses the paging strategy only. *)
Definition paging_only (c : Call) : Prop :=
  match c with
  | Allocate _ _ SEGMENTATION => False
  | _ => True
  end.

#[global] Instance paging_only_dec c : Decision (paging_only c).
Proof. destruct c as [? ? []| | |]; simpl; apply _. Defined.

(** The invariant of the histories that use paging only. *)
Definition paged (total page_size : Z) (s : MemoryManager.t) : Prop :=
  total_memory_size s = total ∧ MemoryManager.page_size s = page_size
  ∧ consistent s
  ∧ range_invariant total (memory_blocks s)
  ∧ Forall (block_agrees page_size (page_table s)) (memory_blocks s)
  ∧ Z.of_nat (length (page_table s)) * page_size = total.

(** The id that an allocate or deallocate call names; queries name none. *)
Definition call_subject (c : Call) : option Z :=
  match c with
  | Allocate process_id _ _ => Some process_id
  | Deallocate process_id => Some process_id
  | GetMemoryStats => None
  | GetRecentEvents _ => None
  end.

(** The four kinds of event that the engine logs. *)
Definition event_kinds : list string :=
  ["ALLOCATION"; "DEALLOCATION"; "PAGE_FAULT"; "ERROR"].

Definition is_page_fault (e : MemoryEvent.t) : Prop :=
  MemoryEvent.event_type e = "PAGE_FAULT".

#[global] Instance is_page_fault_dec e : Decision (is_page_fault e).
Proof. unfold is_page_fault. apply _. Defined.

#[global] Typeclasses Opaque is_page_fault.

(** The number of frames that the table gives to [owner]. *)
Definition frames_of (owner : option Z) (page_table : list (option Z)) : nat :=
  length (filter (λ o, o = owner) page_table).

Module FrameInfo.
Record t := mk {
  frame_id : nat;
  process_id : option Z;
  start_address : Z;
  end_address : Z
}.
End FrameInfo.

(** [get_page_table_snapshot]: one dict per frame, in frame order. *)
Definition get_page_table_snapshot (self : MemoryManager.t) : list FrameInfo.t :=
  imap (λ frame_id process_id,
          FrameInfo.mk frame_id process_id
            (Z.of_nat frame_id * MemoryManager.page_size self)
            ((Z.of_nat frame_id + 1) * MemoryManager.page_size self - 1))
       (page_table self).

Module BlockInfo.
Record t := mk {
  start : Z;
  end_ : Z;
  size : Z;
  process_id : option Z;
  is_free : bool
}.
End BlockInfo.

(** [get_memory_snapshot]: one dict per block, in list order. *)
Definition get_memory_snapshot (self : MemoryManager.t) : list BlockInfo.t :=
  (λ block,
     BlockInfo.mk (MemoryBlock.start block) (MemoryBlock.end_ block)
       (MemoryBlock.size block) (MemoryBlock.process_id block)
       (MemoryBlock.is_free block)) <$> memory_blocks self.

Module ProcessInfo.
Record t := mk {
  process_id : Z;
  size : Z;
  pages : list (nat * option nat);      (* page_id, frame_id *)
  segments : list (Z * Z)               (* start, size *)
}.
End ProcessInfo.

(** [get_process_info]: [None] stands for the empty dict that the source
    returns for an id that is not in [self.processes]. *)
Definition get_process_info (self : MemoryManager.t) (process_id : Z)
    : option ProcessInfo.t :=
  match processes self !! process_id with
  | None => None
  | Some process =>
    Some (ProcessInfo.mk (Process.process_id process) (Process.size process)
            ((λ p, (Page.page_id p, Page.frame_id p)) <$> Process.pages process)
            ((λ s, (MemoryBlock.start s, MemoryBlock.size s))
               <$> Process.segments process))
  end.

(** [sum(block.size for block in self.memory_blocks if not block.is_free)]. *)
Definition used_memory (blocks : list MemoryBlock.t) : Z :=
  sum_list (MemoryBlock.size <$>
              filter (λ b, negb (MemoryBlock.is_free b)) blocks).

(** The shape of a process record: its pages are pages [0..k-1] on pairwise
    different frames, none or as many as the size asks for; it has pages or
    segments, never both; and a segment has the size of the process. *)
Definition record_shape (page_size : Z) (process : Process.t) : Prop :=
  (∃ frames,
     Process.pages process = pages_on frames ∧ NoDup frames
     ∧ (frames = []
        ∨ Z.of_nat (length frames) = pages_needed (Process.size process) page_size))
  ∧ (Process.pages process = [] ∨ Process.segments process = [])
  ∧ Forall (λ segment, MemoryBlock.size segment = Process.size process)
           (Process.segments process).

(** The frame table that a block list of whole frames describes: for each
    block, in order, as many entries as the block has frames, each naming
    the block's owner. *)
Definition table_of_blocks (page_size : Z) (blocks : list MemoryBlock.t)
    : list (option Z) :=
  flat_map (λ b, replicate (Z.to_nat (MemoryBlock.size b `div` page_size))
                   (MemoryBlock.process_id b))
           blocks.

(* ===================================================================== *)
(** * The process generator and the handlers of the GUI *)
(* ===================================================================== *)

Module ProcessGenerator.
Record t := mk {
  min_size : Z;
  max_size : Z;
  next_pid : Z
}.

(** [ProcessGenerator.__init__]. *)
Definition __init__ (min_size max_size : Z) : t := mk min_size max_size 1.

(** [generate_process]. [draw] is the value that [random.randint] returns;
    [randint] raises [ValueError] for an empty range. The id is taken and
    the counter advanced before the draw, so they stay advanced when the
    draw raises. *)
Definition generate_process (self : t) (draw : Z) : Raises (Z * Z) * t :=
  let process_id := next_pid self in
  let self := mk (min_size self) (max_size self) (next_pid self + 1) in
  if decide (min_size self > max_size self) then (Raise "ValueError", self)
  else (Return (process_id, draw), self).
End ProcessGenerator.

(** The part of [MemoryVisualizerGUI] that the engine sees (gui_initial.py).
    The text of an entry field is given as [Some n] when [int] reads it as
    [n] and as [None] when [int] raises [ValueError]; the choice of the
    method box is given with the action. Widgets, printing and timing are
    left out. *)
Module MemoryVisualizerGUI.
Record t := mk {
  memory_size : Z;
  page_size : Z;
  memory_manager : MemoryManager.t;
  process_generator : ProcessGenerator.t
}.

(** [__init__]: [MemoryManager(256, 16)] and [ProcessGenerator(4, 64)]. *)
Definition __init__ : t :=
  mk 256 16 (initial_state 256 16) (ProcessGenerator.__init__ 4 64).

(** [_add_process]: the size is read first; the id is taken from the
    generator's counter, which is advanced before the engine is called. *)
Definition _add_process (self : t) (size_entry : option Z) (method : AllocationMethod)
    : t :=
  match size_entry with
  | None => self
  | Some size =>
    let generator := process_generator self in
    let process_id := ProcessGenerator.next_pid generator in
    let generator :=
      ProcessGenerator.mk (ProcessGenerator.min_size generator)
        (ProcessGenerator.max_size generator) (process_id + 1) in
    mk (memory_size self) (page_size self)
       (allocate_process (memory_manager self) process_id size method).2
       generator
  end.

(** [_add_random_process]; an exception of [generate_process] leaves the
    handler before the engine is called. *)
Definition _add_random_process (self : t) (draw : Z) (method : AllocationMethod) : t :=
  match ProcessGenerator.generate_process (process_generator self) draw with
  | (Return (process_id, size), generator) =>
    mk (memory_size self) (page_size self)
       (allocate_process (memory_manager self) process_id size method).2
       generator
  | (Raise _, generator) =>
    mk (memory_size self) (page_size self) (memory_manager self) generator
  end.

Definition _remove_specific_process (self : t) (process_id : Z) : t :=
  mk (memory_size self) (page_size self)
     (deallocate_process (memory_manager self) process_id).2
     (process_generator self).

Definition _remove_process (self : t) (id_entry : option Z) : t :=
  match id_entry with
  | None => self
  | Some process_id => _remove_specific_process self process_id
  end.

(** [_apply_settings] with its [except ValueError]: a text that is no
    number, or a configuration that the check refuses, changes nothing. A
    configuration that passes the check is assigned to the two settings
    first, and the engine is constructed last. [constructed] tells whether
    the constructor returns: the list of frames takes memory in proportion
    to their number, and the [OverflowError] or [MemoryError] of a list
    that cannot be built is not a [ValueError], so it leaves the handler
    with the new settings and the old engine. The generator is kept. *)
Definition _apply_settings (self : t) (memory_size_entry page_size_entry : option Z)
    (constructed : bool) : t :=
  match memory_size_entry, page_size_entry with
  | Some memory_size, Some page_size =>
    match _apply_settings memory_size page_size with
    | Return engine =>
      if constructed
      then mk memory_size page_size engine (process_generator self)
      else mk memory_size page_size (memory_manager self) (process_generator self)
    | Raise _ => self
    end
  | _, _ => self
  end.

(** [_reset_simulation] stops the simulation and applies the settings. *)
Definition _reset_simulation (self : t) (memory_size_entry page_size_entry : option Z)
    (constructed : bool) : t :=
  _apply_settings self memory_size_entry page_size_entry constructed.
End MemoryVisualizerGUI.

(** What the user, or a step of the simulation loop, makes the GUI do. *)
Inductive Action :=
  | AddProcess (size_entry : option Z) (method : AllocationMethod)
  | AddRandomProcess (draw : Z) (method : AllocationMethod)
  | RemoveProcess (id_entry : option Z)
  | RemoveSpecificProcess (process_id : Z)
  | ApplySettings (memory_size_entry page_size_entry : option Z) (constructed : bool)
  | ResetSimulation (memory_size_entry page_size_entry : option Z) (constructed : bool).

Definition handle (gui : MemoryVisualizerGUI.t) (action : Action)
    : MemoryVisualizerGUI.t :=
  match action with
  | AddProcess size_entry method =>
    MemoryVisualizerGUI._add_process gui size_entry method
  | AddRandomProcess draw method =>
    MemoryVisualizerGUI._add_random_process gui draw method
  | RemoveProcess id_entry => MemoryVisualizerGUI._remove_process gui id_entry
  | RemoveSpecificProcess process_id =>
    MemoryVisualizerGUI._remove_specific_process gui process_id
  | ApplySettings memory_size_entry page_size_entry constructed =>
    MemoryVisualizerGUI._apply_settings gui memory_size_entry page_size_entry
      constructed
  | ResetSimulation memory_size_entry page_size_entry constructed =>
    MemoryVisualizerGUI._reset_simulation gui memory_size_entry page_size_entry
      constructed
  end.

(** The GUI after a sequence of actions, each handler running to its end
    before the next one starts. *)
Definition session (actions : list Action) : MemoryVisualizerGUI.t :=
  foldl handle MemoryVisualizerGUI.__init__ actions.

(** The actions that take an id from the generator's counter. *)
Definition issues_id (action : Action) : Prop :=
  match action with
  | AddProcess (Some _) _ => True
  | AddRandomProcess _ _ => True
  | _ => False
  end.

#[global] Instance issues_id_dec action : Decision (issues_id action).
Proof. destruct action as [[?|] ?|? ?|?|?|? ? ?|? ? ?]; simpl; apply _. Defined.

#[global] Typeclasses Opaque issues_id.

(** The draw of [random.randint(4, 64)] lies in the range, and a size typed
    for a segmentation request is at least one unit. *)
Definition plausible (action : Action) : Prop :=
  match action with
  | AddProcess (Some size) SEGMENTATION => 1 ≤ size
  | AddRandomProcess draw _ => 4 ≤ draw ≤ 64
  | _ => True
  end.

#[global] Instance plausible_dec action : Decision (plausible action).
Proof. destruct action as [[?|] []|? ?|?|?|? ? ?|? ? ?]; simpl; apply _. Defined.

(** In the action the constructor of the engine, if it is reached, returns. *)
Definition constructor_returns (action : Action) : Prop :=
  match action with
  | ApplySettings _ _ false | ResetSimulation _ _ false => False
  | _ => True
  end.

#[global] Instance constructor_returns_dec action :
  Decision (constructor_returns action).
Proof. destruct action as [? ?|? ?|?|?|? ? []|? ? []]; simpl; apply _. Defined.

(** An engine of a valid configuration in a state that the range model and
    the consistency of the process map describe. *)
Definition well_configured (memory_size page_size : Z) (s : MemoryManager.t) : Prop :=
  0 < memory_size ∧ 0 < page_size ∧ memory_size `mod` page_size = 0
  ∧ total_memory_size s = memory_size ∧ MemoryManager.page_size s = page_size
  ∧ Z.of_nat (length (page_table s)) * page_size = memory_size
  ∧ consistent s
  ∧ range_invariant memory_size (memory_blocks s).

(* ===================================================================== *)
(** * The loops, as functions on the list structure *)
(* ===================================================================== *)

Section list_surgery.
Implicit Types (b block cur : MemoryBlock.t) (blocks pre post rest : list MemoryBlock.t).

Lemma list_insert_at_app {A} (l1 l2 : list A) x :
  list_insert_at (length l1) x (l1 ++ l2) = l1 ++ x :: l2.
Proof.
  unfold list_insert_at.
  by rewrite take_app_length, drop_app_length.
Qed.

Lemma list_insert_middle {A} (l1 l2 : list A) x y :
  <[length l1 := y]> (l1 ++ x :: l2) = l1 ++ y :: l2.
Proof.
  rewrite insert_app_r_alt by lia.
  by rewrite Nat.sub_diag.
Qed.

(** A successful scan splits the list at the position found. *)
Lemma list_find_split {A} (P : A → Prop) `{!∀ x, Decision (P x)} (l : list A) i x :
  list_find P l = Some (i, x) →
  ∃ l1 l2, l = l1 ++ x :: l2 ∧ length l1 = i ∧ P x ∧ Forall (λ y, ¬ P y) l1.
Proof.
  intros (Hi & HP & Hbefore)%list_find_Some.
  exists (take i l), (drop (S i) l).
  split_and!.
  - by rewrite take_drop_middle.
  - apply length_take_le. apply lookup_lt_Some in Hi. lia.
  - done.
  - apply Forall_forall. intros y Hy.
    apply list_elem_of_lookup in Hy as [j Hj].
    pose proof (lookup_lt_Some _ _ _ Hj) as Hlt.
    rewrite length_take in Hlt.
    rewrite lookup_take_lt in Hj by lia.
    eapply Hbefore; [done | lia].
Qed.

Lemma list_find_app_first {A} (P : A → Prop) `{!∀ x, Decision (P x)} (l1 l2 : list A) x :
  Forall (λ y, ¬ P y) l1 → P x →
  list_find P (l1 ++ x :: l2) = Some (length l1, x).
Proof.
  intros Hl1 Hx. apply list_find_Some. split_and!.
  - by rewrite list_lookup_middle.
  - done.
  - intros j y Hj Hlt. rewrite lookup_app_l in Hj by done.
    rewrite Forall_forall in Hl1. apply Hl1.
    apply list_elem_of_lookup. eauto.
Qed.

Lemma split_block_for_page_app pre block post frame_start page_size pid :
  _split_block_for_page (pre ++ block :: post) (length pre) frame_start page_size pid
  = pre ++ pieces block frame_start page_size pid ++ post.
Proof.
  unfold _split_block_for_page, pieces, pre_piece, post_piece.
  rewrite list_lookup_middle by done.
  destruct (decide (MemoryBlock.start block < frame_start)) as [Hlt|Hge].
  - rewrite list_insert_at_app.
    set (pre_block := MemoryBlock.mk _ (frame_start - _) None).
    replace (S (length pre)) with (length (pre ++ [pre_block]))
      by (rewrite length_app; simpl; lia).
    replace (pre ++ pre_block :: block :: post)
      with ((pre ++ [pre_block]) ++ block :: post) by (by rewrite <- app_assoc).
    rewrite list_insert_middle.
    destruct (decide (_ > _)).
    + replace (S (length (pre ++ [pre_block])))
        with (length ((pre ++ [pre_block]) ++ [MemoryBlock.mk frame_start page_size (Some pid)]))
        by (rewrite !length_app; simpl; lia).
      rewrite (cons_middle _ (pre ++ [pre_block]) post).
      rewrite app_assoc, list_insert_at_app.
      by rewrite <- !app_assoc.
    + by rewrite <- !app_assoc.
  - rewrite list_insert_middle.
    destruct (decide (_ > _)).
    + replace (S (length pre))
        with (length (pre ++ [MemoryBlock.mk frame_start page_size (Some pid)]))
        by (rewrite length_app; simpl; lia).
      rewrite (cons_middle _ pre post).
      rewrite app_assoc, list_insert_at_app.
      by rewrite <- !app_assoc.
    + done.
Qed.

Lemma lookup_middle_next {A} (l1 l2 : list A) x y :
  (l1 ++ x :: y :: l2) !! S (length l1) = Some y.
Proof.
  rewrite lookup_app_r by lia.
  by replace (S (length l1) - length l1)%nat with 1%nat by lia.
Qed.

Lemma delete_middle_next {A} (l1 l2 : list A) x y :
  delete (S (length l1)) (l1 ++ x :: y :: l2) = l1 ++ x :: l2.
Proof.
  induction l1 as [|z l1 IH]; [done|]. simpl. by f_equal.
Qed.

(** The loop reaches its exit test within the fuel it is given. *)
Lemma merge_loop_spec fuel pre cur rest :
  (length rest ≤ fuel)%nat →
  merge_loop fuel (length pre) (pre ++ cur :: rest) = pre ++ merge_from cur rest.
Proof.
  revert pre cur rest.
  induction fuel as [|fuel IH]; intros pre cur rest Hfuel.
  - destruct rest; [done | simpl in Hfuel; lia].
  - simpl. destruct rest as [|next_block rest].
    + rewrite decide_False; [done|]. rewrite length_app. simpl. lia.
    + rewrite decide_True by (rewrite length_app; simpl; lia).
      rewrite list_lookup_middle by done.
      rewrite lookup_middle_next.
      simpl in Hfuel.
      destruct (MemoryBlock.is_free cur && MemoryBlock.is_free next_block) eqn:Hfree.
      * rewrite list_insert_middle, delete_middle_next.
        rewrite IH by lia. simpl. by rewrite Hfree.
      * replace (pre ++ cur :: next_block :: rest)
          with ((pre ++ [cur]) ++ next_block :: rest) by (by rewrite <- app_assoc).
        replace (S (length pre)) with (length (pre ++ [cur]))
          by (rewrite length_app; simpl; lia).
        rewrite IH by lia.
        rewrite <- app_assoc. simpl. by rewrite Hfree.
Qed.

Lemma merge_adjacent_free_blocks_coalesce blocks :
  _merge_adjacent_free_blocks blocks = coalesce blocks.
Proof.
  unfold _merge_adjacent_free_blocks. destruct blocks as [|cur rest]; [done|].
  apply (merge_loop_spec _ [] cur rest). simpl. lia.
Qed.

Lemma release_blocks_app pid pre copy :
  release_blocks pid (length pre) copy (pre ++ copy) = pre ++ (release pid <$> copy).
Proof.
  revert pre. induction copy as [|block copy IH]; intros pre; [done|].
  simpl.
  assert ((if decide (MemoryBlock.process_id block = Some pid)
           then <[length pre := freed block]> (pre ++ block :: copy)
           else pre ++ block :: copy)
          = (pre ++ [release pid block]) ++ copy) as ->.
  { unfold release. case_decide.
    - rewrite list_insert_middle. by rewrite <- app_assoc.
    - by rewrite <- app_assoc. }
  replace (S (length pre)) with (length (pre ++ [release pid block]))
    by (rewrite length_app; simpl; lia).
  rewrite IH. by rewrite <- app_assoc.
Qed.

Lemma release_blocks_map pid blocks :
  release_blocks pid 0 blocks blocks = release pid <$> blocks.
Proof. apply (release_blocks_app pid [] blocks). Qed.
End list_surgery.

(* ===================================================================== *)
(** * The shape of the block list *)
(* ===================================================================== *)

Section shape.
Implicit Types (b block cur : MemoryBlock.t) (blocks pre post rest : list MemoryBlock.t).

Lemma tiles_app a l1 l2 e :
  tiles a (l1 ++ l2) e ↔ ∃ m, tiles a l1 m ∧ tiles m l2 e.
Proof.
  revert a. induction l1 as [|b l1 IH]; intros a; simpl.
  - split; [eauto | by intros (m & -> & ?)].
  - rewrite IH. naive_solver.
Qed.

Lemma tiles_le a blocks e : tiles a blocks e → a ≤ e.
Proof.
  revert a. induction blocks as [|b rest IH]; intros a; simpl; [lia|].
  intros (_ & Hpos & Hrest). apply IH in Hrest. lia.
Qed.

(** Replacing one block by a tiling of the same span keeps the tiling. *)
Lemma tiles_replace a pre b post e X :
  tiles a (pre ++ b :: post) e →
  tiles (MemoryBlock.start b) X (MemoryBlock.start b + MemoryBlock.size b) →
  tiles a (pre ++ X ++ post) e.
Proof.
  rewrite !tiles_app. intros (m & Hpre & Hb) HX. simpl in Hb.
  destruct Hb as (Hstart & _ & Hpost). subst m.
  exists (MemoryBlock.start b). split; [done|]. apply tiles_app. eauto.
Qed.

Lemma tiles_same_spans a l1 l2 e :
  MemoryBlock.start <$> l1 = MemoryBlock.start <$> l2 →
  MemoryBlock.size <$> l1 = MemoryBlock.size <$> l2 →
  tiles a l1 e → tiles a l2 e.
Proof.
  revert a l2. induction l1 as [|b1 l1 IH]; intros a [|b2 l2]; simpl; try done.
  intros [= Hs Hss] [= Hz Hzs] (? & ? & ?).
  split_and!; [congruence | congruence |]. rewrite <- Hz. eauto.
Qed.

Lemma no_adjacent_free_app l1 l2 :
  no_adjacent_free (l1 ++ l2)
  ↔ no_adjacent_free l1 ∧ no_adjacent_free l2 ∧ ¬ (last_free l1 ∧ head_free l2).
Proof.
  induction l1 as [|b1 l1 IH]; simpl.
  - unfold last_free. simpl. naive_solver.
  - destruct l1 as [|b1' l1].
    + clear IH. unfold last_free. simpl. destruct l2; simpl; naive_solver.
    + simpl in *. unfold last_free in *. simpl in *.
      rewrite IH. naive_solver.
Qed.

(** Around a free block both neighbours are owned. *)
Lemma no_adjacent_free_around pre b post :
  MemoryBlock.is_free b → no_adjacent_free (pre ++ b :: post) →
  no_adjacent_free pre ∧ no_adjacent_free post
  ∧ ¬ last_free pre ∧ ¬ head_free post.
Proof.
  intros Hb (Hpre & Hbpost & Hbound)%no_adjacent_free_app.
  simpl in *. destruct post as [|b' post]; simpl in *; naive_solver.
Qed.

Lemma no_adjacent_free_replace pre b post X :
  MemoryBlock.is_free b → no_adjacent_free (pre ++ b :: post) →
  no_adjacent_free X → no_adjacent_free (pre ++ X ++ post).
Proof.
  intros Hb (Hpre & Hpost & Hl & Hh)%no_adjacent_free_around HX; [|done].
  apply no_adjacent_free_app. split_and!; [done| |].
  - apply no_adjacent_free_app. naive_solver.
  - naive_solver.
Qed.

Lemma pieces_tile b frame_start page_size pid :
  0 < page_size → MemoryBlock.start b ≤ frame_start →
  MemoryBlock.end_ b >= frame_start + page_size - 1 →
  tiles (MemoryBlock.start b) (pieces b frame_start page_size pid)
    (MemoryBlock.start b + MemoryBlock.size b).
Proof.
  unfold pieces, pre_piece, post_piece, MemoryBlock.end_. intros Hps Hstart Hend.
  repeat case_decide; simpl; split_and?; lia.
Qed.

Lemma pieces_no_adjacent_free b frame_start page_size pid :
  no_adjacent_free (pieces b frame_start page_size pid).
Proof.
  unfold pieces, pre_piece, post_piece.
  repeat case_decide; simpl; unfold MemoryBlock.is_free; simpl; naive_solver.
Qed.

Lemma head_free_merge_from cur rest :
  head_free (merge_from cur rest) = MemoryBlock.is_free cur.
Proof.
  revert cur. induction rest as [|next_block rest IH]; intros cur; [done|].
  simpl. destruct (MemoryBlock.is_free cur && MemoryBlock.is_free next_block) eqn:Hfree.
  - rewrite IH. simpl. by apply andb_prop in Hfree as [-> _].
  - done.
Qed.

(** Coalescing removes every pair of free neighbours, whatever the list. *)
Lemma merge_from_no_adjacent_free cur rest : no_adjacent_free (merge_from cur rest).
Proof.
  revert cur. induction rest as [|next_block rest IH]; intros cur; [done|].
  simpl. destruct (MemoryBlock.is_free cur && MemoryBlock.is_free next_block) eqn:Hfree.
  - apply IH.
  - specialize (IH next_block). simpl.
    pose proof (head_free_merge_from next_block rest) as Hhead.
    destruct (merge_from next_block rest) as [|b' l'] eqn:Hm.
    + done.
    + simpl in Hhead. split; [|done]. rewrite Hhead.
      apply andb_false_iff in Hfree.
      destruct Hfree as [->| ->]; naive_solver.
Qed.

Lemma coalesce_no_adjacent_free blocks : no_adjacent_free (coalesce blocks).
Proof. destruct blocks; [done|]. apply merge_from_no_adjacent_free. Qed.

Lemma merge_from_tiles a cur rest e :
  tiles a (cur :: rest) e → tiles a (merge_from cur rest) e.
Proof.
  revert a cur. induction rest as [|next_block rest IH]; intros a cur; [done|].
  intros (Hstart & Hpos & Hnext & Hpos' & Hrest).
  simpl. destruct (MemoryBlock.is_free cur && MemoryBlock.is_free next_block).
  - apply IH. simpl. split_and!; [done | lia |].
    by rewrite Z.add_assoc.
  - simpl. split_and!; [done..|]. apply IH. simpl. done.
Qed.

Lemma coalesce_tiles a blocks e : tiles a blocks e → tiles a (coalesce blocks) e.
Proof. destruct blocks; [done|]. apply merge_from_tiles. Qed.
End shape.

(* ===================================================================== *)
(** * Histories and invariants *)
(* ===================================================================== *)

Lemma foldl_invariant {A B} (P : A → Prop) (f : A → B → A) (l : list B) (a : A) :
  P a → (∀ a b, b ∈ l → P a → P (f a b)) → P (foldl f a l).
Proof.
  revert a. induction l as [|b l IH]; intros a Ha Hstep; [done|].
  simpl. apply IH.
  - apply Hstep; [left | done].
  - intros a' b' Hb'. apply Hstep. by right.
Qed.

(** An invariant that every admissible call keeps holds after every
    history of admissible calls. *)
Lemma run_invariant (P : MemoryManager.t → Prop) (admissible : Call → Prop)
    (self : MemoryManager.t) (history : list Call) :
  P self →
  (∀ s c, admissible c → P s → P (call s c)) →
  Forall admissible history →
  P (run self history).
Proof.
  intros Hinit Hstep Hadm. unfold run.
  apply foldl_invariant; [done|].
  intros s c Hc. apply Hstep. rewrite Forall_forall in Hadm. by apply Hadm.
Qed.

Lemma calculate_external_fragmentation_spec s :
  _calculate_external_fragmentation s
  = match fragmentation_ratio (memory_blocks s) with
    | Return ratio => Return (set_external_fragmentation s ratio)
    | Raise exception => Raise exception
    end.
Proof.
  unfold _calculate_external_fragmentation, fragmentation_ratio, total_free,
    largest_free.
  case_decide; [|done]. by destruct (int_truediv _ _).
Qed.

Lemma allocate_process_configuration s pid size method :
  same_configuration s (allocate_process s pid size method).2.
Proof.
  unfold allocate_process, _allocate_paging, _allocate_segmentation.
  repeat (case_decide || case_match); simpl; try done.
  all: rewrite calculate_external_fragmentation_spec in *.
  all: destruct (fragmentation_ratio _); by simplify_eq.
Qed.

Lemma deallocate_process_configuration s pid :
  same_configuration s (deallocate_process s pid).2.
Proof.
  unfold deallocate_process, _deallocate_paging, _deallocate_segmentation.
  repeat case_match; simpl; done.
Qed.

Lemma call_configuration s c : same_configuration s (call s c).
Proof.
  destruct c; simpl;
    auto using allocate_process_configuration, deallocate_process_configuration.
  all: done.
Qed.

Lemma run_configuration s history : same_configuration s (run s history).
Proof.
  unfold run. apply (foldl_invariant (same_configuration s)); [done|].
  intros s' c _ (? & ? & ?). destruct (call_configuration s' c) as (? & ? & ?).
  unfold same_configuration. split_and!; congruence.
Qed.

(* ===================================================================== *)
(** * The range invariant along a history *)
(* ===================================================================== *)

Section range_invariant.
Implicit Types (b block : MemoryBlock.t) (blocks pre post : list MemoryBlock.t).

(** One iteration of the paging loop keeps the invariant: the block that
    the scan finds is free and contains the frame. *)
Lemma paging_body_range_invariant total page_size pid free_frames st i :
  0 < page_size →
  range_invariant total (loop_blocks st) →
  range_invariant total (loop_blocks (paging_body page_size pid free_frames st i)).
Proof.
  intros Hps [Htiles Hnaf]. unfold paging_body.
  destruct (free_frames !! i) as [frame|]; [|done]. simpl. unfold place_page.
  destruct (list_find (frame_fits _ _) _) as [[j b]|] eqn:Hfind; [|done].
  apply list_find_split in Hfind as (pre & post & Heq & <- & Hfits & _).
  destruct Hfits as (Hfree & Hstart & Hend).
  rewrite Heq in *. rewrite split_block_for_page_app. split.
  - eapply tiles_replace; [done|]. by apply pieces_tile.
  - eapply no_adjacent_free_replace; [done..|]. apply pieces_no_adjacent_free.
Qed.

Lemma segment_blocks_app pre b post segment remainder :
  list_insert_at (S (length pre)) remainder
    (<[length pre := segment]> (pre ++ b :: post))
  = pre ++ [segment; remainder] ++ post.
Proof.
  rewrite list_insert_middle.
  replace (S (length pre)) with (length (pre ++ [segment]))
    by (rewrite length_app; simpl; lia).
  replace (pre ++ segment :: post) with ((pre ++ [segment]) ++ post)
    by (by rewrite <- app_assoc).
  rewrite list_insert_at_app. by rewrite <- app_assoc.
Qed.

Lemma release_segment_spans pid blocks segment :
  MemoryBlock.start <$> release_segment pid blocks segment = MemoryBlock.start <$> blocks
  ∧ MemoryBlock.size <$> release_segment pid blocks segment = MemoryBlock.size <$> blocks.
Proof.
  unfold release_segment.
  destruct (list_find _ _) as [[i b]|] eqn:Hfind; [|done].
  apply list_find_split in Hfind as (pre & post & -> & <- & _).
  rewrite list_insert_middle, !fmap_app. done.
Qed.

Lemma release_segments_spans pid segments blocks :
  MemoryBlock.start <$> foldl (release_segment pid) blocks segments
    = MemoryBlock.start <$> blocks
  ∧ MemoryBlock.size <$> foldl (release_segment pid) blocks segments
    = MemoryBlock.size <$> blocks.
Proof.
  revert blocks. induction segments as [|segment segments IH]; intros blocks; [done|].
  simpl. destruct (IH (release_segment pid blocks segment)) as [-> ->].
  apply release_segment_spans.
Qed.

Lemma release_spans pid blocks :
  MemoryBlock.start <$> (release pid <$> blocks) = MemoryBlock.start <$> blocks
  ∧ MemoryBlock.size <$> (release pid <$> blocks) = MemoryBlock.size <$> blocks.
Proof.
  rewrite <- !list_fmap_compose.
  split; apply list_fmap_ext; intros ? b _; simpl; unfold release; by case_decide.
Qed.

Lemma allocate_process_range_invariant s pid size method :
  0 < page_size s →
  (method = SEGMENTATION → 1 ≤ size) →
  range_invariant (total_memory_size s) (memory_blocks s) →
  range_invariant (total_memory_size s)
    (memory_blocks (allocate_process s pid size method).2).
Proof.
  intros Hps Hsize Hinv. unfold allocate_process.
  case_decide; [done|]. destruct method.
  - unfold _allocate_paging. simpl. case_decide; [done|].
    case_decide; simpl.
    all: apply (foldl_invariant
                  (λ st, range_invariant (total_memory_size s) (loop_blocks st)));
      [done|].
    all: intros st i _; by apply paging_body_range_invariant.
  - specialize (Hsize eq_refl). unfold _allocate_segmentation. simpl.
    destruct (list_find _ _) as [[i b]|] eqn:Hfind.
    + simpl. apply list_find_split in Hfind as (pre & post & Heq & <- & Hfit & _).
      destruct Hfit as [Hfree Hfit]. destruct Hinv as [Htiles Hnaf].
      rewrite Heq in *. case_decide.
      * rewrite segment_blocks_app. split.
        -- eapply tiles_replace; [done|]. simpl. split_and!; lia.
        -- eapply no_adjacent_free_replace; [done..|].
           simpl. unfold MemoryBlock.is_free. simpl. naive_solver.
      * rewrite list_insert_middle.
        change (MemoryBlock.mk (MemoryBlock.start b) size (Some pid) :: post)
          with ([MemoryBlock.mk (MemoryBlock.start b) size (Some pid)] ++ post).
        split.
        -- eapply tiles_replace; [done|]. simpl. split_and!; lia.
        -- eapply no_adjacent_free_replace; [done..|]. done.
    + rewrite calculate_external_fragmentation_spec.
      by destruct (fragmentation_ratio _).
Qed.

Lemma deallocate_process_range_invariant s pid :
  range_invariant (total_memory_size s) (memory_blocks s) →
  range_invariant (total_memory_size s) (memory_blocks (deallocate_process s pid).2).
Proof.
  intros [Htiles Hnaf]. unfold deallocate_process.
  destruct (processes s !! pid) as [process|]; [|done]. simpl.
  destruct (nonempty (Process.pages process)); [|destruct (nonempty _)]; simpl.
  - rewrite merge_adjacent_free_blocks_coalesce, release_blocks_map. split.
    + apply coalesce_tiles.
      destruct (release_spans (Process.process_id process) (memory_blocks s)).
      by eapply tiles_same_spans.
    + apply coalesce_no_adjacent_free.
  - rewrite merge_adjacent_free_blocks_coalesce. split.
    + apply coalesce_tiles.
      destruct (release_segments_spans (Process.process_id process)
                  (Process.segments process) (memory_blocks s)).
      by eapply tiles_same_spans.
    + apply coalesce_no_adjacent_free.
  - done.
Qed.
End range_invariant.

(* ===================================================================== *)
(** * What the tiling says about addresses *)
(* ===================================================================== *)

Section addresses.
Implicit Types (b : MemoryBlock.t) (blocks : list MemoryBlock.t).

Lemma tiles_lookup a blocks e i b :
  tiles a blocks e → blocks !! i = Some b →
  0 < MemoryBlock.size b ∧ a ≤ MemoryBlock.start b
  ∧ MemoryBlock.start b + MemoryBlock.size b ≤ e.
Proof.
  revert a i. induction blocks as [|b0 rest IH]; intros a i Htiles Hi; [done|].
  destruct Htiles as (Hstart & Hpos & Hrest).
  pose proof (tiles_le _ _ _ Hrest).
  destruct i as [|i]; simpl in Hi.
  - simplify_eq. lia.
  - destruct (IH _ _ Hrest Hi) as (? & ? & ?). lia.
Qed.

Lemma tiles_lookup_lt a blocks e i j b b' :
  tiles a blocks e → blocks !! i = Some b → blocks !! j = Some b' → (i < j)%nat →
  MemoryBlock.start b + MemoryBlock.size b ≤ MemoryBlock.start b'.
Proof.
  revert a i j. induction blocks as [|b0 rest IH]; intros a i j Htiles Hi Hj Hlt; [done|].
  destruct Htiles as (Hstart & Hpos & Hrest).
  destruct j as [|j]; [lia|]. simpl in Hj.
  destruct i as [|i]; simpl in Hi.
  - simplify_eq. destruct (tiles_lookup _ _ _ _ _ Hrest Hj) as (? & ? & ?). lia.
  - eapply IH; [done..|lia].
Qed.

Lemma tiles_lookup_next a blocks e i b b' :
  tiles a blocks e → blocks !! i = Some b → blocks !! S i = Some b' →
  MemoryBlock.start b' = MemoryBlock.start b + MemoryBlock.size b.
Proof.
  revert a i. induction blocks as [|b0 rest IH]; intros a i Htiles Hi Hj; [done|].
  destruct Htiles as (Hstart & Hpos & Hrest). simpl in Hj.
  destruct i as [|i]; simpl in Hi.
  - destruct rest as [|b1 rest]; simpl in Hj; simplify_eq.
    destruct Hrest as (? & _). lia.
  - eauto.
Qed.

(** Every address of [[a, e)] lies in some block. *)
Lemma tiles_covers a blocks e x :
  tiles a blocks e → a ≤ x < e → ∃ i b, blocks !! i = Some b ∧ contains b x.
Proof.
  revert a. induction blocks as [|b0 rest IH]; intros a Htiles Hx; simpl in *; [lia|].
  destruct Htiles as (Hstart & Hpos & Hrest).
  destruct (decide (x < a + MemoryBlock.size b0)) as [Hin|Hout].
  - exists 0%nat, b0. unfold contains, MemoryBlock.end_. split; [done|lia].
  - destruct (IH _ Hrest) as (i & b & Hi & Hc); [lia|].
    exists (S i), b. done.
Qed.

(** No address lies in two blocks. *)
Lemma tiles_disjoint a blocks e x i j b b' :
  tiles a blocks e → blocks !! i = Some b → blocks !! j = Some b' →
  contains b x → contains b' x → i = j.
Proof.
  unfold contains, MemoryBlock.end_. intros Htiles Hi Hj Hb Hb'.
  destruct (Nat.lt_trichotomy i j) as [Hlt|[Heq|Hgt]]; [|done|].
  - pose proof (tiles_lookup_lt _ _ _ _ _ _ _ Htiles Hi Hj Hlt). lia.
  - pose proof (tiles_lookup_lt _ _ _ _ _ _ _ Htiles Hj Hi Hgt). lia.
Qed.

Lemma no_adjacent_free_lookup blocks i b b' :
  no_adjacent_free blocks → blocks !! i = Some b → blocks !! S i = Some b' →
  ¬ (MemoryBlock.is_free b ∧ MemoryBlock.is_free b').
Proof.
  revert i. induction blocks as [|b0 rest IH]; intros i Hnaf Hi Hj; [done|].
  destruct Hnaf as [Hhead Hrest]. simpl in Hj.
  destruct i as [|i]; simpl in Hi.
  - destruct rest as [|b1 rest]; simpl in Hj; simplify_eq. done.
  - eauto.
Qed.
End addresses.

Lemma range_invariant_model total blocks :
  range_invariant total blocks → range_model total blocks.
Proof.
  intros [Htiles Hnaf]. unfold range_model. split_and!.
  - intros i b Hi. by destruct (tiles_lookup _ _ _ _ _ Htiles Hi).
  - intros i b b' Hi Hj. unfold MemoryBlock.end_.
    rewrite (tiles_lookup_next _ _ _ _ _ _ Htiles Hi Hj). lia.
  - intros i b Hi. unfold MemoryBlock.end_.
    destruct (tiles_lookup _ _ _ _ _ Htiles Hi) as (? & ? & ?). lia.
  - intros x Hx. by eapply tiles_covers.
  - intros x i j b b'. by eapply tiles_disjoint.
  - intros i b b'. by apply no_adjacent_free_lookup.
Qed.

Lemma call_range_invariant total ps s c :
  0 < ps → segment_size_positive c →
  total_memory_size s = total ∧ page_size s = ps
    ∧ range_invariant total (memory_blocks s) →
  total_memory_size (call s c) = total ∧ page_size (call s c) = ps
    ∧ range_invariant total (memory_blocks (call s c)).
Proof.
  intros Hps Hc (Htotal & Hpage & Hinv).
  destruct (call_configuration s c) as (Ht & Hp & _).
  split_and!; [congruence..|]. subst total ps.
  destruct c as [pid size method|pid| |]; simpl; [| |done..].
  - apply allocate_process_range_invariant; [done| |done].
    intros ->. done.
  - by apply deallocate_process_range_invariant.
Qed.

Lemma init_range_invariant total ps s :
  0 < total → __init__ total ps = Return s →
  total_memory_size s = total ∧ page_size s = ps
    ∧ range_invariant total (memory_blocks s).
Proof.
  intros Htotal. unfold __init__. case_decide; [done|].
  intros [= <-]. simpl. unfold range_invariant. simpl.
  split_and!; done || lia.
Qed.

(* ===================================================================== *)
(** * The paging loop *)
(* ===================================================================== *)

Section paging_loop.
Implicit Types (b block : MemoryBlock.t) (blocks pre post : list MemoryBlock.t).
Implicit Types (pt page_table : list (option Z)) (frames : list nat).

Lemma pages_on_snoc frames frame :
  pages_on (frames ++ [frame])
  = pages_on frames ++ [Page.mk (length frames) (Some frame)].
Proof.
  unfold pages_on. rewrite imap_app. simpl.
  by rewrite Nat.add_0_r.
Qed.

Lemma page_frames_pages_on frames : page_frames (pages_on frames) = frames.
Proof.
  induction frames as [|frame frames IH] using rev_ind; [done|].
  rewrite pages_on_snoc. unfold page_frames in *.
  rewrite omap_app, IH. done.
Qed.

Lemma length_pages_on frames : length (pages_on frames) = length frames.
Proof. unfold pages_on. by rewrite length_imap. Qed.

(** After [n] iterations the loop has built pages [0..n-1] on the first [n]
    free frames, marked those frames, and placed each of them in the block
    list. *)
Lemma paging_loop_spec page_size pid frames st n :
  (n ≤ length frames)%nat →
  foldl (paging_body page_size pid frames) st (seq 0 n)
  = mkPagingLoop
      (loop_pages st ++ pages_on (take n frames))
      (assign_frames pid (loop_page_table st) (take n frames))
      (place_pages page_size pid (loop_blocks st) (take n frames)).
Proof.
  induction n as [|n IH]; intros Hn.
  - simpl. rewrite take_0. unfold pages_on. simpl. rewrite app_nil_r. by destruct st.
  - rewrite seq_S, foldl_app, IH by lia. simpl.
    destruct (lookup_lt_is_Some_2 frames n) as [frame Hframe]; [lia|].
    unfold paging_body. rewrite Hframe. simpl.
    rewrite (take_S_r _ _ _ Hframe).
    rewrite pages_on_snoc, length_take_le by lia.
    unfold assign_frames, place_pages. rewrite !foldl_app. simpl.
    by rewrite <- app_assoc.
Qed.

Lemma set_frames_lookup v pt frames f :
  set_frames v pt frames !! f
  = if decide (f ∈ frames) then (λ _, v) <$> pt !! f else pt !! f.
Proof.
  unfold set_frames. revert pt.
  induction frames as [|frame frames IH]; intros pt; simpl.
  - done.
  - rewrite IH.
    destruct (decide (frame = f)) as [->|Hne].
    + rewrite (decide_True (P := f ∈ f :: frames)) by left.
      destruct (decide (f < length pt)%nat) as [Hlt|Hge].
      * rewrite list_lookup_insert_eq by done.
        destruct (lookup_lt_is_Some_2 pt f Hlt) as [o ->]. by case_decide.
      * rewrite list_insert_ge by lia.
        rewrite (lookup_ge_None_2 pt f) by lia. by case_decide.
    + rewrite list_lookup_insert_ne by done.
      destruct (decide (f ∈ frames)) as [Hin|Hnotin].
      * rewrite decide_True; [done | by right].
      * rewrite decide_False; [done|].
        intros [?|?]%elem_of_cons; done.
Qed.

Lemma length_set_frames v pt frames : length (set_frames v pt frames) = length pt.
Proof.
  unfold set_frames. revert pt. induction frames as [|frame frames IH]; intros pt; [done|].
  simpl. by rewrite IH, length_insert.
Qed.

Lemma assign_frames_set_frames pid pt frames :
  assign_frames pid pt frames = set_frames (Some pid) pt frames.
Proof. done. Qed.

Lemma release_frames_set_frames pages pt :
  release_frames pages pt = set_frames None pt (page_frames pages).
Proof.
  unfold release_frames, set_frames, page_frames. revert pt.
  induction pages as [|[i [frame|]] pages IH]; intros pt; simpl; [done|..]; apply IH.
Qed.

(** The free frames are listed in ascending order, each once, and they are
    exactly the positions of the table that hold [None]. *)
Lemma enumerate_free_elem i pt f :
  f ∈ enumerate_free i pt ↔ (i ≤ f)%nat ∧ pt !! (f - i)%nat = Some None.
Proof.
  revert i. induction pt as [|o pt IH]; intros i; simpl.
  - rewrite elem_of_nil. naive_solver.
  - destruct o as [p|].
    + rewrite IH. split.
      * intros [Hle Hf]. split; [lia|].
        by replace (f - i)%nat with (S (f - S i)) by lia.
      * intros [Hle Hf]. destruct (decide (f = i)) as [->|Hne].
        -- rewrite Nat.sub_diag in Hf. done.
        -- split; [lia|].
           by replace (f - i)%nat with (S (f - S i)) in Hf by lia.
    + rewrite elem_of_cons, IH. split.
      * intros [->|[Hle Hf]].
        -- by rewrite Nat.sub_diag.
        -- split; [lia|]. by replace (f - i)%nat with (S (f - S i)) by lia.
      * intros [Hle Hf]. destruct (decide (f = i)) as [->|Hne]; [by left|].
        right. split; [lia|].
        by replace (f - i)%nat with (S (f - S i)) in Hf by lia.
Qed.

Lemma enumerate_free_free pt f :
  f ∈ enumerate_free 0 pt ↔ pt !! f = Some None.
Proof. rewrite enumerate_free_elem, Nat.sub_0_r. naive_solver lia. Qed.

Lemma enumerate_free_sorted i pt : StronglySorted lt (enumerate_free i pt).
Proof.
  revert i. induction pt as [|o pt IH]; intros i; simpl; [constructor|].
  destruct o as [p|]; [apply IH|].
  constructor; [apply IH|].
  apply Forall_forall. intros f [Hf _]%enumerate_free_elem. lia.
Qed.

Lemma enumerate_free_NoDup i pt : NoDup (enumerate_free i pt).
Proof.
  revert i. induction pt as [|o pt IH]; intros i; simpl; [constructor|].
  destruct o as [p|]; [apply IH|].
  constructor; [|apply IH].
  intros [Hf _]%enumerate_free_elem. lia.
Qed.

(** What [place_page] does to the list: nothing, or the replacement of the
    first fitting block by its pieces. *)
Lemma place_page_cases page_size pid blocks frame :
  (place_page page_size pid blocks frame = blocks
   ∧ Forall (λ b, ¬ frame_fits (Z.of_nat frame * page_size) page_size b) blocks)
  ∨ ∃ pre b post,
      blocks = pre ++ b :: post
      ∧ frame_fits (Z.of_nat frame * page_size) page_size b
      ∧ Forall (λ b, ¬ frame_fits (Z.of_nat frame * page_size) page_size b) pre
      ∧ place_page page_size pid blocks frame
        = pre ++ pieces b (Z.of_nat frame * page_size) page_size pid ++ post.
Proof.
  unfold place_page. simpl.
  destruct (list_find (frame_fits _ _) blocks) as [[j b]|] eqn:Hfind.
  - right. apply list_find_split in Hfind as (pre & post & -> & <- & Hfits & Hpre).
    exists pre, b, post. by rewrite split_block_for_page_app.
  - left. split; [done|]. by apply list_find_None in Hfind.
Qed.

Lemma place_page_no_adjacent_free page_size pid blocks frame :
  no_adjacent_free blocks → no_adjacent_free (place_page page_size pid blocks frame).
Proof.
  intros Hnaf.
  destruct (place_page_cases page_size pid blocks frame)
    as [[-> _]|(pre & b & post & -> & (Hfree & _) & _ & ->)]; [done|].
  eapply no_adjacent_free_replace; [done..|]. apply pieces_no_adjacent_free.
Qed.

Lemma place_page_tiles page_size pid blocks frame a e :
  0 < page_size → tiles a blocks e → tiles a (place_page page_size pid blocks frame) e.
Proof.
  intros Hps Htiles.
  destruct (place_page_cases page_size pid blocks frame)
    as [[-> _]|(pre & b & post & -> & (Hfree & Hstart & Hend) & _ & ->)]; [done|].
  eapply tiles_replace; [done|]. by apply pieces_tile.
Qed.

Lemma filter_pieces_other q b frame_start page_size pid :
  q ≠ pid → filter (owned_by q) (pieces b frame_start page_size pid) = [].
Proof.
  intros Hne. unfold pieces, pre_piece, post_piece.
  repeat case_decide; simpl;
    repeat (rewrite filter_cons_False by (unfold owned_by; simpl; congruence));
    done.
Qed.

Lemma place_page_filter_other page_size pid blocks frame q :
  q ≠ pid →
  filter (owned_by q) (place_page page_size pid blocks frame)
  = filter (owned_by q) blocks.
Proof.
  intros Hne.
  destruct (place_page_cases page_size pid blocks frame)
    as [[-> _]|(pre & b & post & -> & (Hfree & _) & _ & ->)]; [done|].
  rewrite !filter_app, filter_pieces_other by done.
  rewrite filter_cons_False; [done|].
  unfold owned_by. unfold MemoryBlock.is_free in Hfree.
  destruct (MemoryBlock.process_id b); done.
Qed.

Lemma place_pages_no_adjacent_free page_size pid blocks frames :
  no_adjacent_free blocks → no_adjacent_free (place_pages page_size pid blocks frames).
Proof.
  intros H. unfold place_pages. apply foldl_invariant; [done|].
  intros. by apply place_page_no_adjacent_free.
Qed.

Lemma place_pages_filter_other page_size pid blocks frames q :
  q ≠ pid →
  filter (owned_by q) (place_pages page_size pid blocks frames)
  = filter (owned_by q) blocks.
Proof.
  intros Hne. unfold place_pages.
  apply (foldl_invariant
           (λ l, filter (owned_by q) l = filter (owned_by q) blocks)); [done|].
  intros l frame _ <-. by apply place_page_filter_other.
Qed.
End paging_loop.

(* ===================================================================== *)
(** * The effect of each call on the whole state *)
(* ===================================================================== *)

Section effects.
Implicit Types (s : MemoryManager.t) (b : MemoryBlock.t) (blocks pre post : list MemoryBlock.t).

Lemma allocate_duplicate s pid size method :
  is_Some (processes s !! pid) →
  allocate_process s pid size method
  = (Return false, set_events s (events s ++ [duplicate_event pid])).
Proof. intros H. unfold allocate_process. by rewrite decide_True. Qed.

Lemma allocate_paging_failure s pid size :
  processes s !! pid = None →
  Z.of_nat (length (enumerate_free 0 (page_table s))) < pages_needed size (page_size s) →
  allocate_process s pid size PAGING
  = (Return false,
     MemoryManager.mk (total_memory_size s) (page_size s) (total_frames s)
       (memory_blocks s) (page_table s)
       (<[pid := Process.mk pid size [] []]> (processes s))
       (events s ++ [page_fault_event pid (pages_needed size (page_size s))
                       (length (enumerate_free 0 (page_table s)))])
       (page_faults s + 1) (external_fragmentation s) (internal_fragmentation s)).
Proof.
  intros Hfresh Hfew. unfold allocate_process.
  rewrite decide_False by (rewrite Hfresh; by intros [? ?]).
  unfold _allocate_paging. simpl. fold (pages_needed size (page_size s)).
  by rewrite decide_True.
Qed.

Lemma allocate_paging_success s pid size :
  processes s !! pid = None →
  ¬ Z.of_nat (length (enumerate_free 0 (page_table s))) < pages_needed size (page_size s) →
  let frames :=
    take (Z.to_nat (pages_needed size (page_size s))) (enumerate_free 0 (page_table s)) in
  allocate_process s pid size PAGING
  = (Return true,
     MemoryManager.mk (total_memory_size s) (page_size s) (total_frames s)
       (place_pages (page_size s) pid (memory_blocks s) frames)
       (assign_frames pid (page_table s) frames)
       (<[pid := Process.mk pid size (pages_on frames) []]> (processes s))
       (events s ++ [paging_event pid (pages_needed size (page_size s))])
       (page_faults s) (external_fragmentation s)
       (internal_fragmentation s + internal_waste size (page_size s))).
Proof.
  intros Hfresh Henough frames. unfold allocate_process.
  rewrite decide_False by (rewrite Hfresh; by intros [? ?]).
  unfold _allocate_paging. simpl. fold (pages_needed size (page_size s)).
  rewrite decide_False by done.
  rewrite paging_loop_spec by lia. simpl. fold frames.
  rewrite insert_insert_eq. unfold internal_waste.
  case_decide; simpl.
  - done.
  - by rewrite Z.add_0_r.
Qed.

Lemma allocate_segmentation_failure s pid size :
  processes s !! pid = None →
  Forall (λ b, ¬ first_fit size b) (memory_blocks s) →
  allocate_process s pid size SEGMENTATION
  = (failure_result s,
     MemoryManager.mk (total_memory_size s) (page_size s) (total_frames s)
       (memory_blocks s) (page_table s)
       (<[pid := Process.mk pid size [] []]> (processes s))
       (events s ++ [no_block_event pid size])
       (page_faults s) (ratio_after_failure s)
       (internal_fragmentation s)).
Proof.
  intros Hfresh Hnone. unfold allocate_process.
  rewrite decide_False by (rewrite Hfresh; by intros [? ?]).
  unfold _allocate_segmentation. simpl.
  rewrite (proj2 (list_find_None (first_fit size) (memory_blocks s)) Hnone).
  rewrite calculate_external_fragmentation_spec.
  unfold failure_result, ratio_after_failure. simpl.
  by destruct (fragmentation_ratio (memory_blocks s)).
Qed.

Lemma allocate_segmentation_success s pid size pre b post :
  processes s !! pid = None →
  memory_blocks s = pre ++ b :: post →
  Forall (λ b, ¬ first_fit size b) pre → first_fit size b →
  allocate_process s pid size SEGMENTATION
  = (Return true,
     MemoryManager.mk (total_memory_size s) (page_size s) (total_frames s)
       (pre ++ (segment_of pid size b :: remainder_of size b) ++ post)
       (page_table s)
       (<[pid := Process.mk pid size [] [segment_of pid size b]]> (processes s))
       (events s ++ [segment_event pid (MemoryBlock.start b)])
       (page_faults s) (external_fragmentation s) (internal_fragmentation s)).
Proof.
  intros Hfresh Hblocks Hpre Hb. unfold allocate_process.
  rewrite decide_False by (rewrite Hfresh; by intros [? ?]).
  unfold _allocate_segmentation. simpl.
  rewrite Hblocks, (list_find_app_first _ _ _ _ Hpre Hb). simpl.
  rewrite insert_insert_eq. unfold remainder_of, segment_of.
  case_decide.
  - by rewrite segment_blocks_app.
  - by rewrite list_insert_middle.
Qed.

Lemma deallocate_unknown s pid :
  processes s !! pid = None →
  deallocate_process s pid = (false, set_events s (events s ++ [unknown_event pid])).
Proof. intros H. unfold deallocate_process. by rewrite H. Qed.
End effects.

(* ===================================================================== *)
(** * Releasing and coalescing *)
(* ===================================================================== *)

Section releasing.
Implicit Types (s : MemoryManager.t) (b : MemoryBlock.t) (blocks pre post : list MemoryBlock.t).

Lemma filter_nil_Forall {A} (P : A → Prop) `{!∀ x, Decision (P x)} (l : list A) :
  filter P l = [] ↔ Forall (λ x, ¬ P x) l.
Proof.
  induction l as [|x l IH]; [by split; [constructor|]|].
  rewrite filter_cons. case_decide.
  - split; [done|]. by intros [? _]%Forall_cons.
  - rewrite IH. split; [by constructor | by intros [_ ?]%Forall_cons].
Qed.

Lemma filter_singleton_split {A} (P : A → Prop) `{!∀ x, Decision (P x)} (l : list A) x :
  filter P l = [x] →
  ∃ l1 l2, l = l1 ++ x :: l2 ∧ P x
           ∧ Forall (λ y, ¬ P y) l1 ∧ Forall (λ y, ¬ P y) l2.
Proof.
  induction l as [|y l IH]; [done|].
  rewrite filter_cons. case_decide as Hy.
  - intros [= -> Hl]. exists [], l. split_and!; [done..|constructor|].
    exact (proj1 (filter_nil_Forall P l) Hl).
  - intros (l1 & l2 & -> & ? & ? & ?)%IH. exists (y :: l1), l2.
    split_and!; [done..| |done]. by constructor.
Qed.

Lemma merge_from_fixed cur rest :
  no_adjacent_free (cur :: rest) → merge_from cur rest = cur :: rest.
Proof.
  revert cur. induction rest as [|next_block rest IH]; intros cur; [done|].
  intros [Hpair Hrest]. simpl.
  destruct (MemoryBlock.is_free cur && MemoryBlock.is_free next_block) eqn:Hfree.
  - apply andb_prop in Hfree as [? ?]. destruct Hpair. split; by apply Is_true_true.
  - by rewrite IH.
Qed.

(** A list without free neighbours is left as it is by the merge. *)
Lemma coalesce_fixed blocks : no_adjacent_free blocks → coalesce blocks = blocks.
Proof. destruct blocks; [done|]. apply merge_from_fixed. Qed.

(** The merge touches free blocks only. *)
Lemma merge_from_filter (P : MemoryBlock.t → Prop) `{!∀ b, Decision (P b)} cur rest :
  (∀ b, P b → ¬ MemoryBlock.is_free b) →
  filter P (merge_from cur rest) = filter P (cur :: rest).
Proof.
  intros HP. revert cur. induction rest as [|next_block rest IH]; intros cur; [done|].
  simpl. destruct (MemoryBlock.is_free cur && MemoryBlock.is_free next_block) eqn:Hfree.
  - apply andb_prop in Hfree as [Hc Hn]. apply Is_true_true in Hc, Hn.
    rewrite IH. rewrite !filter_cons.
    rewrite (decide_False (P := P cur)) by (intros ?%HP; done).
    rewrite (decide_False (P := P next_block)) by (intros ?%HP; done).
    rewrite decide_False; [done|]. intros ?%HP. done.
  - rewrite filter_cons, IH. by rewrite (filter_cons _ cur).
Qed.

Lemma coalesce_filter (P : MemoryBlock.t → Prop) `{!∀ b, Decision (P b)} blocks :
  (∀ b, P b → ¬ MemoryBlock.is_free b) →
  filter P (coalesce blocks) = filter P blocks.
Proof. intros HP. destruct blocks; [done|]. by apply merge_from_filter. Qed.

Lemma owned_by_not_free pid b : owned_by pid b → ¬ MemoryBlock.is_free b.
Proof. unfold owned_by, MemoryBlock.is_free. intros ->. simpl. tauto. Qed.

Lemma is_owned_not_free b : is_owned b → ¬ MemoryBlock.is_free b.
Proof.
  unfold is_owned, MemoryBlock.is_free.
  destruct (MemoryBlock.process_id b); simpl; tauto.
Qed.

Lemma release_not_owned pid blocks :
  Forall (λ b, ¬ owned_by pid b) blocks → release pid <$> blocks = blocks.
Proof.
  induction 1 as [|b blocks Hb _ IH]; [done|].
  rewrite fmap_cons, IH. unfold release. by rewrite decide_False.
Qed.

Lemma filter_release_same pid blocks :
  filter (owned_by pid) (release pid <$> blocks) = [].
Proof.
  apply (proj2 (filter_nil_Forall _ _)), Forall_fmap, Forall_forall.
  intros b _. simpl.
  unfold release, owned_by. case_decide; simpl; congruence.
Qed.

Lemma filter_release_other pid q blocks :
  q ≠ pid →
  filter (owned_by q) (release pid <$> blocks) = filter (owned_by q) blocks.
Proof.
  intros Hne. induction blocks as [|b blocks IH]; [done|].
  rewrite fmap_cons, !filter_cons, IH. unfold release.
  destruct (decide (MemoryBlock.process_id b = Some pid)) as [Hb|Hb].
  - rewrite !decide_False; [done|..]; unfold owned_by; simpl; congruence.
  - done.
Qed.

(** With exactly one block owned, the scan of [_deallocate_segmentation]
    frees that block. *)
Lemma release_segment_single pid blocks segment :
  filter (owned_by pid) blocks = [segment] →
  release_segment pid blocks segment = release pid <$> blocks.
Proof.
  intros (pre & post & -> & Hseg & Hpre & Hpost)%filter_singleton_split.
  unfold release_segment.
  rewrite (list_find_app_first (segment_matches pid segment)).
  - rewrite list_insert_middle, fmap_app, fmap_cons.
    rewrite !release_not_owned by done.
    unfold release. by rewrite decide_True.
  - eapply Forall_impl; [done|]. intros b Hb [_ ?]. by apply Hb.
  - done.
Qed.

Lemma clear_owner_frames pid (pt : list (option Z)) frames :
  (∀ f, f ∈ frames ↔ pt !! f = Some (Some pid)) →
  set_frames None pt frames = clear_owner pid <$> pt.
Proof.
  intros Hframes. apply list_eq. intros f.
  rewrite set_frames_lookup, list_lookup_fmap.
  destruct (decide (f ∈ frames)) as [Hin|Hnotin].
  - apply Hframes in Hin. rewrite Hin. simpl. unfold clear_owner.
    by rewrite decide_True.
  - destruct (pt !! f) as [o|] eqn:Hf; [|done]. simpl. unfold clear_owner.
    rewrite decide_False; [done|]. intros ->. by apply Hnotin, Hframes.
Qed.

(** A known process: its frames and blocks are freed and the list is
    coalesced, whichever strategy allocated it. *)
Lemma deallocate_known s pid process :
  consistent s →
  processes s !! pid = Some process →
  deallocate_process s pid
  = (true,
     MemoryManager.mk (total_memory_size s) (page_size s) (total_frames s)
       (coalesce (release pid <$> memory_blocks s))
       (clear_owner pid <$> page_table s)
       (delete pid (processes s))
       (events s ++ [deallocation_event pid])
       (page_faults s) (external_fragmentation s) (internal_fragmentation s)).
Proof.
  intros Hs Hpid. unfold deallocate_process. rewrite Hpid.
  pose proof (consistent_keys s Hs pid process Hpid) as Hkey.
  pose proof (consistent_blocks s Hs pid) as Hblocks. rewrite Hpid in Hblocks.
  assert (∀ f, f ∈ page_frames (Process.pages process)
               ↔ page_table s !! f = Some (Some pid)) as Hframes.
  { intros f. rewrite (consistent_frames s Hs). split; [eauto|].
    intros (process' & Hp' & ?). by simplify_eq. }
  unfold _deallocate_paging, _deallocate_segmentation.
  rewrite Hkey, release_blocks_map, !merge_adjacent_free_blocks_coalesce,
    release_frames_set_frames.
  rewrite (clear_owner_frames pid _ _ Hframes).
  f_equal.
  destruct (nonempty (Process.pages process)) eqn:Hne; [done|].
  destruct (Process.pages process) as [|page pages] eqn:Hpages; [|done].
  destruct (Hblocks eq_refl) as [Howned Hlen].
  assert (clear_owner pid <$> page_table s = page_table s) as Hpt.
  { rewrite <- (clear_owner_frames pid _ _ Hframes). done. }
  destruct (Process.segments process) as [|segment segments] eqn:Hsegs.
  - simpl. rewrite Hpt.
    rewrite release_not_owned
      by exact (proj1 (filter_nil_Forall _ _) Howned).
    rewrite coalesce_fixed by apply (consistent_no_adjacent_free s Hs).
    by destruct s.
  - destruct segments; [|simpl in Hlen; lia].
    simpl. rewrite release_segment_single by done.
    rewrite Hpt. by destruct s.
Qed.
End releasing.

(* ===================================================================== *)
(** * Consistency of the process map with the frame table and the blocks *)
(* ===================================================================== *)

Section consistency.
Implicit Types (s : MemoryManager.t) (b : MemoryBlock.t) (blocks pre post : list MemoryBlock.t).

Lemma consistent_ext s s' :
  processes s' = processes s → page_table s' = page_table s →
  memory_blocks s' = memory_blocks s →
  consistent s → consistent s'.
Proof.
  intros Hp Ht Hb [H1 H2 H3 H4].
  split; rewrite ?Hp, ?Ht, ?Hb; done.
Qed.

Lemma consistent_init total ps s : __init__ total ps = Return s → consistent s.
Proof.
  unfold __init__. case_decide; [done|]. intros [= <-].
  split; simpl.
  - intros pid process. by rewrite lookup_empty.
  - intros frame pid. split.
    + intros [[=] _]%lookup_replicate.
    + intros (process & Hp & _). by rewrite lookup_empty in Hp.
  - intros pid. rewrite lookup_empty. done.
  - done.
Qed.

Lemma consistent_fresh_frames s pid frame :
  consistent s → processes s !! pid = None →
  page_table s !! frame ≠ Some (Some pid).
Proof.
  intros Hs Hfresh Hframe.
  apply (consistent_frames s Hs) in Hframe as (process & Hp & _). congruence.
Qed.

Lemma consistent_fresh_blocks s pid :
  consistent s → processes s !! pid = None →
  filter (owned_by pid) (memory_blocks s) = [].
Proof.
  intros Hs Hfresh. pose proof (consistent_blocks s Hs pid) as H.
  by rewrite Hfresh in H.
Qed.

(** Registering a record that has neither pages nor segments. *)
Lemma consistent_register s s' pid size :
  consistent s → processes s !! pid = None →
  processes s' = <[pid := Process.mk pid size [] []]> (processes s) →
  page_table s' = page_table s → memory_blocks s' = memory_blocks s →
  consistent s'.
Proof.
  intros Hs Hfresh Hp Ht Hb. split; rewrite ?Hp, ?Ht, ?Hb.
  - intros q process. rewrite lookup_insert. case_decide.
    + intros [= <-]. done.
    + apply (consistent_keys s Hs).
  - intros frame q. rewrite (consistent_frames s Hs). split.
    + intros (process & Hq & Hin). exists process. split; [|done].
      rewrite lookup_insert_ne; [done|]. congruence.
    + intros (process & Hq & Hin). rewrite lookup_insert in Hq.
      case_decide; simplify_eq.
      * simpl in Hin. by apply elem_of_nil in Hin.
      * eauto.
  - intros q. rewrite lookup_insert. case_decide as Hq.
    + subst q. simpl. intros _. split; [|lia]. by apply consistent_fresh_blocks.
    + apply (consistent_blocks s Hs).
  - apply (consistent_no_adjacent_free s Hs).
Qed.

Lemma consistent_paging s pid size :
  consistent s → processes s !! pid = None →
  ¬ Z.of_nat (length (enumerate_free 0 (page_table s))) < pages_needed size (page_size s) →
  consistent (allocate_process s pid size PAGING).2.
Proof.
  intros Hs Hfresh Henough. rewrite allocate_paging_success by done. simpl.
  set (frames := take _ (enumerate_free 0 (page_table s))).
  assert (∀ f, f ∈ frames → page_table s !! f = Some None) as Hfree.
  { intros f (i & Hi & _)%elem_of_take. apply enumerate_free_free.
    apply list_elem_of_lookup. eauto. }
  split; simpl.
  - intros q process. rewrite lookup_insert. case_decide.
    + intros [= <-]. done.
    + apply (consistent_keys s Hs).
  - intros frame q. rewrite assign_frames_set_frames, set_frames_lookup.
    destruct (decide (frame ∈ frames)) as [Hin|Hnotin].
    + rewrite (Hfree _ Hin). simpl. split.
      * intros [= <-]. eexists. rewrite lookup_insert_eq. split; [done|].
        simpl. by rewrite page_frames_pages_on.
      * intros (process & Hq & Hframe). rewrite lookup_insert in Hq.
        case_decide; simplify_eq; [done|].
        assert (page_table s !! frame = Some (Some q)) as Habs
          by (apply (consistent_frames s Hs); eauto).
        rewrite (Hfree _ Hin) in Habs. done.
    + rewrite (consistent_frames s Hs). split.
      * intros (process & Hq & Hframe). exists process. split; [|done].
        rewrite lookup_insert_ne; [done|]. congruence.
      * intros (process & Hq & Hframe). rewrite lookup_insert in Hq.
        case_decide; simplify_eq.
        -- simpl in Hframe. by rewrite page_frames_pages_on in Hframe.
        -- eauto.
  - intros q. rewrite lookup_insert. case_decide as Hq.
    + subst q. simpl. intros Hpages. split; [|lia].
      assert (frames = []) as ->.
      { apply (f_equal length) in Hpages. rewrite length_pages_on in Hpages.
        by destruct frames. }
      by apply consistent_fresh_blocks.
    + rewrite place_pages_filter_other by congruence.
      apply (consistent_blocks s Hs).
  - apply place_pages_no_adjacent_free, (consistent_no_adjacent_free s Hs).
Qed.

Lemma segment_pieces_no_adjacent_free pid size b :
  no_adjacent_free (segment_of pid size b :: remainder_of size b).
Proof.
  unfold segment_of, remainder_of. case_decide; simpl; [|done].
  unfold MemoryBlock.is_free. simpl. naive_solver.
Qed.

Lemma consistent_segmentation s pid size pre b post :
  consistent s → processes s !! pid = None →
  memory_blocks s = pre ++ b :: post →
  Forall (λ b, ¬ first_fit size b) pre → first_fit size b →
  consistent (allocate_process s pid size SEGMENTATION).2.
Proof.
  intros Hs Hfresh Hblocks Hpre Hb.
  rewrite (allocate_segmentation_success s pid size pre b post) by done. simpl.
  destruct Hb as [Hfree Hsize].
  pose proof (consistent_no_adjacent_free s Hs) as Hnaf. rewrite Hblocks in Hnaf.
  split; simpl.
  - intros q process. rewrite lookup_insert. case_decide.
    + intros [= <-]. done.
    + apply (consistent_keys s Hs).
  - intros frame q. rewrite (consistent_frames s Hs). split.
    + intros (process & Hq & Hin). exists process. split; [|done].
      rewrite lookup_insert_ne; [done|]. congruence.
    + intros (process & Hq & Hin). rewrite lookup_insert in Hq.
      case_decide; simplify_eq.
      * simpl in Hin. by apply elem_of_nil in Hin.
      * eauto.
  - intros q. rewrite lookup_insert.
    pose proof (consistent_blocks s Hs q) as Hq. rewrite Hblocks in Hq.
    rewrite filter_app, filter_cons_False in Hq
      by (intros ?%owned_by_not_free; done).
    rewrite filter_app, filter_cons, filter_app. case_decide as Heq.
    + subst q. rewrite Hfresh in Hq. apply app_eq_nil in Hq as [-> ->].
      simpl. intros _. split; [|lia].
      rewrite decide_True by done.
      unfold remainder_of. case_decide; [|done].
      rewrite filter_cons_False; [done|]. unfold owned_by. simpl. done.
    + rewrite decide_False by (unfold owned_by, segment_of; simpl; congruence).
      assert (filter (owned_by q) (remainder_of size b) = []) as ->; [|done].
      unfold remainder_of. case_decide; [|done].
      rewrite filter_cons_False; [done|]. unfold owned_by. simpl. done.
  - change (no_adjacent_free
              (pre ++ (segment_of pid size b :: remainder_of size b) ++ post)).
    eapply no_adjacent_free_replace; [done..|].
    apply segment_pieces_no_adjacent_free.
Qed.

Lemma consistent_allocate s pid size method :
  consistent s → consistent (allocate_process s pid size method).2.
Proof.
  intros Hs. destruct (processes s !! pid) as [process|] eqn:Hpid.
  - rewrite allocate_duplicate by eauto. by apply (consistent_ext s).
  - destruct method.
    + destruct (decide (Z.of_nat (length (enumerate_free 0 (page_table s)))
                          < pages_needed size (page_size s))) as [Hfew|Henough].
      * rewrite allocate_paging_failure by done.
        by apply (consistent_register s _ pid size).
      * by apply consistent_paging.
    + destruct (list_find (first_fit size) (memory_blocks s)) as [[i b]|] eqn:Hfind.
      * apply list_find_split in Hfind as (pre & post & Hblocks & _ & Hb & Hpre).
        by eapply consistent_segmentation.
      * apply list_find_None in Hfind.
        rewrite allocate_segmentation_failure by done.
        by apply (consistent_register s _ pid size).
Qed.

Lemma consistent_deallocate s pid :
  consistent s → consistent (deallocate_process s pid).2.
Proof.
  intros Hs. destruct (processes s !! pid) as [process|] eqn:Hpid.
  - rewrite (deallocate_known s pid process) by done. split; simpl.
    + intros q process'. rewrite lookup_delete. case_decide; [done|].
      apply (consistent_keys s Hs).
    + intros frame q. rewrite list_lookup_fmap. split.
      * intros Hq. destruct (page_table s !! frame) as [o|] eqn:Hframe; [|done].
        simpl in Hq. unfold clear_owner in Hq. case_decide; simplify_eq.
        apply (consistent_frames s Hs) in Hframe as (process' & Hq & Hin).
        exists process'. split; [|done].
        rewrite lookup_delete_ne; [done|]. congruence.
      * intros (process' & Hq & Hin). rewrite lookup_delete in Hq.
        case_decide; [done|].
        assert (page_table s !! frame = Some (Some q)) as ->
          by (apply (consistent_frames s Hs); eauto).
        simpl. unfold clear_owner. rewrite decide_False; [done|]. congruence.
    + intros q. rewrite lookup_delete.
      rewrite coalesce_filter by apply owned_by_not_free.
      case_decide as Hq.
      * subst q. apply filter_release_same.
      * rewrite filter_release_other by congruence.
        apply (consistent_blocks s Hs).
    + apply coalesce_no_adjacent_free.
  - rewrite deallocate_unknown by done. by apply (consistent_ext s).
Qed.

Lemma consistent_call s c : consistent s → consistent (call s c).
Proof.
  destruct c; simpl; auto using consistent_allocate, consistent_deallocate.
Qed.

(** Every state that a history reaches from a constructed engine is
    consistent. *)
Lemma consistent_run total ps s history :
  __init__ total ps = Return s → consistent (run s history).
Proof.
  intros Hinit. unfold run. apply foldl_invariant.
  - by eapply consistent_init.
  - intros s' c _. apply consistent_call.
Qed.
End consistency.

(* ===================================================================== *)
(** * The arithmetic of the ratio and of the percentage *)
(* ===================================================================== *)

Lemma foldl_max_spec (l : list Z) (x : Z) :
  foldl Z.max x l ∈ x :: l ∧ ∀ y, y ∈ x :: l → y ≤ foldl Z.max x l.
Proof.
  revert x. induction l as [|z l IH]; intros x; simpl.
  - split; [left|]. intros y ->%list_elem_of_singleton. lia.
  - destruct (IH (Z.max x z)) as [Hin Hmax]. split.
    + apply elem_of_cons in Hin as [Heq|Hin]; [|by do 2 right].
      rewrite Heq. destruct (Z.max_spec x z) as [[_ ->]|[_ ->]]; [right|]; left.
    + intros y Hy.
      assert (Z.max x z ≤ foldl Z.max (Z.max x z) l) by (apply Hmax; left).
      apply elem_of_cons in Hy as [->|Hy]; [lia|].
      apply elem_of_cons in Hy as [->|Hy]; [lia|].
      apply Hmax. by right.
Qed.

(** [largest_free] is the length of a free block and no free block is
    longer; without a free block it is the default, 0. *)
Lemma largest_free_spec (blocks : list MemoryBlock.t) :
  (∀ b, b ∈ blocks → MemoryBlock.is_free b →
        MemoryBlock.size b ≤ largest_free blocks)
  ∧ ((∃ b, b ∈ blocks ∧ MemoryBlock.is_free b) →
     ∃ b, b ∈ blocks ∧ MemoryBlock.is_free b
          ∧ MemoryBlock.size b = largest_free blocks)
  ∧ ((∀ b, b ∈ blocks → ¬ MemoryBlock.is_free b) → largest_free blocks = 0).
Proof.
  unfold largest_free, free_sizes.
  assert (∀ x, x ∈ MemoryBlock.size <$> filter (λ b, MemoryBlock.is_free b) blocks
               ↔ ∃ b, b ∈ blocks ∧ MemoryBlock.is_free b ∧ MemoryBlock.size b = x)
    as Hsizes.
  { intros x. rewrite list_elem_of_fmap. setoid_rewrite list_elem_of_filter.
    naive_solver. }
  destruct (MemoryBlock.size <$> filter (λ b, MemoryBlock.is_free b) blocks)
    as [|x l] eqn:Hl; simpl.
  - split_and!.
    + intros b Hb Hfree.
      assert (MemoryBlock.size b ∈ @nil Z) as Habs by (apply Hsizes; eauto).
      by apply elem_of_nil in Habs.
    + intros (b & Hb & Hfree).
      assert (MemoryBlock.size b ∈ @nil Z) as Habs by (apply Hsizes; eauto).
      by apply elem_of_nil in Habs.
    + done.
  - destruct (foldl_max_spec l x) as [Hin Hmax]. split_and!.
    + intros b Hb Hfree. apply Hmax, Hsizes. eauto.
    + intros _. apply Hsizes in Hin as (b & ? & ? & ?). eauto.
    + intros Hnone.
      assert (x ∈ x :: l) as (b & Hb & Hfree & _)%Hsizes by left.
      by destruct (Hnone b Hb).
Qed.

Section rounding.
Implicit Types (mrs : shr_record) (m e : Z) (p : positive).

Lemma digits2_pos_size p : digits2_pos p = Pos.size p.
Proof. induction p; simpl; congruence. Qed.

Lemma Zdigits2_le m k : 0 ≤ m < 2 ^ k → 0 ≤ k → Zdigits2 m ≤ k.
Proof.
  intros [Hm Hlt] Hk. destruct m as [|p|p]; simpl; [done| |lia].
  rewrite digits2_pos_size.
  pose proof (Pos.size_le p) as Hsize.
  apply Pos2Z.pos_le_pos in Hsize. rewrite Pos2Z.inj_pow in Hsize.
  destruct (decide (Z.pos (Pos.size p) ≤ k)) as [|Hgt]; [done|].
  assert (2 ^ (k + 1) ≤ 2 ^ Z.pos (Pos.size p)) by (apply Z.pow_le_mono_r; lia).
  rewrite Z.pow_add_r in * by lia. lia.
Qed.

Lemma shr_1_spec mrs :
  0 ≤ shr_m mrs →
  shr_m (shr_1 mrs) = shr_m mrs `div` 2
  ∧ (inexact mrs = false → (2 | shr_m mrs) → inexact (shr_1 mrs) = false).
Proof.
  destruct mrs as [m r s]. simpl. intros Hm.
  destruct m as [|[q|q|]|q]; simpl; try lia.
  - split; [done|]. by destruct r, s.
  - split; [apply (Z.div_unique _ _ _ 1); lia|].
    intros _ [k Hk]. lia.
  - split; [apply (Z.div_unique _ _ _ 0); lia|].
    by destruct r, s.
  - split; [done|]. intros _ [k Hk]. lia.
Qed.

Lemma iter_shr_1_spec p mrs :
  0 ≤ shr_m mrs →
  shr_m (SpecFloat.iter_pos shr_1 p mrs) = shr_m mrs `div` 2 ^ Z.pos p
  ∧ (inexact mrs = false → (2 ^ Z.pos p | shr_m mrs) →
     inexact (SpecFloat.iter_pos shr_1 p mrs) = false).
Proof.
  revert mrs. induction p as [p IH|p IH|]; intros mrs Hm; simpl.
  all: try assert (0 < 2 ^ Z.pos p) as Hpos by (by apply Z.pow_pos_nonneg).
  - destruct (shr_1_spec mrs Hm) as [H1 E1].
    assert (0 ≤ shr_m (shr_1 mrs)) as Hm1 by (rewrite H1; by apply Z.div_pos).
    destruct (IH _ Hm1) as [H2 E2].
    assert (0 ≤ shr_m (SpecFloat.iter_pos shr_1 p (shr_1 mrs))) as Hm2
      by (rewrite H2; apply Z.div_pos; lia).
    destruct (IH _ Hm2) as [H3 E3].
    assert (2 ^ Z.pos p~1 = 2 * 2 ^ Z.pos p * 2 ^ Z.pos p) as Hpow.
    { rewrite Pos2Z.inj_xI.
      replace (2 * Z.pos p + 1) with (1 + Z.pos p + Z.pos p) by lia.
      rewrite !Z.pow_add_r, Z.pow_1_r by lia. done. }
    split.
    + rewrite H3, H2, H1, Hpow, !Z.div_div by lia. f_equal. lia.
    + intros Hex [k Hk]. rewrite Hpow in Hk.
      apply E3.
      * apply E2; [apply E1; [done|]; exists (k * 2 ^ Z.pos p * 2 ^ Z.pos p); lia|].
        rewrite H1. exists (k * 2 ^ Z.pos p).
        rewrite Hk. replace (k * (2 * 2 ^ Z.pos p * 2 ^ Z.pos p))
          with (k * 2 ^ Z.pos p * 2 ^ Z.pos p * 2) by lia.
        by rewrite Z.div_mul.
      * rewrite H2, H1, Z.div_div by lia. exists k.
        rewrite Hk. replace (k * (2 * 2 ^ Z.pos p * 2 ^ Z.pos p))
          with (k * 2 ^ Z.pos p * (2 * 2 ^ Z.pos p)) by lia.
        by rewrite Z.div_mul by lia.
  - destruct (IH _ Hm) as [H2 E2].
    assert (0 ≤ shr_m (SpecFloat.iter_pos shr_1 p mrs)) as Hm2
      by (rewrite H2; apply Z.div_pos; lia).
    destruct (IH _ Hm2) as [H3 E3].
    assert (2 ^ Z.pos p~0 = 2 ^ Z.pos p * 2 ^ Z.pos p) as Hpow.
    { replace (Z.pos p~0) with (Z.pos p + Z.pos p) by lia.
      by rewrite Z.pow_add_r by lia. }
    split.
    + rewrite H3, H2, Hpow, Z.div_div by lia. f_equal.
    + intros Hex [k Hk]. rewrite Hpow in Hk. apply E3.
      * apply E2; [done|]. exists (k * 2 ^ Z.pos p). lia.
      * rewrite H2. exists k. rewrite Hk.
        replace (k * (2 ^ Z.pos p * 2 ^ Z.pos p)) with (k * 2 ^ Z.pos p * 2 ^ Z.pos p)
          by lia.
        by rewrite Z.div_mul by lia.
  - destruct (shr_1_spec mrs Hm) as [H1 E1]. split; [by rewrite H1|].
    intros Hex Hdiv. apply E1; [done|]. by rewrite Z.pow_1_r in Hdiv.
Qed.

Lemma fexp_small k : k ≤ 7 → fexp prec emax k ≤ -46.
Proof. unfold fexp, emin, prec, emax. lia. Qed.

Lemma round_nearest_even_le m l bound :
  m ≤ bound → (l ≠ loc_Exact → m < bound) → round_nearest_even m l ≤ bound.
Proof.
  intros Hle Hlt. destruct l as [|[]]; simpl; [done|..].
  - specialize (Hlt ltac:(done)). destruct (Z.even m); lia.
  - lia.
  - specialize (Hlt ltac:(done)). lia.
Qed.

Lemma round_nearest_even_nonneg m l : 0 ≤ m → 0 ≤ round_nearest_even m l.
Proof. intros Hm. destruct l as [|[]]; simpl; [done|..]; try destruct (Z.even m); lia. Qed.

Lemma loc_of_shr_record_exact mrs :
  inexact mrs = false → loc_of_shr_record mrs = loc_Exact.
Proof. by destruct mrs as [m [] []]. Qed.

Lemma shr_record_of_loc_spec m l :
  shr_m (shr_record_of_loc m l) = m
  ∧ loc_of_shr_record (shr_record_of_loc m l) = l
  ∧ (l = loc_Exact → inexact (shr_record_of_loc m l) = false).
Proof. by destruct l as [|[]]. Qed.

(** One shift to the exponent of the format keeps a bound that lies on the
    grid of the format. *)
Lemma shr_fexp_bound m e l bound :
  0 ≤ m → e ≤ 0 → 0 < bound < 2 ^ 7 →
  m ≤ bound * 2 ^ (- e) → (l ≠ loc_Exact → m < bound * 2 ^ (- e)) →
  ∃ mrs e',
    shr_fexp prec emax m e l = (mrs, e')
    ∧ 0 ≤ shr_m mrs ∧ e' ≤ 0 ∧ shr_m mrs ≤ bound * 2 ^ (- e')
    ∧ (loc_of_shr_record mrs ≠ loc_Exact → shr_m mrs < bound * 2 ^ (- e')).
Proof.
  intros Hm He Hbound Hle Hlt.
  assert (0 < 2 ^ (- e)) as Hpow by (apply Z.pow_pos_nonneg; lia).
  assert (Zdigits2 m + e ≤ 7) as Hdigits.
  { assert (Zdigits2 m ≤ 7 - e); [|lia].
    apply Zdigits2_le; [|lia]. split; [done|].
    replace (7 - e) with (7 + - e) by lia. rewrite Z.pow_add_r by lia. nia. }
  pose proof (fexp_small _ Hdigits) as Hfexp.
  destruct (shr_record_of_loc_spec m l) as (Hrm & Hrl & Hrx).
  unfold shr_fexp, shr.
  destruct (fexp prec emax (Zdigits2 m + e) - e) as [|p|p] eqn:Hn.
  - eexists _, _. split; [done|]. rewrite Hrm, Hrl. done.
  - eexists _, _. split; [done|].
    destruct (iter_shr_1_spec p (shr_record_of_loc m l)) as [Hshift Hexact];
      [by rewrite Hrm|].
    rewrite Hrm in Hshift, Hexact. rewrite Hshift.
    assert (0 < 2 ^ Z.pos p) as Hp by (by apply Z.pow_pos_nonneg).
    assert (0 < 2 ^ (- (e + Z.pos p))) as Hq by (apply Z.pow_pos_nonneg; lia).
    assert (2 ^ (- e) = 2 ^ (- (e + Z.pos p)) * 2 ^ Z.pos p) as Hsplit.
    { rewrite <- Z.pow_add_r by lia. f_equal. lia. }
    rewrite Hsplit in Hle, Hlt. split_and!.
    + by apply Z.div_pos.
    + lia.
    + apply Z.div_le_upper_bound; [done|]. lia.
    + intros Hloc. apply Z.div_lt_upper_bound; [done|].
      destruct l as [|c]; [|specialize (Hlt ltac:(done)); lia].
      destruct (decide (m = bound * 2 ^ (- (e + Z.pos p)) * 2 ^ Z.pos p))
        as [Heq|Hne]; [|lia].
      destruct Hloc. apply loc_of_shr_record_exact, Hexact; [by apply Hrx|].
      exists (bound * 2 ^ (- (e + Z.pos p))). lia.
  - eexists _, _. split; [done|]. rewrite Hrm, Hrl. done.
Qed.

(** Rounding a value that is at most [bound], a number of the format below
    128, gives a float that is at most [bound]. *)
Lemma binary_round_aux_within m e l bound :
  0 ≤ m → e ≤ 0 → 0 < bound < 2 ^ 7 →
  m ≤ bound * 2 ^ (- e) → (l ≠ loc_Exact → m < bound * 2 ^ (- e)) →
  within bound (binary_round_aux prec emax false m e l).
Proof.
  intros Hm He Hbound Hle Hlt. unfold binary_round_aux.
  destruct (shr_fexp_bound m e l bound) as (mrs & e' & -> & Hm' & He' & Hle' & Hlt');
    [done..|].
  destruct (shr_fexp_bound (round_nearest_even (shr_m mrs) (loc_of_shr_record mrs))
              e' loc_Exact bound)
    as (mrs2 & e2 & -> & Hm2 & He2 & Hle2 & _); [|done|done| |done|].
  - by apply round_nearest_even_nonneg.
  - by apply round_nearest_even_le.
  - destruct (shr_m mrs2) as [|q|q] eqn:Hq; simpl; [done| |lia].
    unfold emax, prec. rewrite (proj2 (Z.leb_le _ _)) by lia. done.
Qed.

(** The quotient of two ints, the first not above the second, is a double
    between 0 and 1: the division does not raise. *)
Lemma int_truediv_within a b :
  0 ≤ a ≤ b → 0 < b → ∃ q, int_truediv a b = Return q ∧ within 1 q.
Proof.
  intros [Ha Hab] Hb. unfold int_truediv. rewrite decide_False by lia.
  destruct b as [|pb|pb]; [lia| |lia]. destruct a as [|pa|pa]; [|clear Ha|lia].
  { by eexists. }
  cbn [exact SFdiv]. unfold SFdiv_core_binary.
  set (e' := Z.min _ _). set (s := 0 - 0 - e').
  assert (e' ≤ 0) as He by (unfold e'; lia).
  set (m' := match s with Z.pos _ => Z.shiftl (Z.pos pa) s | 0 => Z.pos pa | _ => 0 end).
  assert (0 < 2 ^ s) as Hpow by (apply Z.pow_pos_nonneg; lia).
  assert (m' = Z.pos pa * 2 ^ s) as Hm'.
  { unfold m'. destruct s as [|ps|ps] eqn:Hs; [|by rewrite Z.shiftl_mul_pow2|lia].
    by rewrite Z.mul_1_r. }
  pose proof (Z_div_mod m' (Z.pos pb) ltac:(done)) as Hdiv.
  destruct (Z.div_eucl m' (Z.pos pb)) as [q r]. destruct Hdiv as [Hq Hr].
  assert (within 1 (binary_round_aux prec emax (xorb false false) q e'
                      (new_location (Z.pos pb) r))) as Hwithin.
  { replace (2 ^ s) with (2 ^ (- e')) in * by (f_equal; lia).
    apply binary_round_aux_within; [nia|done|done|nia|].
    intros Hloc.
    assert (r ≠ 0) as Hr0.
    { intros ->. destruct Hloc. unfold new_location, new_location_even, new_location_odd.
      by destruct (Z.even (Z.pos pb)). }
    nia. }
  destruct (binary_round_aux _ _ _ _ _ _) as [[]|[]| |[] m e]; try done; by eexists.
Qed.

(** Such a quotient times 100 is a double between 0 and 100. *)
Lemma float_mul_100_within q :
  within 1 q → within 100 (float_mul q (float_of_int 100)).
Proof.
  change (float_of_int 100) with (S754_finite false 7036874417766400 (-46)).
  destruct q as [[]|[]| |[] m e]; try done. intros [He Hm].
  cbn [float_mul SFmul]. apply binary_round_aux_within; [done|lia|done| |done].
  replace (- (e + -46)) with (46 + - e) by lia.
  rewrite Z.pow_add_r, Pos2Z.inj_mul by lia.
  assert (0 < 2 ^ (- e)) by (apply Z.pow_pos_nonneg; lia).
  change (2 ^ 46) with 70368744177664 in *.
  change (Z.pos 7036874417766400) with (100 * 70368744177664). nia.
Qed.

Lemma within_value bound x :
  0 ≤ bound → within bound x →
  is_finite x = true
  ∧ (0 <= float_value x)%Q ∧ (float_value x <= inject_Z bound)%Q.
Proof.
  intros Hbound. destruct x as [[]|[]| |[] m e]; try done; simpl.
  - intros _. split_and!; [done|done|]. by rewrite <- (Zle_Qle 0).
  - intros [He Hm].
    assert (0 < 2 ^ (- e)) as Hpow by (apply Z.pow_pos_nonneg; lia).
    assert ((2 ^ e == / inject_Z (2 ^ (- e)))%Q) as ->.
    { rewrite Zpower_Qpower by lia. rewrite <- Qpower_opp. by rewrite Z.opp_involutive. }
    rewrite Qmult_1_l. split_and!; [done| |].
    + apply Qle_shift_div_l; [by rewrite <- (Zlt_Qlt 0)|].
      rewrite Qmult_0_l. by rewrite <- (Zle_Qle 0).
    + apply Qle_shift_div_r; [by rewrite <- (Zlt_Qlt 0)|].
      rewrite <- inject_Z_mult. by rewrite <- Zle_Qle.
Qed.
End rounding.

(** With free blocks of non-negative length the largest is at most the
    total, the quotient is at most 1 and the division does not raise. *)
Lemma sum_list_elem (l : list Z) (x : Z) :
  Forall (λ y, 0 ≤ y) l → x ∈ l → 0 ≤ x ≤ sum_list l.
Proof.
  unfold sum_list. induction 1 as [|y l Hy Hl IH]; [by intros ?%elem_of_nil|].
  assert (0 ≤ foldr Z.add 0 l) as Hsum.
  { clear IH. induction Hl; simpl; lia. }
  intros [->|Hx]%elem_of_cons; simpl; [lia|]. specialize (IH Hx). lia.
Qed.

Lemma fragmentation_ratio_returns (blocks : list MemoryBlock.t) :
  (∀ b, b ∈ blocks → MemoryBlock.is_free b → 0 ≤ MemoryBlock.size b) →
  ∃ ratio, fragmentation_ratio blocks = Return ratio.
Proof.
  intros Hsizes. unfold fragmentation_ratio. case_decide as Htotal; [|by eexists].
  destruct (largest_free_spec blocks) as (_ & Hattained & _).
  assert (0 ≤ largest_free blocks ≤ total_free blocks) as Hlargest.
  { assert (Forall (λ y, 0 ≤ y) (free_sizes blocks)) as Hall.
    { apply Forall_forall.
      intros y (b & -> & [Hfree Hb]%list_elem_of_filter)%list_elem_of_fmap.
      by apply Hsizes. }
    assert (∃ b, b ∈ blocks ∧ MemoryBlock.is_free b) as Hsome.
    { unfold total_free in Htotal.
      destruct (free_sizes blocks) as [|x l] eqn:Hl; [by vm_compute in Htotal|].
      assert (x ∈ free_sizes blocks)
        as (b & _ & [Hfree Hb]%list_elem_of_filter)%list_elem_of_fmap
        by (rewrite Hl; left).
      eauto. }
    destruct (Hattained Hsome) as (b & Hb & Hfree & <-).
    apply sum_list_elem; [done|]. apply list_elem_of_fmap. exists b.
    split; [done|]. by apply list_elem_of_filter. }
  destruct (int_truediv_within (largest_free blocks) (total_free blocks))
    as (q & -> & _); [done|lia|]. by eexists.
Qed.

(* ===================================================================== *)
(** * Failed calls *)
(* ===================================================================== *)

(** Whether the scan of the first-fit finds a block. *)
Lemma first_fit_cases size (blocks : list MemoryBlock.t) :
  Forall (λ b, ¬ first_fit size b) blocks
  ∨ ∃ pre b post, blocks = pre ++ b :: post
                  ∧ Forall (λ b, ¬ first_fit size b) pre ∧ first_fit size b.
Proof.
  destruct (list_find (first_fit size) blocks) as [[i b]|] eqn:Hfind.
  - right. apply list_find_split in Hfind as (pre & post & -> & _ & Hb & Hpre).
    by exists pre, b, post.
  - left. by apply list_find_None in Hfind.
Qed.

(** The division of the ratio has a positive divisor: it can only raise
    [OverflowError]. *)
Lemma fragmentation_ratio_raises (blocks : list MemoryBlock.t) exception :
  fragmentation_ratio blocks = Raise exception → exception = "OverflowError".
Proof.
  unfold fragmentation_ratio, int_truediv. case_decide; [|done].
  rewrite decide_False by lia.
  destruct (SFdiv _ _ _ _); [done| |done..]. by intros [= <-].
Qed.

(** C1 (as the code has it). On an engine whose page size is not 0, an
    allocate or deallocate call that does not succeed leaves the block list,
    the frame table, the configuration and the internal fragmentation as
    they were, keeps the record of every process that was live, and appends
    exactly one event. It is one of four cases. A duplicate id and an
    unknown id: the call returns [False], logs an ERROR event and leaves the
    process map, the page-fault counter and the fragmentation ratio as they
    were. A paging request that finds too few free frames: the call returns
    [False], logs a PAGE_FAULT event and increments the page-fault counter;
    the process map gains the record of the request, without pages or
    segments, and nothing else. A segmentation request that no free block
    fits: the call logs an ERROR event and the process map gains the record
    of the request and nothing else; the call returns [False] with the
    fragmentation ratio recomputed from the block list, in double
    arithmetic, or, when the division of the ratio is beyond the range of a
    double, it leaves with [OverflowError] and the ratio as it was. No other
    exception leaves a call. *)
Theorem failed_call_effect (s : MemoryManager.t) (c : Call) :
  MemoryManager.page_size s ≠ 0 →
  outcome s c ≠ Return true →
  memory_blocks (call s c) = memory_blocks s
  ∧ page_table (call s c) = page_table s
  ∧ internal_fragmentation (call s c) = internal_fragmentation s
  ∧ same_configuration s (call s c)
  ∧ (∀ pid process, processes s !! pid = Some process →
                    processes (call s c) !! pid = Some process)
  ∧ (duplicate_process s c ∨ insufficient_frames s c
     ∨ no_suitable_block s c ∨ unknown_process s c)
  ∧ (∀ exception, outcome s c = Raise exception →
                  exception = "OverflowError" ∧ no_suitable_block s c).
Proof.
  intros _ Hfail.
  assert (∀ pid size : Z,
            processes s !! pid = None →
            ∀ q process, processes s !! q = Some process →
                         <[pid := new_record pid size]> (processes s) !! q = Some process)
    as Hkept.
  { intros pid size Hfresh q process Hq. rewrite lookup_insert_ne; [done|].
    intros ->. congruence. }
  destruct c as [pid size method|pid| |]; simpl in Hfail; [| |done..].
  - destruct (processes s !! pid) as [process|] eqn:Hpid.
    + simpl. rewrite allocate_duplicate in * by eauto. simpl.
      split_and!; [done..| |done]. left. exists pid, size, method.
      simpl. rewrite allocate_duplicate by eauto. split_and!; eauto.
    + destruct method.
      * destruct (decide (Z.of_nat (length (enumerate_free 0 (page_table s)))
                            < pages_needed size (page_size s))) as [Hfew|Henough].
        -- simpl. rewrite allocate_paging_failure by done. simpl.
           split_and!; [done..|by apply Hkept| |done]. right. left. exists pid, size.
           simpl. rewrite allocate_paging_failure by done. by split_and!.
        -- rewrite allocate_paging_success in Hfail by done. done.
      * destruct (first_fit_cases size (memory_blocks s))
          as [Hnone|(pre & b & post & Hblocks & Hpre & Hb)].
        -- assert (no_suitable_block s (Allocate pid size SEGMENTATION)) as Hcase.
           { exists pid, size. simpl.
             rewrite allocate_segmentation_failure by done. simpl.
             unfold failure_result, ratio_after_failure.
             split_and!; [done..|]. by destruct (fragmentation_ratio _). }
           simpl. rewrite allocate_segmentation_failure by done. simpl.
           split_and!; [done..|by apply Hkept|by do 2 right; left|].
           unfold failure_result. intros exception Hraise. split; [|done].
           destruct (fragmentation_ratio (memory_blocks s)) as [e|ratio] eqn:Hratio;
             [|done].
           injection Hraise as <-. by eapply fragmentation_ratio_raises.
        -- rewrite (allocate_segmentation_success s pid size pre b post) in Hfail
             by done. done.
  - destruct (processes s !! pid) as [process|] eqn:Hpid.
    + unfold deallocate_process in Hfail. by rewrite Hpid in Hfail.
    + simpl. rewrite deallocate_unknown by done. simpl.
      split_and!; [done..| |done]. do 3 right. exists pid.
      simpl. rewrite deallocate_unknown by done. by split_and!.
Qed.

Lemma failed_call_effect_witness :
  let s :=
    run (initial_state 16 4)
      [Allocate 1 4 SEGMENTATION; Allocate 2 4 SEGMENTATION;
       Allocate 3 4 SEGMENTATION; Deallocate 1] in
  let c := Allocate 4 8 SEGMENTATION in
  memory_blocks (call s c) = memory_blocks s
  ∧ page_table (call s c) = page_table s
  ∧ internal_fragmentation (call s c) = internal_fragmentation s
  ∧ same_configuration s (call s c)
  ∧ (∀ pid process, processes s !! pid = Some process →
                    processes (call s c) !! pid = Some process)
  ∧ (duplicate_process s c ∨ insufficient_frames s c
     ∨ no_suitable_block s c ∨ unknown_process s c)
  ∧ (∀ exception, outcome s c = Raise exception →
                  exception = "OverflowError" ∧ no_suitable_block s c).
Proof.
  apply (failed_call_effect
           (run (initial_state 16 4)
              [Allocate 1 4 SEGMENTATION; Allocate 2 4 SEGMENTATION;
               Allocate 3 4 SEGMENTATION; Deallocate 1])
           (Allocate 4 8 SEGMENTATION)).
  - vm_compute. discriminate.
  - vm_compute. discriminate.
Defined.

(** C1 (as stated) fails: on a 16-unit memory with pages of 4, after three
    segments of 4 and the release of the first, a segmentation request of 8
    finds no block; the failed call registers process 4 and recomputes the
    fragmentation ratio, from the int 0 to the double 0.5. *)
Lemma failure_leaves_state_counterexample :
  ∃ s, __init__ 16 4 = Return s
       ∧ let s1 := run s [Allocate 1 4 SEGMENTATION; Allocate 2 4 SEGMENTATION;
                          Allocate 3 4 SEGMENTATION; Deallocate 1] in
         let c := Allocate 4 8 SEGMENTATION in
         outcome s1 c = Return false
         ∧ processes s1 !! 4 = None
         ∧ processes (call s1 c) !! 4 = Some (Process.mk 4 8 [] [])
         ∧ external_fragmentation s1 = Int 0
         ∧ external_fragmentation (call s1 c)
           = Float (S754_finite false 4503599627370496 (-53))
         ∧ ¬ failure_leaves_state s1 c.
Proof.
  exists (initial_state 16 4). split; [reflexivity|].
  split_and!; [by vm_compute..|].
  intros H. destruct (H ltac:(by vm_compute)) as (_ & _ & Hdom & _).
  apply (f_equal (λ d : gset Z, bool_decide (4 ∈ d))) in Hdom.
  vm_compute in Hdom. discriminate.
Qed.

(* ===================================================================== *)
(** * Records of failed allocations *)
(* ===================================================================== *)

Lemma processes_allocate_other s pid q size method :
  q ≠ pid →
  processes (allocate_process s q size method).2 !! pid = processes s !! pid.
Proof.
  intros Hne. destruct (processes s !! q) as [process|] eqn:Hq.
  - by rewrite allocate_duplicate by eauto.
  - destruct method.
    + destruct (decide (Z.of_nat (length (enumerate_free 0 (page_table s)))
                          < pages_needed size (page_size s))) as [Hfew|Henough].
      * rewrite allocate_paging_failure by done. simpl. by rewrite lookup_insert_ne.
      * rewrite allocate_paging_success by done. simpl. by rewrite lookup_insert_ne.
    + destruct (first_fit_cases size (memory_blocks s))
        as [Hnone|(pre & b & post & Hblocks & Hpre & Hb)].
      * rewrite allocate_segmentation_failure by done. simpl.
        by rewrite lookup_insert_ne.
      * rewrite (allocate_segmentation_success s q size pre b post) by done.
        simpl. by rewrite lookup_insert_ne.
Qed.

Lemma processes_deallocate s q :
  processes (deallocate_process s q).2 = delete q (processes s).
Proof.
  unfold deallocate_process. destruct (processes s !! q) as [process|] eqn:Hq.
  - simpl. unfold _deallocate_paging, _deallocate_segmentation.
    by repeat case_match.
  - simpl. by rewrite delete_id.
Qed.

(** A record stays in the map until its own id is deallocated. *)
Lemma record_stays s pid record history :
  processes s !! pid = Some record →
  Forall (λ c, c ≠ Deallocate pid) history →
  processes (run s history) !! pid = Some record.
Proof.
  intros Hrecord Hhistory. unfold run.
  apply (foldl_invariant (λ s, processes s !! pid = Some record)); [done|].
  intros s' c Hc Hs'. rewrite Forall_forall in Hhistory. specialize (Hhistory c Hc).
  destruct c as [q size method|q| |]; simpl; [| |done..].
  - destruct (decide (q = pid)) as [->|Hne].
    + by rewrite allocate_duplicate by eauto.
    + by rewrite processes_allocate_other.
  - rewrite processes_deallocate, lookup_delete_ne; [done|]. congruence.
Qed.

(** An allocation of a fresh id that does not succeed registers a record
    without pages and without segments, and touches neither the blocks nor
    the frame table. *)
Lemma failed_allocation_registers s pid size method :
  processes s !! pid = None →
  (allocate_process s pid size method).1 ≠ Return true →
  processes (allocate_process s pid size method).2
    = <[pid := Process.mk pid size [] []]> (processes s)
  ∧ memory_blocks (allocate_process s pid size method).2 = memory_blocks s
  ∧ page_table (allocate_process s pid size method).2 = page_table s.
Proof.
  intros Hfresh Hfail. destruct method.
  - destruct (decide (Z.of_nat (length (enumerate_free 0 (page_table s)))
                        < pages_needed size (page_size s))) as [Hfew|Henough].
    + by rewrite allocate_paging_failure by done.
    + by rewrite allocate_paging_success in Hfail by done.
  - destruct (first_fit_cases size (memory_blocks s))
      as [Hnone|(pre & b & post & Hblocks & Hpre & Hb)].
    + by rewrite allocate_segmentation_failure by done.
    + by rewrite (allocate_segmentation_success s pid size pre b post) in Hfail
        by done.
Qed.

Lemma consistent_run_from s history : consistent s → consistent (run s history).
Proof.
  intros Hs. unfold run. apply foldl_invariant; [done|].
  intros s' c _. apply consistent_call.
Qed.

(** C9. In every state that a history of calls reaches from a constructed
    engine, when an allocation with a fresh id fails (too few frames, or no
    fitting block; the call returns [False], or leaves with the exception of
    the ratio's division), the id is live from then on: until it is deallocated,
    every allocation with that id fails as a duplicate (ERROR event, nothing
    else changes), and its deallocation succeeds, removes the record and logs
    a DEALLOCATION event without touching blocks or frames, the process
    owning no frame and no block. *)
Theorem failed_allocation_leaves_live_id (total page_size : Z)
    (s0 : MemoryManager.t) (before : list Call) (pid size : Z)
    (method : AllocationMethod) (after : list Call) :
  __init__ total page_size = Return s0 →
  let s := run s0 before in
  processes s !! pid = None →
  (allocate_process s pid size method).1 ≠ Return true →
  Forall (λ c, c ≠ Deallocate pid) after →
  let s' := run (allocate_process s pid size method).2 after in
  processes s' !! pid = Some (Process.mk pid size [] [])
  ∧ (∀ size' method',
       allocate_process s' pid size' method'
       = (Return false, set_events s' (events s' ++ [duplicate_event pid])))
  ∧ deallocate_process s' pid
    = (true,
       set_events (set_processes s' (delete pid (processes s')))
                  (events s' ++ [deallocation_event pid]))
  ∧ (∀ frame, page_table s' !! frame ≠ Some (Some pid))
  ∧ filter (owned_by pid) (memory_blocks s') = [].
Proof.
  intros Hinit s Hfresh Hfail Hafter s'.
  destruct (failed_allocation_registers s pid size method Hfresh Hfail)
    as (Hprocesses & _ & _).
  assert (processes s' !! pid = Some (Process.mk pid size [] [])) as Hrecord.
  { apply record_stays; [|done]. rewrite Hprocesses. apply lookup_insert_eq. }
  assert (consistent s') as Hs'.
  { apply consistent_run_from, consistent_allocate. by eapply consistent_run. }
  split_and!.
  - done.
  - intros size' method'. apply allocate_duplicate. eauto.
  - unfold deallocate_process. rewrite Hrecord. done.
  - intros frame Hframe.
    apply (consistent_frames s' Hs') in Hframe as (process & Hp & Hin).
    rewrite Hrecord in Hp. simplify_eq. simpl in Hin.
    by apply elem_of_nil in Hin.
  - pose proof (consistent_blocks s' Hs' pid) as Hblocks.
    rewrite Hrecord in Hblocks. by destruct (Hblocks eq_refl).
Qed.

Lemma failed_allocation_leaves_live_id_witness :
  let s :=
    run (initial_state 16 4) [Allocate 1 4 SEGMENTATION; Allocate 2 4 PAGING] in
  let s' := run (allocate_process s 3 100 PAGING).2 [Deallocate 1] in
  processes s' !! 3 = Some (Process.mk 3 100 [] [])
  ∧ (∀ size' method',
       allocate_process s' 3 size' method'
       = (Return false, set_events s' (events s' ++ [duplicate_event 3])))
  ∧ deallocate_process s' 3
    = (true,
       set_events (set_processes s' (delete 3 (processes s')))
                  (events s' ++ [deallocation_event 3]))
  ∧ (∀ frame, page_table s' !! frame ≠ Some (Some 3))
  ∧ filter (owned_by 3) (memory_blocks s') = [].
Proof.
  apply (failed_allocation_leaves_live_id 16 4 (initial_state 16 4)
           [Allocate 1 4 SEGMENTATION; Allocate 2 4 PAGING] 3 100 PAGING
           [Deallocate 1]).
  - reflexivity.
  - reflexivity.
  - vm_compute. discriminate.
  - repeat constructor; discriminate.
Defined.

(* ===================================================================== *)
(** * Paging requests *)
(* ===================================================================== *)

Lemma pages_needed_zero page_size : 0 < page_size → pages_needed 0 page_size = 0.
Proof. intros H. unfold pages_needed. apply Z.div_small. lia. Qed.

(** C10. In every state that a history of calls reaches from an engine
    constructed with a positive page size, a paging request of size 0 with
    an id that is not live succeeds whatever the frame table holds (also
    with no free frame): the process is registered with no page, the block
    list, the frame table and the internal fragmentation are unchanged, and
    the process owns no frame and no block. *)
Theorem allocate_zero_paging (total page_size : Z) (s0 : MemoryManager.t)
    (history : list Call) (pid : Z) :
  0 < page_size →
  __init__ total page_size = Return s0 →
  let s := run s0 history in
  processes s !! pid = None →
  allocate_process s pid 0 PAGING
  = (Return true,
     MemoryManager.mk (total_memory_size s) (MemoryManager.page_size s) (total_frames s)
       (memory_blocks s) (page_table s)
       (<[pid := Process.mk pid 0 [] []]> (processes s))
       (events s ++ [paging_event pid 0])
       (page_faults s) (external_fragmentation s) (internal_fragmentation s))
  ∧ (∀ frame, page_table s !! frame ≠ Some (Some pid))
  ∧ filter (owned_by pid) (memory_blocks s) = [].
Proof.
  intros Hps Hinit s Hfresh.
  assert (consistent s) as Hs by (by eapply consistent_run).
  assert (MemoryManager.page_size s = page_size) as Hpage.
  { destruct (run_configuration s0 history) as (_ & Hrun & _).
    unfold s. rewrite Hrun.
    unfold __init__ in Hinit. case_decide; [done|]. by simplify_eq. }
  split_and!.
  - rewrite allocate_paging_success; [|done|].
    + rewrite Hpage, pages_needed_zero by done. simpl.
      unfold internal_waste. rewrite Z.mod_0_l by lia.
      rewrite decide_False by lia. by rewrite Z.add_0_r.
    + rewrite Hpage, pages_needed_zero by done. lia.
  - intros frame. by apply consistent_fresh_frames.
  - by apply consistent_fresh_blocks.
Qed.

Lemma allocate_zero_paging_witness :
  let s := run (initial_state 8 4) [Allocate 1 8 PAGING] in
  enumerate_free 0 (page_table s) = []
  ∧ allocate_process s 2 0 PAGING
    = (Return true,
       MemoryManager.mk (total_memory_size s) (MemoryManager.page_size s) (total_frames s)
         (memory_blocks s) (page_table s)
         (<[2 := Process.mk 2 0 [] []]> (processes s))
         (events s ++ [paging_event 2 0])
         (page_faults s) (external_fragmentation s) (internal_fragmentation s))
  ∧ (∀ frame, page_table s !! frame ≠ Some (Some 2))
  ∧ filter (owned_by 2) (memory_blocks s) = [].
Proof.
  split; [reflexivity|].
  apply (allocate_zero_paging 8 4 (initial_state 8 4) [Allocate 1 8 PAGING] 2).
  - reflexivity.
  - reflexivity.
  - reflexivity.
Defined.

Lemma pages_needed_ceiling size page_size :
  0 < page_size →
  (pages_needed size page_size - 1) * page_size < size
  ∧ size ≤ pages_needed size page_size * page_size.
Proof.
  intros Hps. unfold pages_needed.
  pose proof (Z.div_mod (size + page_size - 1) page_size ltac:(lia)) as Heq.
  pose proof (Z.mod_pos_bound (size + page_size - 1) page_size Hps) as Hr.
  nia.
Qed.

Lemma internal_waste_multiple size page_size :
  0 < page_size →
  internal_waste size page_size
  = if decide (size `mod` page_size = 0) then 0 else page_size - size `mod` page_size.
Proof.
  intros Hps. unfold internal_waste.
  pose proof (Z.mod_pos_bound size page_size Hps).
  repeat case_decide; lia.
Qed.

Lemma length_take_frames (needed : Z) (free : list nat) :
  ¬ Z.of_nat (length free) < needed →
  Z.of_nat (length (take (Z.to_nat needed) free)) = Z.max 0 needed.
Proof. intros H. rewrite length_take. lia. Qed.

(** C4. A paging request with a fresh id needs [ceil(size / page_size)]
    pages. It fails exactly when fewer frames are free: a PAGE_FAULT event is
    logged, the page-fault counter is incremented, and no frame is assigned.
    Otherwise it succeeds: the free frames being listed in ascending order,
    the process gets the first [pages_needed] of them (every frame it gets
    has a lower index than every free frame it does not get), as pages
    [0..k-1] in that order; the frame table changes at those frames only;
    and the internal fragmentation grows by [page_size - size mod page_size]
    when [size] is not a multiple of [page_size], by zero otherwise. *)
Theorem paging_allocation (s : MemoryManager.t) (pid size : Z) :
  0 < page_size s →
  processes s !! pid = None →
  let needed := pages_needed size (page_size s) in
  let free := enumerate_free 0 (page_table s) in
  let frames := take (Z.to_nat needed) free in
  let result := allocate_process s pid size PAGING in
  ((needed - 1) * page_size s < size ∧ size ≤ needed * page_size s)
  ∧ StronglySorted lt free
  ∧ (∀ f, f ∈ free ↔ page_table s !! f = Some None)
  ∧ (result.1 = Return false ↔ Z.of_nat (length free) < needed)
  ∧ (Z.of_nat (length free) < needed →
     result
     = (Return false,
        MemoryManager.mk (total_memory_size s) (page_size s) (total_frames s)
          (memory_blocks s) (page_table s)
          (<[pid := Process.mk pid size [] []]> (processes s))
          (events s ++ [page_fault_event pid needed (length free)])
          (page_faults s + 1) (external_fragmentation s)
          (internal_fragmentation s)))
  ∧ (¬ Z.of_nat (length free) < needed →
     result.1 = Return true
     ∧ processes result.2 !! pid = Some (Process.mk pid size (pages_on frames) [])
     ∧ Z.of_nat (length frames) = Z.max 0 needed
     ∧ (∀ f g, f ∈ frames → g ∈ free → g ∉ frames → (f < g)%nat)
     ∧ (∀ f, page_table result.2 !! f
             = if decide (f ∈ frames) then Some (Some pid) else page_table s !! f)
     ∧ page_faults result.2 = page_faults s
     ∧ events result.2 = events s ++ [paging_event pid needed]
     ∧ internal_fragmentation result.2
       = internal_fragmentation s
         + (if decide (size `mod` page_size s = 0) then 0
            else page_size s - size `mod` page_size s)).
Proof.
  intros Hps Hfresh needed free frames result.
  split_and!.
  - by apply pages_needed_ceiling.
  - by apply pages_needed_ceiling.
  - apply enumerate_free_sorted.
  - apply enumerate_free_free.
  - subst result. split.
    + intros Hfail.
      destruct (decide (Z.of_nat (length free) < needed)) as [|Henough]; [done|].
      by rewrite allocate_paging_success in Hfail by done.
    + intros Hfew. by rewrite allocate_paging_failure by done.
  - intros Hfew. by apply allocate_paging_failure.
  - intros Henough. subst result. rewrite allocate_paging_success by done.
    simpl. fold needed free frames. split_and!.
    + done.
    + apply lookup_insert_eq.
    + by apply length_take_frames.
    + intros f g Hf Hg Hnotin.
      assert (g ∈ drop (Z.to_nat needed) free) as Hdrop.
      { rewrite <- (take_drop (Z.to_nat needed) free) in Hg.
        apply elem_of_app in Hg as [Hg|Hg]; done. }
      eapply (StronglySorted_app_1_elem_of lt); [|exact Hf|exact Hdrop].
      unfold frames. rewrite take_drop. apply enumerate_free_sorted.
    + intros f. rewrite assign_frames_set_frames, set_frames_lookup.
      case_decide as Hin; [|done].
      assert (page_table s !! f = Some None) as ->; [|done].
      apply enumerate_free_free. apply elem_of_take in Hin as (i & Hi & _).
      apply list_elem_of_lookup. eauto.
    + done.
    + done.
    + by rewrite internal_waste_multiple.
Qed.

Lemma paging_allocation_witness :
  let s := run (initial_state 256 16) [Allocate 1 32 PAGING] in
  let result := allocate_process s 2 20 PAGING in
  pages_needed 20 16 = 2
  ∧ result.1 = Return true
  ∧ processes result.2 !! 2
    = Some (Process.mk 2 20 [Page.mk 0 (Some 2%nat); Page.mk 1 (Some 3%nat)] [])
  ∧ internal_fragmentation result.2 = internal_fragmentation s + 12.
Proof.
  pose proof (paging_allocation
                (run (initial_state 256 16) [Allocate 1 32 PAGING]) 2 20
                ltac:(reflexivity) ltac:(reflexivity)) as H.
  destruct H as (_ & _ & _ & _ & _ & H).
  destruct H as (H1 & H2 & _ & _ & _ & _ & _ & H3); [by vm_compute|].
  split; [reflexivity|]. split; [exact H1|]. split; [exact H2|exact H3].
Defined.

(* ===================================================================== *)
(** * Segmentation requests *)
(* ===================================================================== *)




(* ===================================================================== *)
(** * Construction *)
(* ===================================================================== *)




(* ===================================================================== *)
(** * Deallocation *)
(* ===================================================================== *)

Lemma merge_from_sum cur rest :
  sum_list (MemoryBlock.size <$> merge_from cur rest)
  = MemoryBlock.size cur + sum_list (MemoryBlock.size <$> rest).
Proof.
  revert cur. induction rest as [|next_block rest IH]; intros cur; simpl; [done|].
  destruct (MemoryBlock.is_free cur && MemoryBlock.is_free next_block);
    simpl in *; rewrite IH; simpl; unfold fmap; lia.
Qed.

(** Coalescing keeps the total length of the list. *)
Lemma coalesce_sum blocks :
  sum_list (MemoryBlock.size <$> coalesce blocks)
  = sum_list (MemoryBlock.size <$> blocks).
Proof. destruct blocks; [done|]. apply merge_from_sum. Qed.

Lemma filter_owned_release pid (blocks : list MemoryBlock.t) :
  filter is_owned (release pid <$> blocks)
  = filter (λ b, is_owned b ∧ ¬ owned_by pid b) blocks.
Proof.
  induction blocks as [|b blocks IH]; [done|].
  rewrite fmap_cons, !filter_cons, IH. unfold release.
  destruct (decide (MemoryBlock.process_id b = Some pid)) as [Hb|Hb].
  - rewrite decide_False by (unfold is_owned; simpl; congruence).
    rewrite decide_False; [done|]. intros [_ Hnot]. by apply Hnot.
  - destruct (decide (is_owned b)) as [Howned|Hfree].
    + by rewrite decide_True.
    + rewrite decide_False; [done|]. by intros [? _].
Qed.

(** An allocation with an id that is not live registers a record for the
    request, whether it then succeeds or not. *)
Lemma allocate_registers s pid size method :
  processes s !! pid = None →
  ∃ record,
    processes (allocate_process s pid size method).2 !! pid = Some record
    ∧ Process.process_id record = pid ∧ Process.size record = size.
Proof.
  intros Hfresh. destruct method.
  - destruct (decide (Z.of_nat (length (enumerate_free 0 (page_table s)))
                        < pages_needed size (page_size s))) as [Hfew|Henough].
    + rewrite allocate_paging_failure by done. simpl.
      eexists. by rewrite lookup_insert_eq.
    + rewrite allocate_paging_success by done. simpl.
      eexists. by rewrite lookup_insert_eq.
  - destruct (first_fit_cases size (memory_blocks s))
      as [Hnone|(pre & b & post & Hblocks & Hpre & Hb)].
    + rewrite allocate_segmentation_failure by done. simpl.
      eexists. by rewrite lookup_insert_eq.
    + rewrite (allocate_segmentation_success s pid size pre b post) by done.
      simpl. eexists. by rewrite lookup_insert_eq.
Qed.

(** C6. In every state that a history of calls reaches from a constructed
    engine, [deallocate_process] fails exactly when the id is not live, and
    then only logs an ERROR event. For a live id it succeeds: the record is
    removed, a DEALLOCATION event is logged, every frame marked with the id
    becomes unowned and every other frame keeps its entry, every block owned
    by the id becomes free and the list is coalesced, so that the owned
    blocks of the other processes are what they were, in the same order, no
    two free blocks are neighbours, and the total length is unchanged.
    Afterwards the id is not live, and an allocation with it registers a new
    record. *)
Theorem deallocation (total page_size : Z) (s0 : MemoryManager.t)
    (history : list Call) (pid : Z) :
  __init__ total page_size = Return s0 →
  let s := run s0 history in
  let result := deallocate_process s pid in
  (result.1 = false ↔ processes s !! pid = None)
  ∧ (processes s !! pid = None →
     result = (false, set_events s (events s ++ [unknown_event pid])))
  ∧ (is_Some (processes s !! pid) →
     result.1 = true
     ∧ processes result.2 = delete pid (processes s)
     ∧ events result.2 = events s ++ [deallocation_event pid]
     ∧ page_table result.2 = clear_owner pid <$> page_table s
     ∧ memory_blocks result.2 = coalesce (release pid <$> memory_blocks s)
     ∧ filter is_owned (memory_blocks result.2)
       = filter (λ b, is_owned b ∧ ¬ owned_by pid b) (memory_blocks s)
     ∧ no_adjacent_free (memory_blocks result.2)
     ∧ sum_list (MemoryBlock.size <$> memory_blocks result.2)
       = sum_list (MemoryBlock.size <$> memory_blocks s)
     ∧ processes result.2 !! pid = None
     ∧ ∀ size method, ∃ record,
         processes (allocate_process result.2 pid size method).2 !! pid = Some record
         ∧ Process.process_id record = pid ∧ Process.size record = size).
Proof.
  intros Hinit s result.
  assert (consistent s) as Hs by (by eapply consistent_run).
  subst result. split_and!.
  - destruct (processes s !! pid) as [process|] eqn:Hpid.
    + by rewrite (deallocate_known s pid process) by done.
    + by rewrite deallocate_unknown by done.
  - apply deallocate_unknown.
  - intros [process Hpid]. rewrite (deallocate_known s pid process) by done.
    simpl. split_and!; try done.
    + rewrite coalesce_filter by apply is_owned_not_free.
      apply filter_owned_release.
    + apply coalesce_no_adjacent_free.
    + rewrite coalesce_sum.
      by destruct (release_spans pid (memory_blocks s)) as [_ ->].
    + apply lookup_delete_eq.
    + intros size method. apply allocate_registers. simpl. apply lookup_delete_eq.
Qed.

Lemma deallocation_witness :
  let s := run (initial_state 256 16) [Allocate 1 32 PAGING; Allocate 2 20 PAGING] in
  let result := deallocate_process s 1 in
  result.1 = true
  ∧ page_table result.2 = clear_owner 1 <$> page_table s
  ∧ memory_blocks result.2 = coalesce (release 1 <$> memory_blocks s)
  ∧ processes result.2 !! 1 = None.
Proof.
  pose proof (deallocation 256 16 (initial_state 256 16)
                [Allocate 1 32 PAGING; Allocate 2 20 PAGING] 1
                ltac:(reflexivity)) as (_ & _ & H).
  destruct H as (H1 & _ & _ & H2 & H3 & _ & _ & _ & H4 & _).
  - eexists. reflexivity.
  - split; [exact H1|]. split; [exact H2|]. split; [exact H3|exact H4].
Defined.

(* ===================================================================== *)
(** * The external-fragmentation ratio *)
(* ===================================================================== *)

Lemma tiles_sum a (blocks : list MemoryBlock.t) e :
  tiles a blocks e → sum_list (MemoryBlock.size <$> blocks) = e - a.
Proof.
  revert a. induction blocks as [|b blocks IH]; intros a; simpl.
  - lia.
  - intros (Hstart & Hsize & Hrest). specialize (IH _ Hrest).
    unfold sum_list, fmap in *. lia.
Qed.

Lemma tiles_sizes a (blocks : list MemoryBlock.t) e :
  tiles a blocks e → Forall (λ b, 0 < MemoryBlock.size b) blocks.
Proof.
  revert a. induction blocks as [|b blocks IH]; intros a; simpl; [done|].
  intros (Hstart & Hsize & Hrest). constructor; eauto.
Qed.

(** Every block counts either as used or as free. *)
Lemma used_free_sum (blocks : list MemoryBlock.t) :
  used_memory blocks + total_free blocks = sum_list (MemoryBlock.size <$> blocks).
Proof.
  unfold used_memory, total_free, free_sizes.
  induction blocks as [|b blocks IH]; [done|].
  rewrite !filter_cons, fmap_cons.
  destruct (MemoryBlock.is_free b); simpl; rewrite ?fmap_cons;
    unfold sum_list, fmap in *; simpl; lia.
Qed.

Lemma used_free_nonneg (blocks : list MemoryBlock.t) :
  Forall (λ b, 0 < MemoryBlock.size b) blocks →
  0 ≤ used_memory blocks ∧ 0 ≤ total_free blocks.
Proof.
  unfold used_memory, total_free, free_sizes.
  induction 1 as [|b blocks Hb _ IH]; [done|].
  rewrite !filter_cons.
  destruct (MemoryBlock.is_free b); simpl; rewrite ?fmap_cons;
    unfold sum_list, fmap in *; simpl; lia.
Qed.

(** Along a history of the range model the used memory lies between 0 and
    the total, and the division of the percentage does not raise. *)
Lemma used_memory_bounds (total page_size : Z) (s0 : MemoryManager.t)
    (history : list Call) :
  __init__ total page_size = Return s0 →
  0 < total → 0 < page_size → Forall segment_size_positive history →
  let s := run s0 history in
  total_memory_size s = total
  ∧ used_memory (memory_blocks s) + total_free (memory_blocks s) = total
  ∧ 0 ≤ used_memory (memory_blocks s) ≤ total
  ∧ 0 ≤ total_free (memory_blocks s) ≤ total
  ∧ ∃ quotient,
      int_truediv (used_memory (memory_blocks s)) total = Return quotient
      ∧ within 1 quotient.
Proof.
  intros Hinit Hpos Hps Hhistory s.
  assert (total_memory_size s = total ∧ MemoryManager.page_size s = page_size
          ∧ range_invariant total (memory_blocks s)) as (Htotal & _ & Htiles & _).
  { apply (run_invariant
             (λ s, total_memory_size s = total ∧ MemoryManager.page_size s = page_size
                   ∧ range_invariant total (memory_blocks s))
             segment_size_positive); [|by intros; apply call_range_invariant|done].
    by apply init_range_invariant. }
  pose proof (tiles_sum _ _ _ Htiles) as Hsum.
  pose proof (used_free_sum (memory_blocks s)) as Hsplit.
  destruct (used_free_nonneg _ (tiles_sizes _ _ _ Htiles)) as [Hused Hfree].
  split_and!; [done|lia..|].
  apply int_truediv_within; lia.
Qed.

Lemma external_fragmentation_deallocate s pid :
  external_fragmentation (deallocate_process s pid).2 = external_fragmentation s.
Proof.
  unfold deallocate_process, _deallocate_paging, _deallocate_segmentation.
  by repeat case_match.
Qed.

(** One call: the ratio is recomputed from the block list when the call is
    a segmentation request that finds no block and the division does not
    raise, and is left alone by every other call. *)
Lemma external_fragmentation_call s c :
  external_fragmentation (call s c)
  = default (external_fragmentation s) (recomputed s c).
Proof.
  unfold recomputed.
  destruct c as [pid size method|pid| |];
    [|simpl; apply external_fragmentation_deallocate|done..].
  cbn [call].
  destruct (processes s !! pid) as [process|] eqn:Hpid.
  - rewrite allocate_duplicate by eauto.
    case_decide as Hc; [|done]. destruct method; [done|].
    destruct Hc as [? _]. congruence.
  - destruct method.
    + destruct (decide (Z.of_nat (length (enumerate_free 0 (page_table s)))
                          < pages_needed size (page_size s))) as [Hfew|Henough].
      * by rewrite allocate_paging_failure by done.
      * by rewrite allocate_paging_success by done.
    + destruct (first_fit_cases size (memory_blocks s))
        as [Hnone|(pre & b & post & Hblocks & Hpre & Hb)].
      * rewrite allocate_segmentation_failure by done.
        rewrite decide_True by done. simpl. unfold ratio_after_failure.
        by destruct (fragmentation_ratio _).
      * rewrite (allocate_segmentation_success s pid size pre b post) by done.
        rewrite decide_False; [done|]. intros [_ Hall].
        rewrite Hblocks in Hall. apply Forall_app in Hall as [_ Hall].
        apply Forall_cons in Hall as [Hall _]. done.
Qed.

Lemma external_fragmentation_run s history last :
  external_fragmentation s = default (Int 0) last →
  external_fragmentation (run s history)
  = default (Int 0) (last_recomputation s history last).
Proof.
  revert s last. induction history as [|c history IH]; intros s last Hs; [done|].
  simpl. apply IH. rewrite external_fragmentation_call.
  by destruct (recomputed s c).
Qed.

(** C8. The ratio that the statistics report is the stored one. Along any
    history from a constructed engine it is the int 0 until a segmentation
    request finds no block; from then on it is the value computed from the
    block list at the last such request whose division did not raise: the
    double [1 - largest / total] over the free blocks (the quotient of the
    two ints rounded to a double, then subtracted from 1.0) when their
    total length is positive, the int 0 otherwise. One call at a time: a
    segmentation request that finds no block recomputes it and returns
    [False], or leaves with [OverflowError] and the ratio as it was when the
    quotient is beyond the range of a double, which free blocks of
    non-negative length exclude; every other call (successful allocation,
    deallocation, paging failure, duplicate id, query) leaves it as it is.
    [get_memory_stats] returns whenever the division of its percentage does
    not raise, which is always so along a history of the range model. *)
Theorem external_fragmentation_is_lazy (total page_size : Z) (s0 : MemoryManager.t)
    (history : list Call) :
  __init__ total page_size = Return s0 →
  let s := run s0 history in
  external_fragmentation s = default (Int 0) (last_recomputation s0 history None)
  ∧ (∀ quotient,
       int_truediv (used_memory (memory_blocks s)) (total_memory_size s)
         = Return quotient →
       ∃ stats, get_memory_stats s = Return stats
                ∧ Stats.external_fragmentation stats = external_fragmentation s)
  ∧ (0 < total → 0 < page_size → Forall segment_size_positive history →
     ∃ stats, get_memory_stats s = Return stats
              ∧ Stats.external_fragmentation stats = external_fragmentation s)
  ∧ (∀ stats, get_memory_stats s = Return stats →
              Stats.external_fragmentation stats = external_fragmentation s)
  ∧ (∀ c, (finds_no_block s c →
           match fragmentation_ratio (memory_blocks s) with
           | Return ratio =>
             outcome s c = Return false ∧ external_fragmentation (call s c) = ratio
           | Raise exception =>
             exception = "OverflowError" ∧ outcome s c = Raise exception
             ∧ external_fragmentation (call s c) = external_fragmentation s
           end)
          ∧ (¬ finds_no_block s c →
             external_fragmentation (call s c) = external_fragmentation s))
  ∧ (∀ blocks,
       (total_free blocks > 0 →
        fragmentation_ratio blocks
        = match int_truediv (largest_free blocks) (total_free blocks) with
          | Raise exception => Raise exception
          | Return quotient => Return (Float (float_sub (float_of_int 1) quotient))
          end)
       ∧ (¬ total_free blocks > 0 → fragmentation_ratio blocks = Return (Int 0))
       ∧ total_free blocks
         = sum_list (MemoryBlock.size <$> filter (λ b, MemoryBlock.is_free b) blocks)
       ∧ (∀ b, b ∈ blocks → MemoryBlock.is_free b →
               MemoryBlock.size b ≤ largest_free blocks)
       ∧ ((∃ b, b ∈ blocks ∧ MemoryBlock.is_free b) →
          ∃ b, b ∈ blocks ∧ MemoryBlock.is_free b
               ∧ MemoryBlock.size b = largest_free blocks)
       ∧ ((∀ b, b ∈ blocks → MemoryBlock.is_free b → 0 ≤ MemoryBlock.size b) →
          ∃ ratio, fragmentation_ratio blocks = Return ratio)).
Proof.
  intros Hinit s.
  assert (∀ quotient,
            int_truediv (used_memory (memory_blocks s)) (total_memory_size s)
              = Return quotient →
            ∃ stats, get_memory_stats s = Return stats
                     ∧ Stats.external_fragmentation stats = external_fragmentation s)
    as Hreturns.
  { intros quotient Hquotient. unfold get_memory_stats.
    fold (used_memory (memory_blocks s)). rewrite Hquotient. by eexists. }
  split_and!.
  - apply external_fragmentation_run.
    unfold __init__ in Hinit. case_decide; [done|]. by simplify_eq.
  - done.
  - intros Hpos Hps Hhistory.
    destruct (used_memory_bounds total page_size s0 history Hinit Hpos Hps Hhistory)
      as (Htotal & _ & _ & _ & quotient & Hquotient & _).
    apply (Hreturns quotient). fold s in Htotal. by rewrite Htotal.
  - intros stats. unfold get_memory_stats.
    destruct (int_truediv _ _); [done|]. by intros [= <-].
  - intros c. rewrite external_fragmentation_call. unfold recomputed. split.
    + intros Hc. rewrite decide_True by done.
      destruct c as [pid size []| | |]; simpl in *; try done.
      destruct Hc as [Hfresh Hnone].
      rewrite allocate_segmentation_failure by done. simpl.
      unfold failure_result.
      destruct (fragmentation_ratio (memory_blocks s)) as [e|ratio] eqn:Hratio;
        [|done].
      split; [|done]. by eapply fragmentation_ratio_raises.
    + intros Hc. by rewrite decide_False.
  - intros blocks. unfold fragmentation_ratio.
    destruct (largest_free_spec blocks) as (Hmax & Hattained & _).
    split_and!; try done.
    + intros H. by rewrite decide_True.
    + intros H. by rewrite decide_False.
    + apply fragmentation_ratio_returns.
Qed.

(** On a 16-unit memory, after two segments of 4 and the release of the
    first, a request of 9 finds the free lengths 4 and 8: the ratio becomes
    the double [1 - 8 / 12], which is 0.33333333333333337 (the quotient is
    rounded before the subtraction), and stays so through the calls that
    follow. *)
Lemma external_fragmentation_is_lazy_witness :
  let history :=
    [Allocate 1 4 SEGMENTATION; Allocate 2 4 SEGMENTATION; Deallocate 1;
     Allocate 3 9 SEGMENTATION; Deallocate 2; GetMemoryStats;
     Allocate 5 3 PAGING] in
  external_fragmentation (run (initial_state 16 4) history)
  = Float (S754_finite false 6004799503160662 (-54)).
Proof.
  pose proof (external_fragmentation_is_lazy 16 4 (initial_state 16 4)
                [Allocate 1 4 SEGMENTATION; Allocate 2 4 SEGMENTATION; Deallocate 1;
                 Allocate 3 9 SEGMENTATION; Deallocate 2; GetMemoryStats;
                 Allocate 5 3 PAGING]
                ltac:(reflexivity)) as [H _].
  cbv zeta in *. rewrite H. by vm_compute.
Defined.

(* ===================================================================== *)
(** * The range model along a history *)
(* ===================================================================== *)

(** C2 (as the code has it). On an engine constructed with a positive
    memory size that is a multiple of a positive page size, after every call
    of a history in which each segmentation request asks for at least one
    unit, the block list is a sequence of ranges of positive length, each
    starting where the previous one ends, that covers [[0, total)] with no
    address in two ranges, and no two neighbours are both free. *)
Theorem range_model_along_history (total page_size : Z) (s0 : MemoryManager.t)
    (history : list Call) (n : nat) :
  0 < total → 0 < page_size → total `mod` page_size = 0 →
  __init__ total page_size = Return s0 →
  Forall segment_size_positive history →
  range_invariant total (memory_blocks (run s0 (take n history)))
  ∧ range_model total (memory_blocks (run s0 (take n history))).
Proof.
  intros Htotal Hps _ Hinit Hhistory.
  assert (range_invariant total (memory_blocks (run s0 (take n history)))) as Hinv.
  { apply (run_invariant
             (λ s, total_memory_size s = total ∧ MemoryManager.page_size s = page_size
                   ∧ range_invariant total (memory_blocks s))
             segment_size_positive).
    - by apply init_range_invariant.
    - intros s c Hc Hs. by apply call_range_invariant.
    - by apply Forall_take. }
  split; [done|]. by apply range_invariant_model.
Qed.

Lemma range_model_along_history_witness :
  let history :=
    [Allocate 1 32 PAGING; Allocate 2 20 SEGMENTATION; Allocate 3 20 PAGING;
     Deallocate 1; Allocate 4 300 SEGMENTATION; Deallocate 2] in
  range_invariant 256 (memory_blocks (run (initial_state 256 16) (take 6 history)))
  ∧ range_model 256 (memory_blocks (run (initial_state 256 16) (take 6 history))).
Proof.
  apply (range_model_along_history 256 16 (initial_state 256 16)
           [Allocate 1 32 PAGING; Allocate 2 20 SEGMENTATION; Allocate 3 20 PAGING;
            Deallocate 1; Allocate 4 300 SEGMENTATION; Deallocate 2] 6).
  - reflexivity.
  - reflexivity.
  - reflexivity.
  - reflexivity.
  - repeat constructor; simpl; lia.
Defined.

(** C2 (as stated) fails: a segmentation request of size 0 is served from
    the first free block and leaves a range of length 0 in the list. *)
Lemma range_model_counterexample :
  ∃ s, __init__ 16 4 = Return s
       ∧ 16 `mod` 4 = 0
       ∧ memory_blocks (run s [Allocate 1 0 SEGMENTATION])
         = [MemoryBlock.mk 0 0 (Some 1); MemoryBlock.mk 0 16 None]
       ∧ ¬ range_invariant 16 (memory_blocks (run s [Allocate 1 0 SEGMENTATION]))
       ∧ ¬ range_model 16 (memory_blocks (run s [Allocate 1 0 SEGMENTATION])).
Proof.
  exists (initial_state 16 4). split_and!; [reflexivity..| |].
  - intros [(_ & Hpos & _) _]. simpl in Hpos. lia.
  - intros (Hpos & _). specialize (Hpos 0%nat (MemoryBlock.mk 0 0 (Some 1)) eq_refl).
    simpl in Hpos. lia.
Qed.

(* ===================================================================== *)
(** * Frames and ranges under paging *)
(* ===================================================================== *)

Section frames_and_ranges.
Implicit Types (b : MemoryBlock.t) (blocks pre post : list MemoryBlock.t).
Implicit Types (pt : list (option Z)) (frames : list nat).

(** A block that agrees with the table and contains the first address of a
    frame contains the whole frame, and the table gives the frame the
    owner of the block. *)
Lemma block_agrees_frame page_size pt b (frame : nat) :
  0 < page_size → block_agrees page_size pt b →
  contains b (Z.of_nat frame * page_size) →
  pt !! frame = Some (MemoryBlock.process_id b)
  ∧ MemoryBlock.end_ b >= Z.of_nat frame * page_size + page_size - 1.
Proof.
  intros Hps (k & m & Hstart & Hsize & Hframes) [Hlo Hhi].
  unfold MemoryBlock.end_ in *. rewrite Hstart, Hsize in *.
  assert (k ≤ Z.of_nat frame < k + m) as Hin by nia.
  split; [by apply Hframes | nia].
Qed.

Lemma tiles_around a pre b post e :
  tiles a (pre ++ b :: post) e →
  Forall (λ b', MemoryBlock.start b' + MemoryBlock.size b' ≤ MemoryBlock.start b) pre
  ∧ Forall (λ b', MemoryBlock.start b + MemoryBlock.size b ≤ MemoryBlock.start b') post.
Proof.
  intros Htiles.
  assert ((pre ++ b :: post) !! length pre = Some b) as Hb
    by (by rewrite list_lookup_middle).
  split; apply Forall_forall; intros b' Hb'; apply list_elem_of_lookup in Hb' as [i Hi].
  - eapply (tiles_lookup_lt _ _ _ i (length pre)); [done| |done|].
    + rewrite lookup_app_l; [done|]. by eapply lookup_lt_Some.
    + by eapply lookup_lt_Some.
  - eapply (tiles_lookup_lt _ _ _ (length pre) (length pre + S i)); [done|done| |lia].
    rewrite lookup_app_r by lia.
    by replace (length pre + S i - length pre)%nat with (S i) by lia.
Qed.

Lemma block_agrees_insert_outside page_size pt b (frame : nat) v :
  0 < page_size → 0 < MemoryBlock.size b → block_agrees page_size pt b →
  (MemoryBlock.start b + MemoryBlock.size b ≤ Z.of_nat frame * page_size
   ∨ Z.of_nat frame * page_size + page_size ≤ MemoryBlock.start b) →
  block_agrees page_size (<[frame := v]> pt) b.
Proof.
  intros Hps Hpos (k & m & Hstart & Hsize & Hframes) Hout.
  exists k, m. split_and!; [done..|].
  intros f Hf. rewrite list_lookup_insert_ne; [by apply Hframes|].
  intros ->. rewrite Hstart, Hsize in Hout. nia.
Qed.

(** Placing a free frame keeps the agreement, with the frame marked. *)
Lemma place_page_agrees page_size pid pt blocks (frame : nat) e :
  0 < page_size →
  tiles 0 blocks e →
  Forall (block_agrees page_size pt) blocks →
  pt !! frame = Some None →
  Z.of_nat frame * page_size < e →
  Forall (block_agrees page_size (<[frame := Some pid]> pt))
         (place_page page_size pid blocks frame).
Proof.
  intros Hps Htiles Hagree Hfree Hin.
  destruct (place_page_cases page_size pid blocks frame)
    as [[_ Hnone]|(pre & b & post & -> & (Hbfree & Hstart & Hend) & _ & ->)].
  - exfalso.
    destruct (tiles_covers 0 blocks e (Z.of_nat frame * page_size) Htiles)
      as (i & b & Hi & Hb); [lia|].
    assert (b ∈ blocks) as Hbin by (apply list_elem_of_lookup; eauto).
    rewrite Forall_forall in Hagree, Hnone.
    destruct (block_agrees_frame page_size pt b frame Hps (Hagree b Hbin) Hb)
      as [Howner Hend].
    apply (Hnone b Hbin). split_and!.
    + unfold MemoryBlock.is_free. rewrite Hfree in Howner.
      injection Howner as <-. done.
    + by destruct Hb.
    + done.
  - destruct (tiles_around _ _ _ _ _ Htiles) as [Hpre Hpost].
    apply Forall_app in Hagree as [Hagree_pre Hagree].
    apply Forall_cons in Hagree as [Hagree_b Hagree_post].
    assert (Forall (λ b', 0 < MemoryBlock.size b') (pre ++ b :: post)) as Hpos.
    { apply Forall_forall. intros b' [i Hi]%list_elem_of_lookup.
      by destruct (tiles_lookup _ _ _ _ _ Htiles Hi). }
    apply Forall_app in Hpos as [Hpos_pre Hpos].
    apply Forall_cons in Hpos as [Hpos_b Hpos_post].
    destruct Hagree_b as (k & m & Hbstart & Hbsize & Hframes).
    unfold MemoryBlock.end_ in Hend. rewrite Hbstart, Hbsize in *.
    assert (MemoryBlock.process_id b = None) as Hbowner.
    { unfold MemoryBlock.is_free in Hbfree.
      by destruct (MemoryBlock.process_id b). }
    apply Forall_app. split; [|apply Forall_app; split].
    + rewrite Forall_forall in Hpre, Hagree_pre, Hpos_pre |- *.
      intros b' Hb'. apply block_agrees_insert_outside; auto.
      left. specialize (Hpre b' Hb'). lia.
    + unfold pieces, pre_piece, post_piece, MemoryBlock.end_.
      rewrite Hbstart, Hbsize.
      assert (Forall (block_agrees page_size (<[frame:=Some pid]> pt))
                [MemoryBlock.mk (Z.of_nat frame * page_size) page_size (Some pid)])
        as Hpage.
      { apply Forall_singleton. exists (Z.of_nat frame), 1. simpl.
        split_and!; [done|lia|].
        intros f Hf. assert (f = frame) as -> by lia.
        apply list_lookup_insert_eq. by eapply lookup_lt_Some. }
      assert (Forall (block_agrees page_size (<[frame:=Some pid]> pt))
                (if decide (k * page_size < Z.of_nat frame * page_size)
                 then [MemoryBlock.mk (k * page_size)
                         (Z.of_nat frame * page_size - k * page_size) None]
                 else [])) as Hbefore.
      { destruct (decide (_ < _)); [|constructor]. apply Forall_singleton.
        exists k, (Z.of_nat frame - k). simpl. split_and!; [done|lia|].
        intros f Hf. rewrite list_lookup_insert_ne by lia.
        rewrite <- Hbowner. apply Hframes. nia. }
      assert (Forall (block_agrees page_size (<[frame:=Some pid]> pt))
                (if decide (k * page_size + m * page_size - 1
                            > Z.of_nat frame * page_size + page_size - 1)
                 then [MemoryBlock.mk (Z.of_nat frame * page_size + page_size)
                         (k * page_size + m * page_size - 1
                          - (Z.of_nat frame * page_size + page_size) + 1) None]
                 else [])) as Hafter.
      { destruct (decide (_ > _)); [|constructor]. apply Forall_singleton.
        exists (Z.of_nat frame + 1), (k + m - Z.of_nat frame - 1). simpl.
        split_and!; [lia|lia|].
        intros f Hf. rewrite list_lookup_insert_ne by lia.
        rewrite <- Hbowner. apply Hframes. nia. }
      apply Forall_app. split; [done|].
      apply Forall_cons. split; [|done].
      exact (proj1 (Forall_singleton _ _) Hpage).
    + rewrite Forall_forall in Hpost, Hagree_post, Hpos_post |- *.
      intros b' Hb'. apply block_agrees_insert_outside; auto.
      right. specialize (Hpost b' Hb'). nia.
Qed.

Lemma place_pages_agrees page_size pid frames pt blocks e :
  0 < page_size →
  tiles 0 blocks e →
  Forall (block_agrees page_size pt) blocks →
  NoDup frames →
  (∀ frame, frame ∈ frames → pt !! frame = Some None
                             ∧ Z.of_nat frame * page_size < e) →
  Forall (block_agrees page_size (set_frames (Some pid) pt frames))
         (place_pages page_size pid blocks frames).
Proof.
  intros Hps. revert pt blocks.
  induction frames as [|frame frames IH]; intros pt blocks Htiles Hagree Hnodup Hfree;
    [done|].
  apply NoDup_cons in Hnodup as [Hnotin Hnodup].
  unfold set_frames, place_pages. simpl.
  apply IH.
  - by apply place_page_tiles.
  - destruct (Hfree frame) as [? ?]; [left|]. by eapply place_page_agrees.
  - done.
  - intros f Hf. destruct (Hfree f) as [? ?]; [by right|]. split; [|done].
    rewrite list_lookup_insert_ne; [done|]. intros ->. done.
Qed.

Lemma release_agrees page_size pid pt blocks :
  Forall (block_agrees page_size pt) blocks →
  Forall (block_agrees page_size (clear_owner pid <$> pt)) (release pid <$> blocks).
Proof.
  intros Hagree. apply Forall_fmap. eapply Forall_impl; [done|].
  intros b (k & m & Hstart & Hsize & Hframes). simpl.
  exists k, m. unfold release, clear_owner.
  case_decide as Hb; simpl.
  - split_and!; [done..|]. intros f Hf.
    rewrite list_lookup_fmap, (Hframes f Hf). simpl. by rewrite decide_True.
  - split_and!; [done..|]. intros f Hf.
    rewrite list_lookup_fmap, (Hframes f Hf). simpl. by rewrite decide_False.
Qed.

Lemma merge_from_agrees page_size pt a cur rest e :
  0 < page_size →
  tiles a (cur :: rest) e →
  Forall (block_agrees page_size pt) (cur :: rest) →
  Forall (block_agrees page_size pt) (merge_from cur rest).
Proof.
  intros Hps. revert a cur.
  induction rest as [|next_block rest IH]; intros a cur Htiles Hagree; [done|].
  destruct Htiles as (Hstart & Hpos & Hnext & Hpos' & Hrest).
  apply Forall_cons in Hagree as [Hcur Hagree].
  apply Forall_cons in Hagree as [Hnext_agrees Hagree].
  simpl. destruct (MemoryBlock.is_free cur && MemoryBlock.is_free next_block) eqn:Hfree.
  - apply andb_prop in Hfree as [Hc Hn].
    apply (IH a).
    + simpl. split_and!; [done|lia|]. by rewrite Z.add_assoc.
    + apply Forall_cons. split; [|done].
      destruct Hcur as (k1 & m1 & Hs1 & Hz1 & Hf1).
      destruct Hnext_agrees as (k2 & m2 & Hs2 & Hz2 & Hf2).
      assert (MemoryBlock.process_id cur = None) as Ho1
        by (unfold MemoryBlock.is_free in Hc; by destruct (MemoryBlock.process_id cur)).
      assert (MemoryBlock.process_id next_block = None) as Ho2
        by (unfold MemoryBlock.is_free in Hn;
            by destruct (MemoryBlock.process_id next_block)).
      exists k1, (m1 + m2). simpl. split_and!; [done|lia|].
      intros f Hf. assert (k2 = k1 + m1) as -> by nia.
      destruct (decide (Z.of_nat f < k1 + m1)).
      * rewrite <- Ho1. apply Hf1. lia.
      * rewrite <- Ho2. apply Hf2. lia.
  - apply Forall_cons. split; [done|].
    apply (IH (a + MemoryBlock.size cur)); [by simpl|].
    by apply Forall_cons.
Qed.

Lemma coalesce_agrees page_size pt a blocks e :
  0 < page_size → tiles a blocks e →
  Forall (block_agrees page_size pt) blocks →
  Forall (block_agrees page_size pt) (coalesce blocks).
Proof. intros Hps. destruct blocks; [done|]. by apply merge_from_agrees. Qed.
End frames_and_ranges.

(* ===================================================================== *)
(** * Histories that use paging only *)
(* ===================================================================== *)

Lemma paging_only_segment_size c : paging_only c → segment_size_positive c.
Proof. by destruct c as [? ? []| | |]. Qed.

Lemma paged_init total page_size s0 :
  0 < total → 0 < page_size → total `mod` page_size = 0 →
  __init__ total page_size = Return s0 →
  paged total page_size s0.
Proof.
  intros Htotal Hps Hmod Hinit.
  pose proof (consistent_init _ _ _ Hinit) as Hcons.
  destruct (init_range_invariant _ _ _ Htotal Hinit) as (Ht & Hp & Hinv).
  unfold __init__ in Hinit. case_decide; [done|]. injection Hinit as <-.
  pose proof (Z.div_mod total page_size ltac:(lia)) as Hdiv.
  pose proof (Z.div_pos total page_size ltac:(lia) Hps) as Hq.
  unfold paged. split_and!; try done; simpl.
  - apply Forall_singleton. exists 0, (total `div` page_size). simpl.
    split_and!; [lia|lia|].
    intros frame Hframe. apply lookup_replicate. split; [done|lia].
  - rewrite length_replicate. lia.
Qed.

Lemma paged_call total page_size s c :
  0 < page_size → paging_only c →
  paged total page_size s → paged total page_size (call s c).
Proof.
  intros Hps Hc (Htotal & Hpage & Hcons & Hinv & Hagree & Hlen).
  destruct (call_range_invariant total page_size s c Hps
              (paging_only_segment_size c Hc))
    as (Htotal' & Hpage' & Hinv'); [done|].
  pose proof (consistent_call s c Hcons) as Hcons'.
  unfold paged. split_and!; [done..| |].
  - destruct c as [pid size [|]|pid| |]; simpl in *; [|done| |done..].
    + destruct (processes s !! pid) as [process|] eqn:Hpid.
      { by rewrite allocate_duplicate by eauto. }
      destruct (decide (Z.of_nat (length (enumerate_free 0 (page_table s)))
                          < pages_needed size (MemoryManager.page_size s)))
        as [Hfew|Henough].
      { by rewrite allocate_paging_failure by done. }
      rewrite allocate_paging_success by done. simpl. rewrite Hpage.
      destruct Hinv as [Htiles _].
      eapply place_pages_agrees; [done|done|done| |].
      * eapply sublist_NoDup; [apply (enumerate_free_NoDup 0)|apply sublist_take].
      * intros frame (i & Hi & _)%elem_of_take.
        assert (page_table s !! frame = Some None) as Hfree
          by (apply enumerate_free_free, list_elem_of_lookup; eauto).
        split; [done|]. apply lookup_lt_Some in Hfree. nia.
    + destruct (processes s !! pid) as [process|] eqn:Hpid.
      * rewrite (deallocate_known s pid process) by done. simpl.
        destruct Hinv as [Htiles _].
        apply (coalesce_agrees page_size _ 0 _ total); [done| |].
        -- destruct (release_spans pid (memory_blocks s)).
           by eapply tiles_same_spans.
        -- by apply release_agrees.
      * by rewrite deallocate_unknown by done.
  - destruct c as [pid size [|]|pid| |]; simpl in *; [|done| |done..].
    + destruct (processes s !! pid) as [process|] eqn:Hpid.
      { by rewrite allocate_duplicate by eauto. }
      destruct (decide (Z.of_nat (length (enumerate_free 0 (page_table s)))
                          < pages_needed size (MemoryManager.page_size s)))
        as [Hfew|Henough].
      { by rewrite allocate_paging_failure by done. }
      rewrite allocate_paging_success by done. simpl.
      by rewrite assign_frames_set_frames, length_set_frames.
    + destruct (processes s !! pid) as [process|] eqn:Hpid.
      * rewrite (deallocate_known s pid process) by done. simpl.
        by rewrite length_fmap.
      * by rewrite deallocate_unknown by done.
Qed.

(** Under the invariant every frame lies in one block, whose owner is the
    frame's owner. *)
Lemma paged_frame_block total page_size s (frame : nat) owner :
  0 < page_size → paged total page_size s →
  page_table s !! frame = Some owner →
  ∃ b, b ∈ memory_blocks s ∧ MemoryBlock.process_id b = owner
       ∧ MemoryBlock.start b ≤ Z.of_nat frame * page_size
       ∧ Z.of_nat frame * page_size + page_size - 1 ≤ MemoryBlock.end_ b.
Proof.
  intros Hps (Htotal & Hpage & Hcons & [Htiles _] & Hagree & Hlen) Hframe.
  pose proof (lookup_lt_Some _ _ _ Hframe) as Hlt.
  destruct (tiles_covers 0 (memory_blocks s) total (Z.of_nat frame * page_size) Htiles)
    as (i & b & Hi & Hb); [nia|].
  assert (b ∈ memory_blocks s) as Hbin by (apply list_elem_of_lookup; eauto).
  rewrite Forall_forall in Hagree.
  destruct (block_agrees_frame page_size _ b frame Hps (Hagree b Hbin) Hb)
    as [Howner Hend].
  exists b. split_and!; [done|congruence|by destruct Hb|lia].
Qed.

Lemma paged_frames_agree total page_size s :
  0 < page_size → paged total page_size s → frames_agree s.
Proof.
  intros Hps Hpaged frame Hframe owner.
  pose proof Hpaged as (Htotal & Hpage & Hcons & [Htiles _] & Hagree & Hlen).
  rewrite Hpage. split.
  - intros Howner x Hx.
    destruct (paged_frame_block total page_size s frame owner Hps Hpaged Howner)
      as (b & Hbin & Hb & Hlo & Hhi).
    exists b. split_and!; [done| |done]. unfold contains. lia.
  - intros Hspan.
    destruct (Hspan (Z.of_nat frame * page_size)) as (b & Hbin & Hb & Howner); [lia|].
    rewrite Forall_forall in Hagree.
    destruct (block_agrees_frame page_size _ b frame Hps (Hagree b Hbin) Hb)
      as [Hpt _].
    congruence.
Qed.

(** C3 (as the code has it). On an engine constructed with a positive
    memory size that is a multiple of a positive page size, after every call
    of a history that uses the paging strategy only, the frame table has
    one entry per frame of the memory, and each frame's owner is [owner]
    exactly when every address of the frame's span lies in a range whose
    owner is [owner] (a process, or nobody); the span then lies in a single
    range. *)
Theorem frames_agree_under_paging (total page_size : Z) (s0 : MemoryManager.t)
    (history : list Call) (n : nat) :
  0 < total → 0 < page_size → total `mod` page_size = 0 →
  __init__ total page_size = Return s0 →
  Forall paging_only history →
  let s := run s0 (take n history) in
  Z.of_nat (length (page_table s)) * page_size = total
  ∧ frames_agree s
  ∧ (∀ (frame : nat) owner,
       page_table s !! frame = Some owner →
       ∃ b, b ∈ memory_blocks s ∧ MemoryBlock.process_id b = owner
            ∧ MemoryBlock.start b ≤ Z.of_nat frame * page_size
            ∧ Z.of_nat frame * page_size + page_size - 1 ≤ MemoryBlock.end_ b).
Proof.
  intros Htotal Hps Hmod Hinit Hhistory s.
  assert (paged total page_size s) as Hpaged.
  { apply (run_invariant (paged total page_size) paging_only).
    - by apply paged_init.
    - intros s' c Hc Hs'. by apply paged_call.
    - by apply Forall_take. }
  split_and!.
  - by destruct Hpaged as (_ & _ & _ & _ & _ & ?).
  - by eapply paged_frames_agree.
  - intros frame owner. by eapply paged_frame_block.
Qed.

Lemma frames_agree_under_paging_witness :
  let history :=
    [Allocate 1 32 PAGING; Allocate 2 20 PAGING; Deallocate 1;
     Allocate 3 1000 PAGING; Allocate 4 40 PAGING; Deallocate 3] in
  let s := run (initial_state 256 16) (take 6 history) in
  Z.of_nat (length (page_table s)) * 16 = 256
  ∧ frames_agree s
  ∧ (∀ (frame : nat) owner,
       page_table s !! frame = Some owner →
       ∃ b, b ∈ memory_blocks s ∧ MemoryBlock.process_id b = owner
            ∧ MemoryBlock.start b ≤ Z.of_nat frame * 16
            ∧ Z.of_nat frame * 16 + 16 - 1 ≤ MemoryBlock.end_ b).
Proof.
  apply (frames_agree_under_paging 256 16 (initial_state 256 16)
           [Allocate 1 32 PAGING; Allocate 2 20 PAGING; Deallocate 1;
            Allocate 3 1000 PAGING; Allocate 4 40 PAGING; Deallocate 3] 6).
  - reflexivity.
  - reflexivity.
  - reflexivity.
  - reflexivity.
  - repeat constructor.
Defined.

(** C3 (as stated) fails: segmentation never writes the frame table. After
    a segment of 4 units on a 16-unit memory with pages of 4, the span of
    frame 0 is the range owned by process 1, and frame 0 is unowned. *)
Lemma frames_agree_counterexample :
  ∃ s, __init__ 16 4 = Return s
       ∧ memory_blocks (run s [Allocate 1 4 SEGMENTATION])
         = [MemoryBlock.mk 0 4 (Some 1); MemoryBlock.mk 4 12 None]
       ∧ page_table (run s [Allocate 1 4 SEGMENTATION]) = [None; None; None; None]
       ∧ ¬ frames_agree (run s [Allocate 1 4 SEGMENTATION]).
Proof.
  exists (initial_state 16 4). split_and!; [reflexivity..|].
  set (s1 := run (initial_state 16 4) [Allocate 1 4 SEGMENTATION]).
  assert (memory_blocks s1 = [MemoryBlock.mk 0 4 (Some 1); MemoryBlock.mk 4 12 None])
    as Hblocks by reflexivity.
  assert (page_table s1 = [None; None; None; None]) as Htable by reflexivity.
  assert (MemoryManager.page_size s1 = 4) as Hpage by reflexivity.
  intros Hagree. unfold frames_agree, frame_agrees in Hagree.
  rewrite Hblocks, Htable, Hpage in Hagree.
  destruct (Hagree 0%nat ltac:(simpl; lia) (Some 1)) as [_ Hback].
  assert ([None; None; None; None] !! 0%nat = Some (Some 1)) as Habs; [|done].
  apply Hback. intros x Hx. exists (MemoryBlock.mk 0 4 (Some 1)).
  split_and!; [left | | done].
  unfold contains, MemoryBlock.end_. simpl. lia.
Qed.

(* ===================================================================== *)
(** * Further properties: the merge of free neighbours *)
(* ===================================================================== *)

Lemma merge_from_length cur (rest : list MemoryBlock.t) :
  (length (merge_from cur rest) ≤ S (length rest))%nat.
Proof.
  revert cur. induction rest as [|next_block rest IH]; intros cur; simpl; [lia|].
  destruct (MemoryBlock.is_free cur && MemoryBlock.is_free next_block); simpl.
  - specialize (IH (MemoryBlock.mk (MemoryBlock.start cur)
                      (MemoryBlock.size cur + MemoryBlock.size next_block) None)).
    lia.
  - specialize (IH next_block). lia.
Qed.

Lemma merge_from_head_start cur (rest : list MemoryBlock.t) :
  head (MemoryBlock.start <$> merge_from cur rest) = Some (MemoryBlock.start cur).
Proof.
  revert cur. induction rest as [|next_block rest IH]; intros cur; simpl; [done|].
  destruct (MemoryBlock.is_free cur && MemoryBlock.is_free next_block); simpl.
  - by rewrite IH.
  - done.
Qed.

Lemma merge_loop_enough_fuel fuel (blocks : list MemoryBlock.t) :
  (length blocks ≤ fuel)%nat →
  merge_loop fuel 0 blocks = _merge_adjacent_free_blocks blocks.
Proof.
  intros Hfuel. rewrite merge_adjacent_free_blocks_coalesce.
  destruct blocks as [|cur rest].
  - destruct fuel; done.
  - apply (merge_loop_spec fuel [] cur rest). simpl in Hfuel. lia.
Qed.

(** X1. [_merge_adjacent_free_blocks], on any list: the loop ends within
    [len(blocks)] iterations (more fuel changes nothing); the result has no
    two free neighbours; the owned blocks are kept as they are and in order;
    the total length, the number of the first address and the upper bound on
    the number of blocks are kept; a list without free neighbours is returned
    as it is, so merging twice is merging once. *)
Theorem merge_adjacent_free_blocks_spec (blocks : list MemoryBlock.t) (fuel : nat) :
  (length blocks ≤ fuel)%nat →
  merge_loop fuel 0 blocks = _merge_adjacent_free_blocks blocks
  ∧ no_adjacent_free (_merge_adjacent_free_blocks blocks)
  ∧ filter is_owned (_merge_adjacent_free_blocks blocks) = filter is_owned blocks
  ∧ sum_list (MemoryBlock.size <$> _merge_adjacent_free_blocks blocks)
    = sum_list (MemoryBlock.size <$> blocks)
  ∧ head (MemoryBlock.start <$> _merge_adjacent_free_blocks blocks)
    = head (MemoryBlock.start <$> blocks)
  ∧ (length (_merge_adjacent_free_blocks blocks) ≤ length blocks)%nat
  ∧ (no_adjacent_free blocks → _merge_adjacent_free_blocks blocks = blocks)
  ∧ _merge_adjacent_free_blocks (_merge_adjacent_free_blocks blocks)
    = _merge_adjacent_free_blocks blocks.
Proof.
  intros Hfuel. split; [by apply merge_loop_enough_fuel|].
  rewrite !merge_adjacent_free_blocks_coalesce. split_and!.
  - apply coalesce_no_adjacent_free.
  - apply coalesce_filter, is_owned_not_free.
  - apply coalesce_sum.
  - destruct blocks as [|cur rest]; [done|]. apply merge_from_head_start.
  - destruct blocks as [|cur rest]; [done|]. apply merge_from_length.
  - apply coalesce_fixed.
  - apply coalesce_fixed, coalesce_no_adjacent_free.
Qed.

Lemma merge_adjacent_free_blocks_spec_witness :
  let blocks :=
    [MemoryBlock.mk 0 4 None; MemoryBlock.mk 4 4 None; MemoryBlock.mk 8 4 (Some 2);
     MemoryBlock.mk 12 2 None; MemoryBlock.mk 14 2 None] in
  _merge_adjacent_free_blocks blocks
  = [MemoryBlock.mk 0 8 None; MemoryBlock.mk 8 4 (Some 2); MemoryBlock.mk 12 4 None]
  ∧ merge_loop 9 0 blocks = _merge_adjacent_free_blocks blocks.
Proof.
  split; [reflexivity|].
  apply (merge_adjacent_free_blocks_spec
           [MemoryBlock.mk 0 4 None; MemoryBlock.mk 4 4 None;
            MemoryBlock.mk 8 4 (Some 2); MemoryBlock.mk 12 2 None;
            MemoryBlock.mk 14 2 None] 9).
  simpl. lia.
Defined.

(* ===================================================================== *)
(** * Further properties: allocating and deallocating *)
(* ===================================================================== *)

Section round_trip.
Implicit Types (b cur x : MemoryBlock.t) (blocks before after X : list MemoryBlock.t).

Lemma free_block_eta b :
  MemoryBlock.is_free b →
  b = MemoryBlock.mk (MemoryBlock.start b) (MemoryBlock.size b) None.
Proof.
  destruct b as [start size [owner|]]; unfold MemoryBlock.is_free; simpl; [tauto|done].
Qed.

(** A free block followed by a run of free blocks is merged into one block
    that starts where the first one starts and is as long as all of them. *)
Lemma merge_from_free_run cur X after :
  MemoryBlock.is_free cur → Forall (λ b, MemoryBlock.is_free b) X →
  merge_from cur (X ++ after)
  = merge_from (MemoryBlock.mk (MemoryBlock.start cur)
                  (MemoryBlock.size cur + sum_list (MemoryBlock.size <$> X)) None) after.
Proof.
  intros Hcur HX. revert cur Hcur.
  induction HX as [|x X Hx _ IH]; intros cur Hcur.
  - simpl. rewrite Z.add_0_r. by rewrite <- free_block_eta.
  - simpl. apply Is_true_true in Hcur as Hc. apply Is_true_true in Hx as Hxt.
    rewrite Hc, Hxt. simpl. rewrite IH by done. simpl.
    unfold fmap. by rewrite Z.add_assoc.
Qed.

Lemma merge_from_run_as_block cur x X b after :
  Forall (λ b, MemoryBlock.is_free b) (x :: X) → MemoryBlock.is_free b →
  MemoryBlock.start x = MemoryBlock.start b →
  sum_list (MemoryBlock.size <$> x :: X) = MemoryBlock.size b →
  merge_from cur ((x :: X) ++ after) = merge_from cur (b :: after).
Proof.
  intros [Hx HX]%Forall_cons Hb Hstart Hsum. simpl in *.
  apply Is_true_true in Hx as Hxt. apply Is_true_true in Hb as Hbt.
  rewrite Hxt, Hbt.
  destruct (MemoryBlock.is_free cur) eqn:Hcur; simpl.
  - rewrite (merge_from_free_run _ X after) by done. simpl.
    unfold fmap in *. do 2 f_equal. lia.
  - f_equal. rewrite (merge_from_free_run _ X after) by done.
    rewrite (free_block_eta b Hb). unfold fmap in *.
    by rewrite Hstart, Hsum.
Qed.

Lemma merge_from_replace_run cur before x X b after :
  Forall (λ b, MemoryBlock.is_free b) (x :: X) → MemoryBlock.is_free b →
  MemoryBlock.start x = MemoryBlock.start b →
  sum_list (MemoryBlock.size <$> x :: X) = MemoryBlock.size b →
  merge_from cur (before ++ (x :: X) ++ after) = merge_from cur (before ++ b :: after).
Proof.
  intros HX Hb Hstart Hsum. revert cur.
  induction before as [|next_block before IH]; intros cur.
  - by apply merge_from_run_as_block.
  - simpl. destruct (MemoryBlock.is_free cur && MemoryBlock.is_free next_block).
    + apply IH.
    + f_equal. apply IH.
Qed.

(** In a list, a run of free blocks coalesces like the one free block that
    spans the run. *)
Lemma coalesce_replace_run before x X b after :
  Forall (λ b, MemoryBlock.is_free b) (x :: X) → MemoryBlock.is_free b →
  MemoryBlock.start x = MemoryBlock.start b →
  sum_list (MemoryBlock.size <$> x :: X) = MemoryBlock.size b →
  coalesce (before ++ (x :: X) ++ after) = coalesce (before ++ b :: after).
Proof.
  intros HX Hb Hstart Hsum. destruct before as [|cur before].
  - simpl. apply Forall_cons in HX as [Hx HX].
    rewrite (merge_from_free_run x X after) by done.
    rewrite (free_block_eta b Hb). simpl in Hsum. unfold fmap in *.
    by rewrite Hstart, Hsum.
  - simpl. by apply merge_from_replace_run.
Qed.

Lemma release_free pid b : MemoryBlock.is_free b → release pid b = b.
Proof.
  intros Hb. unfold release. rewrite decide_False; [done|].
  intros ?%(owned_by_not_free pid). done.
Qed.

Lemma released_pieces pid b frame_start page_size :
  frame_fits frame_start page_size b →
  ∃ x X, release pid <$> pieces b frame_start page_size pid = x :: X
         ∧ Forall (λ b, MemoryBlock.is_free b) (x :: X)
         ∧ MemoryBlock.start x = MemoryBlock.start b
         ∧ sum_list (MemoryBlock.size <$> x :: X) = MemoryBlock.size b.
Proof.
  intros (Hfree & Hstart & Hend). unfold MemoryBlock.end_ in Hend.
  unfold pieces, pre_piece, post_piece, MemoryBlock.end_.
  destruct (decide (MemoryBlock.start b < frame_start));
    destruct (decide (MemoryBlock.start b + MemoryBlock.size b - 1
                      > frame_start + page_size - 1));
    simpl; unfold release; simpl;
    rewrite ?decide_True by done; rewrite ?decide_False by done;
    eexists _, _; (split; [reflexivity|]);
    (split; [repeat constructor|]); simpl; split; lia.
Qed.

Lemma released_segment pid size b :
  first_fit size b →
  ∃ x X, release pid <$> (segment_of pid size b :: remainder_of size b) = x :: X
         ∧ Forall (λ b, MemoryBlock.is_free b) (x :: X)
         ∧ MemoryBlock.start x = MemoryBlock.start b
         ∧ sum_list (MemoryBlock.size <$> x :: X) = MemoryBlock.size b.
Proof.
  intros [Hfree Hsize]. unfold segment_of, remainder_of.
  destruct (decide (MemoryBlock.size b > size));
    simpl; unfold release; simpl;
    rewrite ?decide_True by done; rewrite ?decide_False by done;
    eexists _, _; (split; [reflexivity|]);
    (split; [repeat constructor|]); simpl; split; lia.
Qed.

(** Once the pages of [pid] are released, a placed page leaves no trace. *)
Lemma place_page_released page_size pid blocks frame :
  coalesce (release pid <$> place_page page_size pid blocks frame)
  = coalesce (release pid <$> blocks).
Proof.
  destruct (place_page_cases page_size pid blocks frame)
    as [[-> _]|(pre & b & post & -> & Hfits & _ & ->)]; [done|].
  rewrite !fmap_app, fmap_cons.
  destruct (released_pieces pid b _ _ Hfits) as (x & X & -> & HX & Hstart & Hsum).
  rewrite (release_free pid b) by apply Hfits.
  apply coalesce_replace_run; [done|apply Hfits|done..].
Qed.

Lemma place_pages_released page_size pid blocks frames :
  coalesce (release pid <$> place_pages page_size pid blocks frames)
  = coalesce (release pid <$> blocks).
Proof.
  unfold place_pages.
  apply (foldl_invariant
           (λ l, coalesce (release pid <$> l) = coalesce (release pid <$> blocks)));
    [done|].
  intros l frame _ <-. apply place_page_released.
Qed.

Lemma clear_assigned_frames pid (pt : list (option Z)) frames :
  (∀ f, f ∈ frames → pt !! f = Some None) →
  (∀ f, pt !! f ≠ Some (Some pid)) →
  clear_owner pid <$> assign_frames pid pt frames = pt.
Proof.
  intros Hfree Hfresh. apply list_eq. intros f.
  rewrite list_lookup_fmap, assign_frames_set_frames, set_frames_lookup.
  destruct (decide (f ∈ frames)) as [Hin|Hnotin].
  - rewrite (Hfree f Hin). simpl. unfold clear_owner. by rewrite decide_True.
  - destruct (pt !! f) as [o|] eqn:Hf; [|done]. simpl. unfold clear_owner.
    rewrite decide_False; [done|]. intros ->. by apply (Hfresh f).
Qed.
End round_trip.

Lemma restored_blocks s pid :
  consistent s → processes s !! pid = None →
  coalesce (release pid <$> memory_blocks s) = memory_blocks s.
Proof.
  intros Hs Hfresh.
  rewrite release_not_owned.
  - apply coalesce_fixed, (consistent_no_adjacent_free s Hs).
  - apply (proj1 (filter_nil_Forall _ _)). by apply consistent_fresh_blocks.
Qed.

Lemma restored_frames s pid :
  consistent s → processes s !! pid = None →
  clear_owner pid <$> page_table s = page_table s.
Proof.
  intros Hs Hfresh.
  apply (clear_assigned_frames pid (page_table s) []).
  - intros f Hf. by apply elem_of_nil in Hf.
  - intros f. by apply consistent_fresh_frames.
Qed.

(** X2. In every state that a history of calls reaches from a constructed
    engine, an allocation with an id that is not live, followed by the
    deallocation of that id, gives back the block list, the frame table and
    the process map exactly as they were, whichever strategy is used and
    whether the allocation succeeds or not; the deallocation always
    succeeds, and the two calls append two events. *)
Theorem allocate_then_deallocate (total page_size : Z) (s0 : MemoryManager.t)
    (history : list Call) (pid size : Z) (method : AllocationMethod) :
  __init__ total page_size = Return s0 →
  let s := run s0 history in
  processes s !! pid = None →
  let allocated := (allocate_process s pid size method).2 in
  let result := deallocate_process allocated pid in
  result.1 = true
  ∧ memory_blocks result.2 = memory_blocks s
  ∧ page_table result.2 = page_table s
  ∧ processes result.2 = processes s
  ∧ ∃ e, events result.2 = events s ++ [e; deallocation_event pid]
         ∧ MemoryEvent.process_id e = pid.
Proof.
  intros Hinit s Hfresh allocated result.
  assert (consistent s) as Hs by (by eapply consistent_run).
  assert (consistent allocated) as Ha by (by apply consistent_allocate).
  destruct (allocate_registers s pid size method Hfresh) as (record & Hrecord & _).
  subst result. rewrite (deallocate_known allocated pid record) by done.
  simpl. split; [done|]. subst allocated. clear Hrecord Ha. destruct method.
  - destruct (decide (Z.of_nat (length (enumerate_free 0 (page_table s)))
                        < pages_needed size (MemoryManager.page_size s)))
      as [Hfew|Henough].
    + rewrite allocate_paging_failure by done. simpl. split_and!.
      * by apply restored_blocks.
      * by apply restored_frames.
      * by apply delete_insert_id.
      * eexists. split; [by rewrite <- app_assoc|done].
    + rewrite allocate_paging_success by done. simpl. split_and!.
      * rewrite place_pages_released. by apply restored_blocks.
      * apply clear_assigned_frames.
        -- intros f (i & Hi & _)%elem_of_take.
           apply enumerate_free_free, list_elem_of_lookup. eauto.
        -- intros f. by apply consistent_fresh_frames.
      * by apply delete_insert_id.
      * eexists. split; [by rewrite <- app_assoc|done].
  - destruct (first_fit_cases size (memory_blocks s))
      as [Hnone|(pre & b & post & Hblocks & Hpre & Hb)].
    + rewrite allocate_segmentation_failure by done. simpl. split_and!.
      * by apply restored_blocks.
      * by apply restored_frames.
      * by apply delete_insert_id.
      * eexists. split; [by rewrite <- app_assoc|done].
    + rewrite (allocate_segmentation_success s pid size pre b post) by done.
      simpl. split_and!.
      * etrans; [|by apply restored_blocks]. rewrite Hblocks.
        change (pre ++ segment_of pid size b :: remainder_of size b ++ post)
          with (pre ++ (segment_of pid size b :: remainder_of size b) ++ post).
        destruct (released_segment pid size b Hb) as (x & X & Hrel & HX & Hstart & Hsum).
        rewrite !fmap_app, Hrel, fmap_cons.
        rewrite (release_free pid b) by apply Hb.
        apply coalesce_replace_run; [done|apply Hb|done..].
      * by apply restored_frames.
      * by apply delete_insert_id.
      * eexists. split; [by rewrite <- app_assoc|done].
Qed.

Lemma allocate_then_deallocate_witness :
  let s :=
    run (initial_state 256 16)
        [Allocate 1 32 PAGING; Allocate 2 20 SEGMENTATION; Deallocate 1] in
  let result := deallocate_process (allocate_process s 3 50 PAGING).2 3 in
  result.1 = true
  ∧ memory_blocks result.2 = memory_blocks s
  ∧ page_table result.2 = page_table s
  ∧ processes result.2 = processes s
  ∧ ∃ e, events result.2 = events s ++ [e; deallocation_event 3]
         ∧ MemoryEvent.process_id e = 3.
Proof.
  apply (allocate_then_deallocate 256 16 (initial_state 256 16)
           [Allocate 1 32 PAGING; Allocate 2 20 SEGMENTATION; Deallocate 1]
           3 50 PAGING).
  - reflexivity.
  - reflexivity.
Defined.

(* ===================================================================== *)
(** * Further properties: the event log and the counters *)
(* ===================================================================== *)

Lemma events_deallocate s pid :
  events (deallocate_process s pid).2
  = events s ++ [if decide (is_Some (processes s !! pid))
                 then deallocation_event pid else unknown_event pid].
Proof.
  unfold deallocate_process, _deallocate_paging, _deallocate_segmentation.
  destruct (processes s !! pid) as [process|]; simpl.
  - by repeat case_match.
  - done.
Qed.

(** What one call appends to the log. *)
Lemma events_call s c :
  match call_subject c with
  | Some pid =>
    ∃ e, events (call s c) = events s ++ [e]
         ∧ MemoryEvent.process_id e = pid
         ∧ MemoryEvent.event_type e ∈ event_kinds
         ∧ (is_page_fault e → page_faults (call s c) = page_faults s + 1)
         ∧ (¬ is_page_fault e → page_faults (call s c) = page_faults s)
  | None => call s c = s
  end.
Proof.
  destruct c as [pid size method|pid| |]; simpl; [| |done..].
  - destruct (processes s !! pid) as [process|] eqn:Hpid.
    + rewrite allocate_duplicate by eauto. eexists. simpl.
      split_and!; [done|done|set_solver|done|done].
    + destruct method.
      * destruct (decide (Z.of_nat (length (enumerate_free 0 (page_table s)))
                            < pages_needed size (MemoryManager.page_size s)))
          as [Hfew|Henough].
        -- rewrite allocate_paging_failure by done. eexists. simpl.
           split_and!; [done|done|set_solver|done|].
           intros Hnot. by destruct Hnot.
        -- rewrite allocate_paging_success by done. eexists. simpl.
           split_and!; [done|done|set_solver|done|done].
      * destruct (first_fit_cases size (memory_blocks s))
          as [Hnone|(pre & b & post & Hblocks & Hpre & Hb)].
        -- rewrite allocate_segmentation_failure by done. eexists. simpl.
           split_and!; [done|done|set_solver|done|done].
        -- rewrite (allocate_segmentation_success s pid size pre b post) by done.
           eexists. simpl. split_and!; [done|done|set_solver|done|done].
  - rewrite events_deallocate. eexists. split; [done|].
    assert (page_faults (deallocate_process s pid).2 = page_faults s) as ->.
    { unfold deallocate_process, _deallocate_paging, _deallocate_segmentation.
      by repeat case_match. }
    case_decide; simpl; split_and!; [done|set_solver|done|done|done|set_solver|done|done].
Qed.

Lemma events_run s history :
  ∃ added,
    events (run s history) = events s ++ added
    ∧ MemoryEvent.process_id <$> added = omap call_subject history
    ∧ Forall (λ e, MemoryEvent.event_type e ∈ event_kinds) added
    ∧ page_faults (run s history)
      = page_faults s + Z.of_nat (length (filter is_page_fault added)).
Proof.
  revert s. induction history as [|c history IH]; intros s.
  - exists []. simpl. rewrite app_nil_r. split_and!; [done|done|constructor|lia].
  - simpl. destruct (IH (call s c)) as (added & Hadded & Hids & Hkinds & Hfaults).
    pose proof (events_call s c) as Hc.
    destruct (call_subject c) as [pid|] eqn:Hsubject.
    + destruct Hc as (e & He & Hpid & Hkind & Hpf & Hnpf).
      exists (e :: added). split_and!.
      * rewrite Hadded, He. by rewrite <- app_assoc.
      * rewrite fmap_cons. by rewrite Hids, Hpid.
      * by constructor.
      * rewrite Hfaults, filter_cons. case_decide.
        -- rewrite Hpf by done. simpl. lia.
        -- rewrite Hnpf by done. lia.
    + rewrite Hc in *. exists added. done.
Qed.

(** X3. The event log is append-only and records every allocate and
    deallocate call, successful or not: along any history from a constructed
    engine the log holds one event per such call, in call order, each naming
    the id of its call and being of one of the four kinds; queries log
    nothing; and the log after a longer history extends the log after a
    shorter one. *)
Theorem event_log_records_calls (total page_size : Z) (s0 : MemoryManager.t)
    (history more : list Call) :
  __init__ total page_size = Return s0 →
  MemoryEvent.process_id <$> events (run s0 history) = omap call_subject history
  ∧ Forall (λ e, MemoryEvent.event_type e ∈ event_kinds) (events (run s0 history))
  ∧ events (run s0 history) `prefix_of` events (run s0 (history ++ more)).
Proof.
  intros Hinit.
  assert (events s0 = []) as Hempty.
  { unfold __init__ in Hinit. case_decide; [done|]. by simplify_eq. }
  destruct (events_run s0 history) as (added & Hadded & Hids & Hkinds & _).
  rewrite Hempty in Hadded. simpl in Hadded. rewrite Hadded. split_and!; [done..|].
  unfold run. rewrite foldl_app. fold (run s0 history).
  fold (run (run s0 history) more).
  destruct (events_run (run s0 history) more) as (added' & -> & _).
  rewrite Hadded. by exists added'.
Qed.

Lemma event_log_records_calls_witness :
  let history :=
    [Allocate 1 32 PAGING; GetMemoryStats; Deallocate 9; Allocate 1 8 SEGMENTATION] in
  MemoryEvent.process_id <$> events (run (initial_state 256 16) history) = [1; 9; 1]
  ∧ Forall (λ e, MemoryEvent.event_type e ∈ event_kinds)
           (events (run (initial_state 256 16) history))
  ∧ events (run (initial_state 256 16) history)
      `prefix_of` events (run (initial_state 256 16) (history ++ [Deallocate 1])).
Proof.
  apply (event_log_records_calls 256 16 (initial_state 256 16)
           [Allocate 1 32 PAGING; GetMemoryStats; Deallocate 9;
            Allocate 1 8 SEGMENTATION] [Deallocate 1]).
  reflexivity.
Defined.

(** X4. The page-fault counter counts the PAGE_FAULT events of the log:
    along any history from a constructed engine the two numbers are equal,
    and the counter never decreases. *)
Theorem page_faults_count_events (total page_size : Z) (s0 : MemoryManager.t)
    (history more : list Call) :
  __init__ total page_size = Return s0 →
  page_faults (run s0 history)
    = Z.of_nat (length (filter is_page_fault (events (run s0 history))))
  ∧ page_faults (run s0 history) ≤ page_faults (run s0 (history ++ more)).
Proof.
  intros Hinit.
  assert (events s0 = [] ∧ page_faults s0 = 0) as [Hempty Hzero].
  { unfold __init__ in Hinit. case_decide; [done|]. by simplify_eq. }
  destruct (events_run s0 history) as (added & Hadded & _ & _ & Hfaults).
  rewrite Hempty in Hadded. simpl in Hadded. split.
  - rewrite Hfaults, Hadded, Hzero. lia.
  - unfold run. rewrite foldl_app. fold (run s0 history).
    fold (run (run s0 history) more).
    destruct (events_run (run s0 history) more) as (added' & _ & _ & _ & ->). lia.
Qed.

Lemma page_faults_count_events_witness :
  let history := [Allocate 1 300 PAGING; Allocate 2 16 PAGING; Allocate 3 999 PAGING] in
  page_faults (run (initial_state 256 16) history) = 2
  ∧ page_faults (run (initial_state 256 16) history)
    = Z.of_nat (length (filter is_page_fault
                          (events (run (initial_state 256 16) history)))).
Proof.
  split; [reflexivity|].
  apply (page_faults_count_events 256 16 (initial_state 256 16)
           [Allocate 1 300 PAGING; Allocate 2 16 PAGING; Allocate 3 999 PAGING] []).
  reflexivity.
Defined.

Lemma internal_waste_bounds size page_size :
  page_size ≠ 0 →
  0 ≤ internal_waste size page_size
  ∧ internal_waste size page_size < Z.max 1 page_size.
Proof.
  intros Hps. unfold internal_waste.
  destruct (decide (0 < page_size)).
  - pose proof (Z.mod_pos_bound size page_size ltac:(lia)). case_decide; lia.
  - pose proof (Z.mod_neg_bound size page_size ltac:(lia)). case_decide; lia.
Qed.

Lemma internal_fragmentation_call s c :
  MemoryManager.page_size s ≠ 0 →
  internal_fragmentation s ≤ internal_fragmentation (call s c)
  ∧ internal_fragmentation (call s c)
    < internal_fragmentation s + Z.max 1 (MemoryManager.page_size s)
  ∧ (∀ pid, c = Deallocate pid →
            internal_fragmentation (call s c) = internal_fragmentation s)
  ∧ (∀ pid size, c = Allocate pid size SEGMENTATION →
                 internal_fragmentation (call s c) = internal_fragmentation s).
Proof.
  intros Hps.
  assert (internal_fragmentation (call s c) = internal_fragmentation s
          ∨ ∃ size, internal_fragmentation (call s c)
                    = internal_fragmentation s
                      + internal_waste size (MemoryManager.page_size s)) as Hcases.
  { destruct c as [pid size method|pid| |]; simpl; [| |by left..].
    - destruct (processes s !! pid) as [process|] eqn:Hpid.
      { rewrite allocate_duplicate by eauto. by left. }
      destruct method.
      + destruct (decide (Z.of_nat (length (enumerate_free 0 (page_table s)))
                            < pages_needed size (MemoryManager.page_size s)))
          as [Hfew|Henough].
        * rewrite allocate_paging_failure by done. by left.
        * rewrite allocate_paging_success by done. right. by exists size.
      + destruct (first_fit_cases size (memory_blocks s))
          as [Hnone|(pre & b & post & Hblocks & Hpre & Hb)].
        * rewrite allocate_segmentation_failure by done. by left.
        * rewrite (allocate_segmentation_success s pid size pre b post) by done.
          by left.
    - left. unfold deallocate_process, _deallocate_paging, _deallocate_segmentation.
      by repeat case_match. }
  split_and!.
  - destruct Hcases as [->|[size ->]]; [lia|].
    pose proof (internal_waste_bounds size _ Hps). lia.
  - destruct Hcases as [->|[size ->]]; [lia|].
    pose proof (internal_waste_bounds size _ Hps). lia.
  - intros pid ->. simpl.
    unfold deallocate_process, _deallocate_paging, _deallocate_segmentation.
    by repeat case_match.
  - intros pid size ->. simpl.
    destruct (processes s !! pid) as [process|] eqn:Hpid.
    { by rewrite allocate_duplicate by eauto. }
    destruct (first_fit_cases size (memory_blocks s))
      as [Hnone|(pre & b & post & Hblocks & Hpre & Hb)].
    + by rewrite allocate_segmentation_failure by done.
    + by rewrite (allocate_segmentation_success s pid size pre b post) by done.
Qed.

(** X5. The internal-fragmentation counter is cumulative: along any history
    from a constructed engine it starts at 0 and never decreases; one call
    adds less than a page; a deallocation, and any segmentation request,
    leaves it as it is, so the waste of a paged process stays counted after
    the process is gone. *)
Theorem internal_fragmentation_is_cumulative (total page_size : Z)
    (s0 : MemoryManager.t) (history : list Call) (c : Call) :
  __init__ total page_size = Return s0 →
  let s := run s0 history in
  0 ≤ internal_fragmentation s
  ∧ internal_fragmentation s ≤ internal_fragmentation (call s c)
  ∧ internal_fragmentation (call s c) < internal_fragmentation s + Z.max 1 page_size
  ∧ (∀ pid, c = Deallocate pid →
            internal_fragmentation (call s c) = internal_fragmentation s)
  ∧ (∀ pid size, c = Allocate pid size SEGMENTATION →
                 internal_fragmentation (call s c) = internal_fragmentation s).
Proof.
  intros Hinit s.
  assert (MemoryManager.page_size s0 = page_size ∧ page_size ≠ 0
          ∧ internal_fragmentation s0 = 0) as (Hpage & Hps & Hzero).
  { unfold __init__ in Hinit. case_decide; [done|]. by simplify_eq. }
  assert (∀ history, MemoryManager.page_size (run s0 history) = page_size) as Hrun.
  { intros h. by destruct (run_configuration s0 h) as (_ & -> & _). }
  split.
  - unfold s, run.
    apply (foldl_invariant
             (λ s, MemoryManager.page_size s = page_size
                   ∧ 0 ≤ internal_fragmentation s)); [split; [done|lia]|].
    intros s' c' _ [Hp Hnonneg].
    destruct (call_configuration s' c') as (_ & Hp' & _).
    split; [congruence|].
    destruct (internal_fragmentation_call s' c') as [? _]; [congruence|]. lia.
  - pose proof (Hrun history) as Hp. fold s in Hp.
    destruct (internal_fragmentation_call s c) as (H1 & H2 & H3 & H4);
      [by rewrite Hp|].
    rewrite Hp in H2. done.
Qed.

Lemma internal_fragmentation_is_cumulative_witness :
  let s := run (initial_state 256 16) [Allocate 1 20 PAGING] in
  internal_fragmentation s = 12
  ∧ internal_fragmentation (call s (Deallocate 1)) = internal_fragmentation s.
Proof.
  split; [reflexivity|].
  pose proof (internal_fragmentation_is_cumulative 256 16 (initial_state 256 16)
                [Allocate 1 20 PAGING] (Deallocate 1) ltac:(reflexivity))
    as (_ & _ & _ & H & _).
  exact (H 1 eq_refl).
Defined.

(* ===================================================================== *)
(** * Further properties: the queries *)
(* ===================================================================== *)

(** X6. [get_recent_events] returns the end of the log, oldest first: with
    a positive limit, the last [limit] events, or the whole log when it is
    shorter; with [limit = 0] the whole log, since the slice [[-0:]] starts
    at the beginning. Right after an allocate or deallocate call, the most
    recent event is the one that the call logged for its id. *)
Theorem get_recent_events_spec (s : MemoryManager.t) (limit : nat) (c : Call) (pid : Z) :
  call_subject c = Some pid →
  get_recent_events s limit `suffix_of` events s
  ∧ length (get_recent_events s limit)
    = (if decide (limit = 0%nat) then length (events s)
       else Nat.min limit (length (events s)))
  ∧ ∃ e, get_recent_events (call s c) 1 = [e] ∧ MemoryEvent.process_id e = pid.
Proof.
  intros Hsubject. unfold get_recent_events. split_and!.
  - destruct limit; [done|]. apply suffix_drop.
  - destruct limit; [done|]. rewrite length_drop.
    rewrite decide_False by done. lia.
  - pose proof (events_call s c) as Hc. rewrite Hsubject in Hc.
    destruct Hc as (e & -> & Hpid & _). exists e. split; [|done].
    rewrite length_app. simpl.
    replace (length (events s) + 1 - 1)%nat with (length (events s)) by lia.
    by rewrite drop_app_length.
Qed.

Lemma get_recent_events_spec_witness :
  let s := run (initial_state 256 16)
               [Allocate 1 32 PAGING; Allocate 2 20 PAGING; Deallocate 1] in
  length (get_recent_events s 2) = 2%nat
  ∧ length (get_recent_events s 10) = 3%nat
  ∧ length (get_recent_events s 0) = 3%nat.
Proof.
  pose proof (λ limit,
              get_recent_events_spec
                (run (initial_state 256 16)
                     [Allocate 1 32 PAGING; Allocate 2 20 PAGING; Deallocate 1])
                limit (Deallocate 1) 1 eq_refl) as H.
  split; [exact (proj1 (proj2 (H 2%nat)))|].
  split; [exact (proj1 (proj2 (H 10%nat)))|exact (proj1 (proj2 (H 0%nat)))].
Defined.

(* ===================================================================== *)
(** * Further properties: counting frames *)
(* ===================================================================== *)

Section counting.
Implicit Types (pt : list (option Z)) (frames : list nat).

Lemma length_page_table_call s c :
  length (page_table (call s c)) = length (page_table s).
Proof.
  destruct c as [pid size method|pid| |]; simpl; [| |done..].
  - destruct (processes s !! pid) as [process|] eqn:Hpid.
    { by rewrite allocate_duplicate by eauto. }
    destruct method.
    + destruct (decide (Z.of_nat (length (enumerate_free 0 (page_table s)))
                          < pages_needed size (MemoryManager.page_size s)))
        as [Hfew|Henough].
      * by rewrite allocate_paging_failure by done.
      * rewrite allocate_paging_success by done. simpl.
        by rewrite assign_frames_set_frames, length_set_frames.
    + destruct (first_fit_cases size (memory_blocks s))
        as [Hnone|(pre & b & post & Hblocks & Hpre & Hb)].
      * by rewrite allocate_segmentation_failure by done.
      * by rewrite (allocate_segmentation_success s pid size pre b post) by done.
  - unfold deallocate_process, _deallocate_paging, _deallocate_segmentation.
    repeat case_match; simpl; try done.
    by rewrite release_frames_set_frames, length_set_frames.
Qed.

Lemma frames_of_insert owner pt f old v :
  pt !! f = Some old →
  (frames_of owner (<[f := v]> pt) + (if decide (old = owner) then 1 else 0)
   = frames_of owner pt + (if decide (v = owner) then 1 else 0))%nat.
Proof.
  unfold frames_of. revert f. induction pt as [|o pt IH]; intros f Hf; [done|].
  destruct f as [|f]; simpl in *.
  - simplify_eq. rewrite !filter_cons. repeat case_decide; simpl; lia.
  - specialize (IH f Hf). rewrite !filter_cons.
    repeat case_decide; simpl in *; lia.
Qed.

Lemma frames_of_set_frames owner pt frames old v :
  NoDup frames → (∀ f, f ∈ frames → pt !! f = Some old) →
  (frames_of owner (set_frames v pt frames)
     + (if decide (old = owner) then length frames else 0)
   = frames_of owner pt + (if decide (v = owner) then length frames else 0))%nat.
Proof.
  unfold set_frames. intros Hnodup. revert pt.
  induction Hnodup as [|f frames Hnotin _ IH]; intros pt Hold; simpl.
  - repeat case_decide; lia.
  - pose proof (frames_of_insert owner pt f old v (Hold f ltac:(left))) as Hstep.
    assert (∀ f', f' ∈ frames → <[f := v]> pt !! f' = Some old) as Hold'.
    { intros f' Hf'. rewrite list_lookup_insert_ne by (intros ->; done).
      apply Hold. by right. }
    pose proof (IH (<[f := v]> pt) Hold') as Hrest.
    repeat case_decide; simpl in *; lia.
Qed.

Lemma frames_of_free pt : frames_of None pt = length (enumerate_free 0 pt).
Proof.
  unfold frames_of. generalize 0%nat.
  induction pt as [|o pt IH]; intros i; [done|].
  rewrite filter_cons. destruct o as [p|].
  - rewrite decide_False by done. simpl. apply IH.
  - rewrite decide_True by done. simpl. f_equal. apply IH.
Qed.

Lemma frames_of_fresh s pid :
  consistent s → processes s !! pid = None → frames_of (Some pid) (page_table s) = 0%nat.
Proof.
  intros Hs Hfresh. unfold frames_of.
  rewrite (proj2 (filter_nil_Forall _ (page_table s))); [done|].
  apply Forall_forall. intros o [f Hf]%list_elem_of_lookup ->.
  by eapply consistent_fresh_frames.
Qed.

Lemma frames_of_clear pid pt owner :
  frames_of owner (clear_owner pid <$> pt)
  = (if decide (owner = Some pid) then 0
     else if decide (owner = None) then frames_of None pt + frames_of (Some pid) pt
     else frames_of owner pt)%nat.
Proof.
  unfold frames_of. induction pt as [|o pt IH].
  - simpl. by repeat case_decide.
  - rewrite fmap_cons, !filter_cons. unfold clear_owner at 1.
    repeat case_decide; simplify_eq; simpl in *; lia.
Qed.
End counting.

(** X7. Frame accounting. The frame table never changes length along a
    history from a constructed engine. When a paging request with a fresh id
    succeeds, the process owns exactly [pages_needed] frames (none for a
    request of size 0 or less), the number of free frames drops by as many,
    and every other process owns as many frames as before; when a process is
    deallocated, its frames, and only those, are added to the free ones. *)
Theorem frame_accounting (total page_size : Z) (s0 : MemoryManager.t)
    (history : list Call) (pid size : Z) :
  __init__ total page_size = Return s0 →
  let s := run s0 history in
  let needed := pages_needed size page_size in
  length (page_table s) = Z.to_nat (total `div` page_size)
  ∧ (processes s !! pid = None →
     (allocate_process s pid size PAGING).1 = Return true →
     let table := page_table (allocate_process s pid size PAGING).2 in
     Z.of_nat (frames_of (Some pid) table) = Z.max 0 needed
     ∧ Z.of_nat (frames_of None table)
       = Z.of_nat (frames_of None (page_table s)) - Z.max 0 needed
     ∧ ∀ q, q ≠ pid → frames_of (Some q) table = frames_of (Some q) (page_table s))
  ∧ (is_Some (processes s !! pid) →
     let table := page_table (deallocate_process s pid).2 in
     frames_of (Some pid) table = 0%nat
     ∧ frames_of None table
       = (frames_of None (page_table s) + frames_of (Some pid) (page_table s))%nat
     ∧ ∀ q, q ≠ pid → frames_of (Some q) table = frames_of (Some q) (page_table s)).
Proof.
  intros Hinit s needed.
  assert (consistent s) as Hs by (by eapply consistent_run).
  assert (length (page_table s0) = Z.to_nat (total `div` page_size)
          ∧ MemoryManager.page_size s0 = page_size) as [Hlen0 Hpage0].
  { unfold __init__ in Hinit. case_decide; [done|]. injection Hinit as <-.
    simpl. split; [apply length_replicate|done]. }
  assert (MemoryManager.page_size s = page_size) as Hpage.
  { destruct (run_configuration s0 history) as (_ & Hrun & _).
    unfold s. by rewrite Hrun. }
  split_and!.
  - unfold s, run.
    apply (foldl_invariant
             (λ s, length (page_table s) = Z.to_nat (total `div` page_size)));
      [done|].
    intros s' c _ <-. apply length_page_table_call.
  - intros Hfresh Hok.
    destruct (decide (Z.of_nat (length (enumerate_free 0 (page_table s)))
                        < pages_needed size (MemoryManager.page_size s)))
      as [Hfew|Henough].
    { by rewrite allocate_paging_failure in Hok by done. }
    rewrite allocate_paging_success by done. simpl.
    rewrite Hpage in *. fold needed in Henough |- *.
    set (frames := take (Z.to_nat needed) (enumerate_free 0 (page_table s))).
    assert (NoDup frames) as Hnodup.
    { eapply sublist_NoDup; [apply (enumerate_free_NoDup 0)|apply sublist_take]. }
    assert (∀ f, f ∈ frames → page_table s !! f = Some None) as Hfree.
    { intros f (i & Hi & _)%elem_of_take.
      apply enumerate_free_free, list_elem_of_lookup. eauto. }
    assert (Z.of_nat (length frames) = Z.max 0 needed) as Hlen
      by (by apply length_take_frames).
    rewrite assign_frames_set_frames. split_and!.
    + pose proof (frames_of_set_frames (Some pid) (page_table s) frames None
                    (Some pid) Hnodup Hfree) as Hcount.
      rewrite decide_False, decide_True in Hcount by done.
      rewrite (frames_of_fresh s pid Hs Hfresh) in Hcount. lia.
    + pose proof (frames_of_set_frames None (page_table s) frames None
                    (Some pid) Hnodup Hfree) as Hcount.
      rewrite decide_True, decide_False in Hcount by done. lia.
    + intros q Hq.
      pose proof (frames_of_set_frames (Some q) (page_table s) frames None
                    (Some pid) Hnodup Hfree) as Hcount.
      rewrite !decide_False in Hcount by congruence. lia.
  - intros [process Hpid]. rewrite (deallocate_known s pid process) by done. simpl.
    split_and!.
    + rewrite frames_of_clear. by rewrite decide_True.
    + rewrite frames_of_clear. rewrite decide_False by done. by rewrite decide_True.
    + intros q Hq. rewrite frames_of_clear. by rewrite !decide_False by congruence.
Qed.

Lemma frame_accounting_witness :
  let s := run (initial_state 256 16) [Allocate 1 32 PAGING] in
  let table := page_table (allocate_process s 2 20 PAGING).2 in
  Z.of_nat (frames_of (Some 2) table) = Z.max 0 (pages_needed 20 16)
  ∧ Z.of_nat (frames_of None table)
    = Z.of_nat (frames_of None (page_table s)) - Z.max 0 (pages_needed 20 16)
  ∧ ∀ q, q ≠ 2 → frames_of (Some q) table = frames_of (Some q) (page_table s).
Proof.
  pose proof (frame_accounting 256 16 (initial_state 256 16)
                [Allocate 1 32 PAGING] 2 20 ltac:(reflexivity)) as (_ & H & _).
  apply H; reflexivity.
Defined.

(* ===================================================================== *)
(** * Further properties: the statistics *)
(* ===================================================================== *)

(** X8. The figures of [get_memory_stats]. On an engine constructed with
    total size 0 the query raises [ZeroDivisionError] after any history. On
    an engine of positive total size and positive page size, after any
    history in which each segmentation request asks for at least one unit,
    the query returns: the used memory, summed over the owned blocks, lies
    between 0 and the total; the free memory, computed as the difference,
    is the sum of the lengths of the free blocks; and the percentage, the
    double that the division and the multiplication by 100 give, is finite
    and lies between 0 and 100. *)
Theorem memory_stats_accounting (total page_size : Z) (s0 : MemoryManager.t)
    (history : list Call) :
  __init__ total page_size = Return s0 →
  let s := run s0 history in
  (total = 0 → get_memory_stats s = Raise "ZeroDivisionError")
  ∧ (0 < total → 0 < page_size → Forall segment_size_positive history →
     ∃ stats,
       get_memory_stats s = Return stats
       ∧ Stats.total_memory stats = total
       ∧ Stats.used_memory stats = used_memory (memory_blocks s)
       ∧ Stats.free_memory stats = total_free (memory_blocks s)
       ∧ Stats.used_memory stats + Stats.free_memory stats = total
       ∧ 0 ≤ Stats.used_memory stats ≤ total
       ∧ 0 ≤ Stats.free_memory stats ≤ total
       ∧ is_finite (Stats.used_percentage stats) = true
       ∧ (0 <= float_value (Stats.used_percentage stats))%Q
       ∧ (float_value (Stats.used_percentage stats) <= 100)%Q).
Proof.
  intros Hinit s.
  assert (total_memory_size s = total) as Htotal.
  { destruct (run_configuration s0 history) as (Hrun & _).
    unfold s. rewrite Hrun.
    unfold __init__ in Hinit. case_decide; [done|]. by injection Hinit as <-. }
  split.
  - intros ->. unfold get_memory_stats, int_truediv. rewrite Htotal.
    by rewrite decide_True.
  - intros Hpos Hps Hhistory.
    destruct (used_memory_bounds total page_size s0 history Hinit Hpos Hps Hhistory)
      as (_ & Hsum & Hused & Hfree & quotient & Hquotient & Hwithin).
    fold s in Hsum, Hused, Hfree, Hquotient.
    unfold get_memory_stats. fold (used_memory (memory_blocks s)).
    rewrite Htotal, Hquotient. eexists. split; [done|]. simpl.
    destruct (within_value 100 _ ltac:(lia) (float_mul_100_within _ Hwithin))
      as (Hfinite & Hlow & Hhigh).
    split_and!; try done; lia.
Qed.

Lemma memory_stats_accounting_witness :
  let s := run (initial_state 256 16)
             [Allocate 1 40 PAGING; Allocate 2 100 SEGMENTATION; Deallocate 1] in
  ∃ stats,
    get_memory_stats s = Return stats
    ∧ Stats.total_memory stats = 256
    ∧ Stats.used_memory stats = used_memory (memory_blocks s)
    ∧ Stats.free_memory stats = total_free (memory_blocks s)
    ∧ Stats.used_memory stats + Stats.free_memory stats = 256
    ∧ 0 ≤ Stats.used_memory stats ≤ 256
    ∧ 0 ≤ Stats.free_memory stats ≤ 256
    ∧ is_finite (Stats.used_percentage stats) = true
    ∧ (0 <= float_value (Stats.used_percentage stats))%Q
    ∧ (float_value (Stats.used_percentage stats) <= 100)%Q.
Proof.
  pose proof (memory_stats_accounting 256 16 (initial_state 256 16)
                [Allocate 1 40 PAGING; Allocate 2 100 SEGMENTATION; Deallocate 1]
                ltac:(reflexivity)) as [_ H].
  apply H; [lia|lia|]. repeat constructor; simpl; lia.
Defined.

(* ===================================================================== *)
(** * Further properties: the records of the processes *)
(* ===================================================================== *)

Lemma record_shape_empty page_size pid size :
  record_shape page_size (Process.mk pid size [] []).
Proof.
  split_and!; [|by left|done]. exists []. split_and!; [done|constructor|by left].
Qed.

(** An allocation with an id that is not live stores a record of that
    shape. *)
Lemma allocate_record_shape s pid size method :
  processes s !! pid = None →
  ∃ record,
    processes (allocate_process s pid size method).2 = <[pid := record]> (processes s)
    ∧ record_shape (page_size s) record.
Proof.
  intros Hfresh. destruct method.
  - destruct (decide (Z.of_nat (length (enumerate_free 0 (page_table s)))
                        < pages_needed size (page_size s))) as [Hfew|Henough].
    + rewrite allocate_paging_failure by done. simpl.
      eexists. split; [done|]. apply record_shape_empty.
    + rewrite allocate_paging_success by done. simpl.
      eexists. split; [done|]. split_and!; simpl; [|by right|done].
      eexists. split_and!; [done| |].
      * eapply sublist_NoDup; [apply (enumerate_free_NoDup 0)|apply sublist_take].
      * destruct (decide (pages_needed size (page_size s) ≤ 0)) as [Hle|Hgt].
        -- left. replace (Z.to_nat (pages_needed size (page_size s))) with 0%nat by lia.
           done.
        -- right. rewrite length_take. lia.
  - destruct (first_fit_cases size (memory_blocks s))
      as [Hnone|(pre & b & post & Hblocks & Hpre & Hb)].
    + rewrite allocate_segmentation_failure by done. simpl.
      eexists. split; [done|]. apply record_shape_empty.
    + rewrite (allocate_segmentation_success s pid size pre b post) by done. simpl.
      eexists. split; [done|]. split_and!; simpl; [|by left|by repeat constructor].
      exists []. split_and!; [done|constructor|by left].
Qed.

Lemma record_shape_call s c :
  (∀ pid process, processes s !! pid = Some process →
                  record_shape (page_size s) process) →
  ∀ pid process, processes (call s c) !! pid = Some process →
                 record_shape (page_size (call s c)) process.
Proof.
  intros Hs pid process.
  destruct (call_configuration s c) as (_ & -> & _).
  destruct c as [q size method|q| |]; simpl; [| |by apply Hs..].
  - destruct (processes s !! q) as [old|] eqn:Hq.
    { rewrite allocate_duplicate by eauto. apply Hs. }
    destruct (allocate_record_shape s q size method Hq) as (record & -> & Hrecord).
    destruct (decide (q = pid)) as [->|Hne].
    + rewrite lookup_insert_eq. by intros [= <-].
    + rewrite lookup_insert_ne by done. apply Hs.
  - rewrite processes_deallocate. intros [_ Hpid]%lookup_delete_Some. by eapply Hs.
Qed.

Lemma record_shape_run total page_size s0 history :
  __init__ total page_size = Return s0 →
  ∀ pid process, processes (run s0 history) !! pid = Some process →
                 record_shape page_size process.
Proof.
  intros Hinit.
  assert (MemoryManager.page_size s0 = page_size ∧ processes s0 = ∅) as [Hpage Hempty].
  { unfold __init__ in Hinit. case_decide; [done|]. by injection Hinit as <-. }
  destruct (run_configuration s0 history) as (_ & Hrun & _).
  rewrite <- Hpage, <- Hrun. unfold run.
  apply (foldl_invariant
           (λ s, ∀ pid process, processes s !! pid = Some process →
                                record_shape (MemoryManager.page_size s) process)).
  - intros pid process. by rewrite Hempty, lookup_empty.
  - intros s c _. apply record_shape_call.
Qed.

(** X9. The records of live processes, as [get_process_info] reports
    them. In every state that a history of calls reaches from a constructed
    engine, the query answers with the empty dict exactly for the ids that
    are not live. For a live id it reports that id; pages or segments, never
    both; the pages are numbered 0, 1, 2, ... in order and stand on pairwise
    different frames, which are exactly the frames that the frame table gives
    to the id, and they are none or as many as the size asks for; there is at
    most one segment, it has the size of the process, and it is a block of
    the block list owned by the id. *)
Theorem get_process_info_spec (total page_size : Z) (s0 : MemoryManager.t)
    (history : list Call) (pid : Z) :
  __init__ total page_size = Return s0 →
  let s := run s0 history in
  (get_process_info s pid = None ↔ processes s !! pid = None)
  ∧ ∀ info, get_process_info s pid = Some info →
      ProcessInfo.process_id info = pid
      ∧ (ProcessInfo.pages info = [] ∨ ProcessInfo.segments info = [])
      ∧ (∃ frames,
           ProcessInfo.pages info = imap (λ i frame, (i, Some frame)) frames
           ∧ NoDup frames
           ∧ (frames = []
              ∨ Z.of_nat (length frames) = pages_needed (ProcessInfo.size info) page_size)
           ∧ ∀ frame, frame ∈ frames ↔ page_table s !! frame = Some (Some pid))
      ∧ (length (ProcessInfo.segments info) ≤ 1)%nat
      ∧ ∀ start size, (start, size) ∈ ProcessInfo.segments info →
          size = ProcessInfo.size info
          ∧ MemoryBlock.mk start size (Some pid) ∈ memory_blocks s.
Proof.
  intros Hinit s.
  assert (consistent s) as Hs by (by eapply consistent_run).
  unfold get_process_info. split.
  { by destruct (processes s !! pid). }
  intros info Hinfo.
  destruct (processes s !! pid) as [process|] eqn:Hpid; [|done].
  injection Hinfo as <-. simpl.
  destruct (record_shape_run total page_size s0 history Hinit pid process Hpid)
    as ((frames & Hpages & Hnodup & Hcount) & Hone & Hsizes).
  pose proof (consistent_keys s Hs pid process Hpid) as Hkey.
  pose proof (consistent_blocks s Hs pid) as Hblocks. rewrite Hpid in Hblocks.
  split_and!.
  - done.
  - destruct Hone as [->| ->]; [by left|by right].
  - exists frames. split_and!; [|done|done|].
    + rewrite Hpages. unfold pages_on. rewrite fmap_imap. done.
    + intros frame. rewrite (consistent_frames s Hs frame pid). split.
      * intros Hframe. exists process. split; [done|].
        by rewrite Hpages, page_frames_pages_on.
      * intros (process' & Hpid' & Hframe). simplify_eq.
        by rewrite Hpages, page_frames_pages_on in Hframe.
  - rewrite length_fmap. destruct Hone as [Hnone| ->]; [|simpl; lia].
    by destruct (Hblocks Hnone).
  - intros start size [segment [[= -> ->] Hsegment]]%list_elem_of_fmap.
    rewrite Forall_forall in Hsizes. split; [by apply Hsizes|].
    destruct Hone as [Hnone|Hnone]; [|by rewrite Hnone in Hsegment; inversion Hsegment].
    destruct (Hblocks Hnone) as [Hfilter _].
    rewrite <- Hfilter in Hsegment.
    apply list_elem_of_filter in Hsegment as [Howner Hin].
    unfold owned_by in Howner. rewrite <- Howner. by destruct segment.
Qed.

Lemma get_process_info_spec_witness :
  let s := run (initial_state 256 16)
             [Allocate 1 40 PAGING; Allocate 2 100 SEGMENTATION] in
  (get_process_info s 2 = None ↔ processes s !! 2 = None)
  ∧ ∀ info, get_process_info s 2 = Some info →
      ProcessInfo.process_id info = 2
      ∧ (ProcessInfo.pages info = [] ∨ ProcessInfo.segments info = [])
      ∧ (∃ frames,
           ProcessInfo.pages info = imap (λ i frame, (i, Some frame)) frames
           ∧ NoDup frames
           ∧ (frames = []
              ∨ Z.of_nat (length frames) = pages_needed (ProcessInfo.size info) 16)
           ∧ ∀ frame, frame ∈ frames ↔ page_table s !! frame = Some (Some 2))
      ∧ (length (ProcessInfo.segments info) ≤ 1)%nat
      ∧ ∀ start size, (start, size) ∈ ProcessInfo.segments info →
          size = ProcessInfo.size info
          ∧ MemoryBlock.mk start size (Some 2) ∈ memory_blocks s.
Proof.
  apply (get_process_info_spec 256 16 (initial_state 256 16)
           [Allocate 1 40 PAGING; Allocate 2 100 SEGMENTATION] 2).
  reflexivity.
Defined.

(* ===================================================================== *)
(** * Further properties: the ids that the GUI hands out *)
(* ===================================================================== *)

Section gui.
Implicit Types (gui : MemoryVisualizerGUI.t) (action : Action).

(** An allocation with an id that is not live never logs the duplicate
    error. *)
Lemma allocate_fresh_event s pid size method :
  processes s !! pid = None →
  ∃ e, events (allocate_process s pid size method).2 = events s ++ [e]
       ∧ MemoryEvent.details e ≠ "Process already exists".
Proof.
  intros Hfresh. destruct method.
  - destruct (decide (Z.of_nat (length (enumerate_free 0 (page_table s)))
                        < pages_needed size (MemoryManager.page_size s)))
      as [Hfew|Henough].
    + rewrite allocate_paging_failure by done. by eexists.
    + rewrite allocate_paging_success by done. by eexists.
  - destruct (first_fit_cases size (memory_blocks s))
      as [Hnone|(pre & b & post & Hblocks & Hpre & Hb)].
    + rewrite allocate_segmentation_failure by done. by eexists.
    + rewrite (allocate_segmentation_success s pid size pre b post) by done.
      by eexists.
Qed.

Lemma allocate_live_ids s pid size method q :
  is_Some (processes (allocate_process s pid size method).2 !! q) →
  q = pid ∨ is_Some (processes s !! q).
Proof.
  destruct (decide (q = pid)) as [->|Hne]; [by left|].
  rewrite processes_allocate_other by done. by right.
Qed.

Lemma deallocate_event_details s pid :
  ∃ e, events (deallocate_process s pid).2 = events s ++ [e]
       ∧ MemoryEvent.details e ≠ "Process already exists".
Proof.
  rewrite events_deallocate. eexists. split; [done|]. by case_decide.
Qed.

(** What the ids of the GUI keep true: the live ids lie below the counter,
    and no allocation was refused as a duplicate. *)
Lemma fresh_ids_handle gui action :
  let ids_fresh gui :=
    let engine := MemoryVisualizerGUI.memory_manager gui in
    let next_pid :=
      ProcessGenerator.next_pid (MemoryVisualizerGUI.process_generator gui) in
    1 ≤ next_pid
    ∧ (∀ pid, is_Some (processes engine !! pid) → 1 ≤ pid < next_pid)
    ∧ Forall (λ e, MemoryEvent.details e ≠ "Process already exists")
             (events engine) in
  ids_fresh gui → ids_fresh (handle gui action).
Proof.
  destruct gui as [memory_size page_size engine [min_size max_size next_pid]].
  intros ids_fresh (Hnext & Hlive & Hlog). simpl in *.
  assert (processes engine !! next_pid = None) as Hnew.
  { apply eq_None_not_Some. intros Hsome%Hlive. lia. }
  assert (∀ size method,
            ids_fresh
              (MemoryVisualizerGUI.mk memory_size page_size
                 (allocate_process engine next_pid size method).2
                 (ProcessGenerator.mk min_size max_size (next_pid + 1))))
    as Hadd.
  { intros size method. unfold ids_fresh. simpl. split_and!; [lia| |].
    - intros pid [->|Hpid%Hlive]%allocate_live_ids; lia.
    - destruct (allocate_fresh_event engine next_pid size method Hnew)
        as (e & -> & He).
      apply Forall_app. split; [done|]. by apply Forall_singleton. }
  assert (∀ pid,
            ids_fresh
              (MemoryVisualizerGUI.mk memory_size page_size
                 (deallocate_process engine pid).2
                 (ProcessGenerator.mk min_size max_size next_pid)))
    as Hremove.
  { intros pid. unfold ids_fresh. simpl. split_and!; [done| |].
    - intros q. rewrite processes_deallocate.
      intros [process [_ Hq]%lookup_delete_Some]. apply Hlive. eauto.
    - destruct (deallocate_event_details engine pid) as (e & -> & He).
      apply Forall_app. split; [done|]. by apply Forall_singleton. }
  assert (∀ m p constructed,
            ids_fresh
              (MemoryVisualizerGUI._apply_settings
                 (MemoryVisualizerGUI.mk memory_size page_size engine
                    (ProcessGenerator.mk min_size max_size next_pid)) m p
                 constructed))
    as Happly.
  { intros [m|] [p|] constructed; unfold MemoryVisualizerGUI._apply_settings;
      try done.
    unfold _apply_settings, __init__.
    repeat case_decide; try done. destruct constructed; [|done].
    unfold ids_fresh. simpl. split_and!; [done| |done].
    intros pid. rewrite lookup_empty. by intros [? ?]. }
  destruct action as [[size|] method|draw method|[pid|]|pid|m p r|m p r]; simpl.
  - apply Hadd.
  - done.
  - unfold MemoryVisualizerGUI._add_random_process,
      ProcessGenerator.generate_process. simpl.
    case_decide; simpl; [|apply Hadd].
    unfold ids_fresh. simpl. split_and!; [lia| |done].
    intros pid Hpid%Hlive. lia.
  - apply Hremove.
  - done.
  - apply Hremove.
  - apply Happly.
  - apply Happly.
Qed.

Lemma next_pid_handle gui action :
  ProcessGenerator.next_pid (MemoryVisualizerGUI.process_generator (handle gui action))
  = ProcessGenerator.next_pid (MemoryVisualizerGUI.process_generator gui)
    + (if decide (issues_id action) then 1 else 0).
Proof.
  destruct action
    as [[size|] method|draw method|[pid|]|pid|[m|] [p|] []|[m|] [p|] []];
    simpl; try lia.
  - unfold MemoryVisualizerGUI._add_random_process,
      ProcessGenerator.generate_process. simpl.
    by case_decide.
  - unfold _apply_settings, __init__.
    repeat case_decide; simpl; lia.
  - unfold _apply_settings, __init__.
    repeat case_decide; simpl; lia.
  - unfold MemoryVisualizerGUI._reset_simulation, MemoryVisualizerGUI._apply_settings.
    unfold _apply_settings, __init__.
    repeat case_decide; simpl; lia.
  - unfold MemoryVisualizerGUI._reset_simulation, MemoryVisualizerGUI._apply_settings.
    unfold _apply_settings, __init__.
    repeat case_decide; simpl; lia.
Qed.

Lemma next_pid_foldl gui actions :
  ProcessGenerator.next_pid (MemoryVisualizerGUI.process_generator (foldl handle gui actions))
  = ProcessGenerator.next_pid (MemoryVisualizerGUI.process_generator gui)
    + Z.of_nat (length (filter issues_id actions)).
Proof.
  revert gui. induction actions as [|action actions IH]; intros gui; simpl; [lia|].
  rewrite IH, next_pid_handle, filter_cons. case_decide; simpl; lia.
Qed.
End gui.

(** X10. The ids that the GUI hands out. After any sequence of actions of
    the GUI (add a process of a typed size, add a random process, remove a
    process, apply the settings, reset), each handler running to its end
    before the next starts: the generator's counter is 1 plus the number of
    add actions that got as far as taking an id; every live id of the engine
    lies between 1 and the counter, excluded; and the engine's log holds no
    "Process already exists" error, so no allocation that the GUI requests
    is refused as a duplicate, also after the engine has been replaced by
    new settings, since the counter is never set back. *)
Theorem gui_never_reuses_an_id (actions : list Action) :
  let gui := session actions in
  let engine := MemoryVisualizerGUI.memory_manager gui in
  let next_pid :=
    ProcessGenerator.next_pid (MemoryVisualizerGUI.process_generator gui) in
  next_pid = 1 + Z.of_nat (length (filter issues_id actions))
  ∧ (∀ pid, is_Some (processes engine !! pid) → 1 ≤ pid < next_pid)
  ∧ Forall (λ e, MemoryEvent.details e ≠ "Process already exists") (events engine).
Proof.
  intros gui engine next_pid. split.
  { unfold next_pid, gui, session. by rewrite next_pid_foldl. }
  unfold next_pid, engine, gui, session.
  apply proj2 with
    (A := 1 ≤ ProcessGenerator.next_pid
                (MemoryVisualizerGUI.process_generator
                   (foldl handle MemoryVisualizerGUI.__init__ actions))).
  apply (foldl_invariant
           (λ gui,
              1 ≤ ProcessGenerator.next_pid (MemoryVisualizerGUI.process_generator gui)
              ∧ (∀ pid,
                   is_Some (processes (MemoryVisualizerGUI.memory_manager gui) !! pid) →
                   1 ≤ pid
                   < ProcessGenerator.next_pid
                       (MemoryVisualizerGUI.process_generator gui))
              ∧ Forall (λ e, MemoryEvent.details e ≠ "Process already exists")
                       (events (MemoryVisualizerGUI.memory_manager gui)))).
  - simpl. split_and!; [done| |done]. intros pid. rewrite lookup_empty. by intros [? ?].
  - intros gui' action _. apply fresh_ids_handle.
Qed.

(* ===================================================================== *)
(** * Further properties: the engine behind the GUI *)
(* ===================================================================== *)

Lemma well_configured_init memory_size page_size s :
  _apply_settings memory_size page_size = Return s →
  well_configured memory_size page_size s.
Proof.
  unfold _apply_settings. case_decide as Hcheck; [done|]. intros Hinit.
  assert (0 < memory_size ∧ 0 < page_size ∧ memory_size `mod` page_size = 0)
    as (Hm & Hp & Hmod) by lia.
  destruct (paged_init memory_size page_size s Hm Hp Hmod Hinit)
    as (? & ? & ? & ? & _ & ?).
  by unfold well_configured.
Qed.

Lemma well_configured_call memory_size page_size s c :
  segment_size_positive c →
  well_configured memory_size page_size s →
  well_configured memory_size page_size (call s c).
Proof.
  intros Hc (Hm & Hp & Hmod & Htotal & Hpage & Hlen & Hcons & Hinv).
  destruct (call_range_invariant memory_size page_size s c Hp Hc) as (? & ? & ?);
    [done|].
  unfold well_configured. split_and!; try done.
  - by rewrite length_page_table_call.
  - by apply consistent_call.
Qed.

(** What the handlers keep true of the GUI: the generator draws from
    [4, 64], the settings are a valid configuration, and the engine is in a
    state of the range model of its own configuration. *)
Lemma well_configured_handle gui action :
  let configured gui :=
    let engine := MemoryVisualizerGUI.memory_manager gui in
    ProcessGenerator.min_size (MemoryVisualizerGUI.process_generator gui) = 4
    ∧ ProcessGenerator.max_size (MemoryVisualizerGUI.process_generator gui) = 64
    ∧ (0 < MemoryVisualizerGUI.memory_size gui
       ∧ 0 < MemoryVisualizerGUI.page_size gui
       ∧ MemoryVisualizerGUI.memory_size gui `mod` MemoryVisualizerGUI.page_size gui = 0)
    ∧ well_configured (total_memory_size engine) (MemoryManager.page_size engine)
        engine in
  plausible action → configured gui → configured (handle gui action).
Proof.
  destruct gui as [memory_size page_size engine [min_size max_size next_pid]].
  intros configured Haction (Hmin & Hmax & (Hm0 & Hp0 & Hmod0) & Hengine).
  simpl in *.
  assert (∀ c, segment_size_positive c →
               well_configured (total_memory_size (call engine c))
                 (MemoryManager.page_size (call engine c)) (call engine c))
    as Hcall.
  { intros c Hc. destruct (call_configuration engine c) as (-> & -> & _).
    by apply well_configured_call. }
  assert (∀ m p constructed,
            configured
              (MemoryVisualizerGUI._apply_settings
                 (MemoryVisualizerGUI.mk memory_size page_size engine
                    (ProcessGenerator.mk min_size max_size next_pid)) m p
                 constructed))
    as Happly.
  { intros [m|] [p|] constructed; unfold MemoryVisualizerGUI._apply_settings;
      try done.
    destruct (_apply_settings m p) as [|s] eqn:Hinit; [done|].
    pose proof (well_configured_init m p s Hinit) as Hs.
    pose proof Hs as (Hm & Hp & Hmod & Htotal & Hpage & _).
    destruct constructed; unfold configured; simpl; [|done].
    split_and!; [done..|]. by rewrite Htotal, Hpage. }
  destruct action as [[size|] method|draw method|[pid|]|pid|m p r|m p r]; simpl;
    [|done| | |done| |apply Happly..].
  - unfold configured. simpl. split_and!; [done..|].
    apply (Hcall (Allocate _ size method)). by destruct method.
  - unfold MemoryVisualizerGUI._add_random_process,
      ProcessGenerator.generate_process. simpl.
    rewrite decide_False by lia. unfold configured. simpl. split_and!; [done..|].
    apply (Hcall (Allocate _ draw method)).
    simpl in Haction. destruct method; simpl; [done|lia].
  - unfold configured. simpl. split_and!; [done..|].
    by apply (Hcall (Deallocate pid)).
  - unfold configured. simpl. split_and!; [done..|].
    by apply (Hcall (Deallocate pid)).
Qed.

(** While every constructor returns, the engine in use is the one of the
    settings. *)
Lemma settings_handle gui action :
  let current gui :=
    total_memory_size (MemoryVisualizerGUI.memory_manager gui)
      = MemoryVisualizerGUI.memory_size gui
    ∧ MemoryManager.page_size (MemoryVisualizerGUI.memory_manager gui)
      = MemoryVisualizerGUI.page_size gui in
  constructor_returns action → current gui → current (handle gui action).
Proof.
  destruct gui as [memory_size page_size engine generator].
  intros current Haction [Htotal Hpage]. simpl in *.
  assert (∀ c, total_memory_size (call engine c) = memory_size
               ∧ MemoryManager.page_size (call engine c) = page_size) as Hcall.
  { intros c. by destruct (call_configuration engine c) as (-> & -> & _). }
  assert (∀ m p,
            current
              (MemoryVisualizerGUI._apply_settings
                 (MemoryVisualizerGUI.mk memory_size page_size engine generator)
                 m p true))
    as Happly.
  { intros [m|] [p|]; unfold MemoryVisualizerGUI._apply_settings; try done.
    destruct (_apply_settings m p) as [|s] eqn:Hinit; [done|].
    by destruct (well_configured_init m p s Hinit) as (_ & _ & _ & ? & ? & _). }
  destruct action as [[size|] method|draw method|[pid|]|pid|m p []|m p []];
    simpl; try done; try apply Happly.
  all: try (unfold MemoryVisualizerGUI._add_random_process,
              ProcessGenerator.generate_process;
            simpl; case_decide; simpl; [done|]).
  all: first [apply (Hcall (Allocate _ _ _))|apply (Hcall (Deallocate _))].
Qed.

(** X11. The engine behind the GUI. After any sequence of actions of the
    GUI in which each random size lies in the generator's range [4, 64] and
    each size typed for a segmentation request is at least one unit, the
    settings of the GUI are a valid configuration (both values positive,
    the memory size a multiple of the page size): the check of
    [_apply_settings] lets no other one through. The engine in use has a
    valid configuration too, as many frames as its configuration says, a
    process map consistent with its frame table and block list, and a block
    list that satisfies the range model. As long as every constructor that
    the handlers call returns, the engine in use is the one of the
    settings; a constructor that raises leaves the new settings with the
    old engine. *)
Theorem gui_engine_is_well_configured (actions : list Action) :
  Forall plausible actions →
  let gui := session actions in
  let engine := MemoryVisualizerGUI.memory_manager gui in
  let memory_size := MemoryVisualizerGUI.memory_size gui in
  let page_size := MemoryVisualizerGUI.page_size gui in
  (0 < memory_size ∧ 0 < page_size ∧ memory_size `mod` page_size = 0)
  ∧ (0 < total_memory_size engine ∧ 0 < MemoryManager.page_size engine
     ∧ total_memory_size engine `mod` MemoryManager.page_size engine = 0)
  ∧ Z.of_nat (length (page_table engine))
    = total_memory_size engine `div` MemoryManager.page_size engine
  ∧ consistent engine
  ∧ range_model (total_memory_size engine) (memory_blocks engine)
  ∧ (Forall constructor_returns actions →
     total_memory_size engine = memory_size
     ∧ MemoryManager.page_size engine = page_size).
Proof.
  intros Hactions gui engine memory_size page_size.
  assert (ProcessGenerator.min_size (MemoryVisualizerGUI.process_generator gui) = 4
          ∧ ProcessGenerator.max_size (MemoryVisualizerGUI.process_generator gui) = 64
          ∧ (0 < memory_size ∧ 0 < page_size ∧ memory_size `mod` page_size = 0)
          ∧ well_configured (total_memory_size engine)
              (MemoryManager.page_size engine) engine)
    as (_ & _ & (Hm0 & Hp0 & Hmod0) & Hm & Hp & Hmod & _ & _ & Hlen & Hcons & Hinv).
  { unfold memory_size, page_size, engine, gui, session.
    apply (foldl_invariant
             (λ gui,
                let engine := MemoryVisualizerGUI.memory_manager gui in
                ProcessGenerator.min_size (MemoryVisualizerGUI.process_generator gui) = 4
                ∧ ProcessGenerator.max_size
                    (MemoryVisualizerGUI.process_generator gui) = 64
                ∧ (0 < MemoryVisualizerGUI.memory_size gui
                   ∧ 0 < MemoryVisualizerGUI.page_size gui
                   ∧ MemoryVisualizerGUI.memory_size gui
                       `mod` MemoryVisualizerGUI.page_size gui = 0)
                ∧ well_configured (total_memory_size engine)
                    (MemoryManager.page_size engine) engine)).
    - split_and!; [done..|]. by apply (well_configured_init 256 16).
    - intros gui' action Haction. apply well_configured_handle.
      rewrite Forall_forall in Hactions. by apply Hactions. }
  split_and!; try done.
  - rewrite <- Hlen. by rewrite Z.div_mul by lia.
  - by apply range_invariant_model.
  - intros Hreturns. unfold memory_size, page_size, engine, gui, session.
    apply (foldl_invariant
             (λ gui,
                total_memory_size (MemoryVisualizerGUI.memory_manager gui)
                  = MemoryVisualizerGUI.memory_size gui
                ∧ MemoryManager.page_size (MemoryVisualizerGUI.memory_manager gui)
                  = MemoryVisualizerGUI.page_size gui)); [done|].
    intros gui' action Haction. apply settings_handle.
    rewrite Forall_forall in Hreturns. by apply Hreturns.
Qed.

(** A session in which one application of the settings is refused by the
    check, one goes through, and one is left by its constructor. *)
Lemma gui_engine_is_well_configured_witness :
  let gui :=
    session [AddProcess (Some 32) PAGING; AddRandomProcess 20 SEGMENTATION;
             ApplySettings (Some 100) (Some 30) true;
             ApplySettings (Some 512) (Some 32) true; RemoveProcess (Some 1);
             ApplySettings (Some (2 ^ 70)) (Some 1) false;
             AddProcess (Some 40) SEGMENTATION] in
  let engine := MemoryVisualizerGUI.memory_manager gui in
  (0 < 2 ^ 70 ∧ 0 < 1 ∧ 2 ^ 70 `mod` 1 = 0)
  ∧ (0 < 512 ∧ 0 < 32 ∧ 512 `mod` 32 = 0)
  ∧ Z.of_nat (length (page_table engine)) = 512 `div` 32
  ∧ consistent engine
  ∧ range_model 512 (memory_blocks engine).
Proof.
  pose proof (gui_engine_is_well_configured
                [AddProcess (Some 32) PAGING; AddRandomProcess 20 SEGMENTATION;
                 ApplySettings (Some 100) (Some 30) true;
                 ApplySettings (Some 512) (Some 32) true; RemoveProcess (Some 1);
                 ApplySettings (Some (2 ^ 70)) (Some 1) false;
                 AddProcess (Some 40) SEGMENTATION])
    as H.
  destruct H as (H1 & H2 & H3 & H4 & H5 & _); [repeat constructor; simpl; lia|].
  split; [exact H1|]. split; [exact H2|]. split; [exact H3|].
  split; [exact H4|exact H5].
Defined.

(* ===================================================================== *)
(** * Further properties: free memory under paging *)
(* ===================================================================== *)

Section whole_frames.
Variable page_size : Z.
Hypothesis page_size_positive : 0 < page_size.
Implicit Types (pt : list (option Z)) (blocks : list MemoryBlock.t).

(** Under the invariant of the paging-only histories the frame table can be
    read off the block list. *)
Lemma table_of_agreeing_blocks pt blocks (k : nat) e :
  tiles (Z.of_nat k * page_size) blocks e →
  Forall (block_agrees page_size pt) blocks →
  Z.of_nat (length pt) * page_size = e →
  drop k pt = table_of_blocks page_size blocks.
Proof.
  revert k. induction blocks as [|b blocks IH]; intros k Htiles Hagree Hlen.
  - simpl in *. apply drop_ge. nia.
  - destruct Htiles as (Hstart & Hsize & Hrest).
    apply Forall_cons in Hagree as [(k' & m & Hk & Hm & Hframes) Hagree].
    assert (k' = Z.of_nat k) as -> by nia.
    assert (0 < m) as Hmpos by nia.
    assert (Z.of_nat k + m ≤ Z.of_nat (length pt)) as Hbound.
    { pose proof (Hframes (Z.to_nat (Z.of_nat k + m - 1)) ltac:(lia)) as Hlast.
      apply lookup_lt_Some in Hlast. lia. }
    unfold table_of_blocks. simpl. fold (table_of_blocks page_size blocks).
    rewrite Hm, Z.div_mul by lia.
    rewrite <- (take_drop (Z.to_nat m) (drop k pt)). f_equal.
    + apply list_eq. intros i.
      destruct (decide (i < Z.to_nat m)%nat) as [Hi|Hi].
      * rewrite lookup_take_lt, lookup_drop by done.
        rewrite lookup_replicate_2 by done. apply Hframes. lia.
      * rewrite lookup_take_ge by lia. symmetry.
        apply lookup_replicate_None. lia.
    + rewrite drop_drop.
      replace (k + Z.to_nat m)%nat with (Z.to_nat (Z.of_nat k + m)) by lia.
      apply IH; [|done|done].
      replace (Z.of_nat (Z.to_nat (Z.of_nat k + m)) * page_size)
        with (Z.of_nat k * page_size + MemoryBlock.size b) by nia.
      done.
Qed.

Lemma frames_of_app owner pt pt' :
  frames_of owner (pt ++ pt') = (frames_of owner pt + frames_of owner pt')%nat.
Proof. unfold frames_of. by rewrite filter_app, length_app. Qed.

Lemma frames_of_replicate owner (n : nat) (o : option Z) :
  frames_of owner (replicate n o) = if decide (o = owner) then n else 0%nat.
Proof.
  unfold frames_of. induction n as [|n IH]; simpl.
  - by destruct (decide (o = owner)).
  - rewrite filter_cons. revert IH.
    destruct (decide (o = owner)); intros IH; simpl; by rewrite IH.
Qed.

(** The free frames of such a table are the frames of the free blocks. *)
Lemma free_frames_of_blocks blocks :
  Forall (λ b, ∃ m, 0 ≤ m ∧ MemoryBlock.size b = m * page_size) blocks →
  total_free blocks
  = page_size * Z.of_nat (frames_of None (table_of_blocks page_size blocks)).
Proof.
  unfold total_free, free_sizes, table_of_blocks.
  induction 1 as [|b blocks (m & Hmpos & Hm) _ IH]; simpl.
  { unfold frames_of. simpl. lia. }
  rewrite filter_cons, frames_of_app, frames_of_replicate.
  rewrite Hm, Z.div_mul by lia.
  destruct b as [start size [pid|]]; simpl in *.
  - exact IH.
  - unfold fmap, sum_list in *. simpl. nia.
Qed.
End whole_frames.

(** X12. Paging knows no external fragmentation. After any history that
    uses the paging strategy only, on an engine of a valid configuration,
    the frame table is the block list read frame by frame; the free memory
    is page_size times the number of free frames and the used memory
    page_size times the number of owned frames; so a paging request with an
    id that is not live succeeds exactly when the free memory holds the
    pages that the size asks for, wherever the free blocks lie. *)
Theorem paging_uses_all_free_memory (total page_size : Z) (s0 : MemoryManager.t)
    (history : list Call) (pid size : Z) :
  0 < total → 0 < page_size → total `mod` page_size = 0 →
  __init__ total page_size = Return s0 →
  Forall paging_only history →
  let s := run s0 history in
  let free_frames := frames_of None (page_table s) in
  page_table s = table_of_blocks page_size (memory_blocks s)
  ∧ total_free (memory_blocks s) = page_size * Z.of_nat free_frames
  ∧ used_memory (memory_blocks s)
    = page_size * (Z.of_nat (length (page_table s)) - Z.of_nat free_frames)
  ∧ (processes s !! pid = None →
     ((allocate_process s pid size PAGING).1 = Return true
      ↔ pages_needed size page_size * page_size ≤ total_free (memory_blocks s))).
Proof.
  intros Htotal Hps Hmod Hinit Hhistory s free_frames.
  assert (paged total page_size s)
    as (Ht & Hpage & Hcons & [Htiles Hnaf] & Hagree & Hlen).
  { apply (run_invariant (paged total page_size) paging_only); [|by intros; apply paged_call|done].
    by apply paged_init. }
  assert (page_table s = table_of_blocks page_size (memory_blocks s)) as Htable.
  { rewrite <- (table_of_agreeing_blocks page_size Hps (page_table s)
                  (memory_blocks s) 0 total); [done| |done|done].
    by rewrite Z.mul_0_l. }
  assert (total_free (memory_blocks s) = page_size * Z.of_nat free_frames) as Hfree.
  { unfold free_frames. rewrite Htable at 1.
    apply free_frames_of_blocks; [done|].
    pose proof (tiles_sizes _ _ _ Htiles) as Hsizes.
    rewrite Forall_forall in Hagree, Hsizes |- *. intros b Hb.
    destruct (Hagree b Hb) as (k & m & _ & Hm & _). specialize (Hsizes b Hb).
    exists m. split; [nia|done]. }
  pose proof (tiles_sum _ _ _ Htiles) as Hsum.
  pose proof (used_free_sum (memory_blocks s)) as Hsplit.
  split_and!; [done|done|lia|].
  intros Hfresh. rewrite Hfree. unfold free_frames. rewrite frames_of_free.
  destruct (decide (Z.of_nat (length (enumerate_free 0 (page_table s)))
                      < pages_needed size (MemoryManager.page_size s)))
    as [Hfew|Henough].
  - rewrite allocate_paging_failure by done. simpl. rewrite Hpage in Hfew.
    split; [done|]. nia.
  - rewrite allocate_paging_success by done. simpl. rewrite Hpage in Henough.
    split; [|done]. nia.
Qed.

Lemma paging_uses_all_free_memory_witness :
  let s := run (initial_state 64 16)
             [Allocate 1 16 PAGING; Allocate 2 16 PAGING; Allocate 3 16 PAGING;
              Deallocate 1; Deallocate 3] in
  (allocate_process s 4 40 PAGING).1 = Return true
  ↔ pages_needed 40 16 * 16 ≤ total_free (memory_blocks s).
Proof.
  pose proof (paging_uses_all_free_memory 64 16 (initial_state 64 16)
                [Allocate 1 16 PAGING; Allocate 2 16 PAGING; Allocate 3 16 PAGING;
                 Deallocate 1; Deallocate 3] 4 40
                ltac:(lia) ltac:(lia) ltac:(reflexivity) ltac:(reflexivity)
                ltac:(repeat constructor)) as (_ & _ & _ & H).
  apply H. reflexivity.
Defined.

(* ===================================================================== *)
(** * Further properties: the snapshots *)
(* ===================================================================== *)

(** X13. The two snapshots show the same memory. After any history that
    uses the paging strategy only, on an engine of a valid configuration,
    [get_page_table_snapshot] has one entry per frame, in frame order, the
    entry of frame i spanning the addresses from i * page_size to
    (i + 1) * page_size - 1, so that the entries cover [0, total) without
    gap or overlap; and each entry lies inside one entry of
    [get_memory_snapshot] that names the same owner and is marked free
    exactly when the frame has no owner. *)
Theorem snapshots_agree (total page_size : Z) (s0 : MemoryManager.t)
    (history : list Call) :
  0 < total → 0 < page_size → total `mod` page_size = 0 →
  __init__ total page_size = Return s0 →
  Forall paging_only history →
  let s := run s0 history in
  let frames := get_page_table_snapshot s in
  let blocks := get_memory_snapshot s in
  Z.of_nat (length frames) * page_size = total
  ∧ ∀ (i : nat) frame, frames !! i = Some frame →
      FrameInfo.frame_id frame = i
      ∧ FrameInfo.start_address frame = Z.of_nat i * page_size
      ∧ FrameInfo.end_address frame = FrameInfo.start_address frame + page_size - 1
      ∧ ∃ block,
          block ∈ blocks
          ∧ BlockInfo.start block ≤ FrameInfo.start_address frame
          ∧ FrameInfo.end_address frame ≤ BlockInfo.end_ block
          ∧ BlockInfo.end_ block = BlockInfo.start block + BlockInfo.size block - 1
          ∧ BlockInfo.process_id block = FrameInfo.process_id frame
          ∧ (BlockInfo.is_free block = true ↔ FrameInfo.process_id frame = None).
Proof.
  intros Htotal Hps Hmod Hinit Hhistory s frames blocks.
  assert (paged total page_size s) as Hpaged.
  { apply (run_invariant (paged total page_size) paging_only);
      [|by intros; apply paged_call|done].
    by apply paged_init. }
  pose proof Hpaged as (Ht & Hpage & Hcons & Hinv & Hagree & Hlen).
  unfold frames, blocks, get_page_table_snapshot, get_memory_snapshot.
  rewrite length_imap. split; [done|].
  intros i frame Hframe.
  apply list_lookup_imap_Some in Hframe as (owner & Hi & ->). simpl.
  rewrite Hpage. split_and!; [done|done|lia|].
  destruct (paged_frame_block total page_size s i owner Hps Hpaged Hi)
    as (b & Hb & Howner & Hstart & Hend).
  eexists. split; [apply list_elem_of_fmap; by exists b|]. simpl.
  split_and!; [done|lia|done|done|].
  unfold MemoryBlock.is_free. rewrite Howner. by destruct owner.
Qed.

Lemma snapshots_agree_witness :
  let s := run (initial_state 64 16)
             [Allocate 1 40 PAGING; Allocate 2 16 PAGING; Deallocate 1] in
  Z.of_nat (length (get_page_table_snapshot s)) * 16 = 64
  ∧ ∀ (i : nat) frame, get_page_table_snapshot s !! i = Some frame →
      FrameInfo.frame_id frame = i
      ∧ FrameInfo.start_address frame = Z.of_nat i * 16
      ∧ FrameInfo.end_address frame = FrameInfo.start_address frame + 16 - 1
      ∧ ∃ block,
          block ∈ get_memory_snapshot s
          ∧ BlockInfo.start block ≤ FrameInfo.start_address frame
          ∧ FrameInfo.end_address frame ≤ BlockInfo.end_ block
          ∧ BlockInfo.end_ block = BlockInfo.start block + BlockInfo.size block - 1
          ∧ BlockInfo.process_id block = FrameInfo.process_id frame
          ∧ (BlockInfo.is_free block = true ↔ FrameInfo.process_id frame = None).
Proof.
  apply (snapshots_agree 64 16 (initial_state 64 16)
           [Allocate 1 40 PAGING; Allocate 2 16 PAGING; Deallocate 1]).
  - lia.
  - lia.
  - reflexivity.
  - reflexivity.
  - repeat constructor.
Defined.
